(** * Merge-insertion sort (Ford-Johnson) of [merge-insertion.ts]

    A shallow embedding of the TypeScript module and the proofs of its
    specification.  JavaScript numbers that hold integers are modelled
    by [Z]; arrays by lists; the asynchronous comparator by the [Await]
    node of a small free monad, so that one function of the module is one
    tree of comparator queries. *)

From Stdlib Require Import ZArith Lia ZifyNat List Sorting.Sorted.
From stdpp Require Import base list numbers sorting strings.

Open Scope Z_scope.

(** ** Errors thrown by the module

    The first four are the [throw new Error(...)] statements of the source.
    [ErrUndefined] stands for a non-null assertion [x!] whose operand is
    [undefined], and [ErrOutOfFuel] for a loop of the model that was not
    given enough iterations; both are shown unreachable. *)
Inductive Error : Type :=
| ErrDuplicateItems     (* 'array may not contain duplicate items' *)
| ErrAlreadyInTarget    (* 'item is already in target array' *)
| ErrNegativeCount      (* 'must specify zero or more items' *)
| ErrRightNegative      (* 'right index may not be negative' *)
| ErrUndefined
| ErrOutOfFuel.

(** ** JavaScript array primitives *)

(** [array[i]] for a number [i] holding an integer: [undefined] ([None])
    outside of the array. *)
Definition at_index {A} (l : list A) (i : Z) : option A :=
  if i <? 0 then None else l !! Z.to_nat i.

(** The clamping of a relative index done by [slice] and [splice]. *)
Definition clamp_index (len i : Z) : Z :=
  if i <? 0 then Z.max (len + i) 0 else Z.min i len.

(** [array.slice(start, end)]. *)
Definition slice {A} (start end_ : Z) (l : list A) : list A :=
  let len := Z.of_nat (length l) in
  let s := clamp_index len start in
  let e := clamp_index len end_ in
  take (Z.to_nat (e - s)) (drop (Z.to_nat s) l).

(** [array.splice(start, 0, x)]: insertion of [x] before [start]. *)
Definition splice_insert {A} (start : Z) (x : A) (l : list A) : list A :=
  let s := Z.to_nat (clamp_index (Z.of_nat (length l)) start) in
  take s l ++ x :: drop s l.

(** [array.map((e,i) => [i, e])]. *)
Definition with_index {A} (l : list A) : list (Z * A) :=
  imap (fun i e => (Z.of_nat i, e)) l.

(** ** The group sizes: [_groupSizes]

    The generator is its state ([prev], [i]) and the step [gen_next] that
    runs the loop body up to the next [yield].  The sizes are integers
    here.  In the source they are binary64 numbers, which hold the first
    54 sizes exactly and round from the 55th on ([2^55 - size(54)] has 55
    significant bits); [gen_next_binary64] below is the step with that
    rounding.  An array of fewer than [2^32] items is cut with the first
    33 sizes at most. *)
Record GenState : Type := { gen_prev : Z; gen_i : Z }.

Definition _groupSizes : GenState := {| gen_prev := 0; gen_i := 1 |}.

Definition gen_next (g : GenState) : Z * GenState :=
  let cur := 2 ^ gen_i g - gen_prev g in
  (cur, {| gen_prev := cur; gen_i := gen_i g + 1 |}).

(** The first [n] values yielded by a generator. *)
Fixpoint gen_take (n : nat) (g : GenState) : list Z :=
  match n with
  | O => []
  | S n' => let '(cur, g') := gen_next g in cur :: gen_take n' g'
  end.

(** ** [_makeGroups]

    The [while (true)] loop, one iteration per unit of fuel; [None] when the
    fuel runs out before the [break]. *)
Fixpoint makeGroups_loop {A} (fuel : nat) (items : list (Z * A))
    (gen : GenState) (i : Z) (rv : list (Z * A)) : option (list (Z * A)) :=
  match fuel with
  | O => None
  | S fuel' =>
      let '(size, gen') := gen_next gen in
      let group := reverse (slice i (i + size) items) in
      let rv' := rv ++ group in
      if Z.of_nat (length group) <? size then Some rv'
      else makeGroups_loop fuel' items gen' (i + size) rv'
  end.

Definition _makeGroups {A} (array : list A) : option (list (Z * A)) :=
  makeGroups_loop (S (length array)) (with_index array) _groupSizes 0 [].

(** ** [mergeInsertionMaxComparisons]

    [Math.log2] is taken with its exact real value: [ceil_log2 num den] is
    [Math.ceil(Math.log2(num/den))] and [floor_log2 n] is
    [Math.floor(Math.log2(n))], for positive arguments.  The arguments the
    function passes, [3n/4] and [6n], are never powers of two.  In the
    source [Math.log2] returns a binary64 number, so that an argument
    close enough to a power of two gets the logarithm of that power: for
    [n = 187649984473771], where [3n/4 = 2^47 + 1/4], the source computes
    47 and [ceil_log2] is 48.  For [n] below [2^32], the lengths that an
    array can have, [3n/4] and [6n] are exact and differ from every power
    of two by at least a quarter, so that their logarithms differ from
    every integer by more than [2^-36], over a thousand times the distance
    between neighbouring binary64 numbers there: for these [n] the
    integers are those of the source. *)
Definition ceil_log2 (num den : Z) : Z :=
  if num <=? den then - Z.log2 (den / num)
  else Z.log2_up ((num + den - 1) / den).

Definition floor_log2 (n : Z) : Z := Z.log2 n.

Definition mergeInsertionMaxComparisons (n : Z) : Error + Z :=
  if n <? 0 then inl ErrNegativeCount
  else if n =? 0 then inr 0
  else inr (n * ceil_log2 (3 * n) 4
            - 2 ^ floor_log2 (6 * n) / 3
            + floor_log2 (6 * n) / 2).

(** ** Programs that await the comparator

    An [async] function of the module is a tree: it returns, throws, or
    awaits [comp([a, b])] and goes on with the answer ([true] for [1], the
    second item is ranked higher; [false] for [0]). *)
Section Program.
Context {T : Type} `{EqDecision T}.

Inductive Prog (A : Type) : Type :=
| Ret (a : A)
| Throw (e : Error)
| Await (a b : T) (k : bool -> Prog A).
Global Arguments Ret {A} a.
Global Arguments Throw {A} e.
Global Arguments Await {A} a b k.

Fixpoint bind {A B} (p : Prog A) (f : A -> Prog B) : Prog B :=
  match p with
  | Ret a => f a
  | Throw e => Throw e
  | Await a b k => Await a b (fun c => bind (k c) f)
  end.

Global Instance prog_ret : MRet Prog := @Ret.
Global Instance prog_bind : MBind Prog := fun A B f p => bind p f.

(** [await comp([a!, b!])]. *)
Definition await_comp (a b : option T) : Prog bool :=
  match a, b with
  | Some a, Some b => Await a b Ret
  | _, _ => Throw ErrUndefined
  end.

(** A value that a non-null assertion [x!] was applied to. *)
Definition non_null {A} (x : option A) : Prog A :=
  match x with
  | Some a => Ret a
  | None => Throw ErrUndefined
  end.

(** The result of a loop of the model: [None] when its fuel ran out. *)
Definition fueled {A} (x : option A) : Prog A :=
  match x with
  | Some a => Ret a
  | None => Throw ErrOutOfFuel
  end.

(** ** [_binInsertIdx] *)
Fixpoint binInsertIdx_loop (fuel : nat) (array : list T) (item : T)
    (l r : Z) : Prog Z :=
  if l <=? r then
    match fuel with
    | O => Throw ErrOutOfFuel
    | S fuel' =>
        let m := l + (r - l) / 2 in
        c ← await_comp (Some item) (at_index array m);
        if c : bool then binInsertIdx_loop fuel' array item l (m - 1)
        else binInsertIdx_loop fuel' array item (m + 1) r
    end
  else Ret l.

Definition _binInsertIdx (array : list T) (item : T) : Prog Z :=
  if Z.of_nat (length array) <? 1 then Ret 0
  else if bool_decide (item ∈ array) then Throw ErrAlreadyInTarget
  else if Z.of_nat (length array) =? 1 then
    c ← await_comp (Some item) (at_index array 0);
    Ret (if c : bool then 0 else 1)
  else binInsertIdx_loop (length array) array item 0
         (Z.of_nat (length array) - 1).

(** ** A [Map] with items as keys: the entries in insertion order *)
Definition map_get {V} (k : T) (m : list (T * V)) : option V :=
  snd <$> find (fun p => bool_decide (fst p = k)) m.

Fixpoint map_set {V} (k : T) (v : V) (m : list (T * V)) : list (T * V) :=
  match m with
  | [] => [(k, v)]
  | (k', v') :: m' =>
      if decide (k' = k) then (k, v) :: m' else (k', v') :: map_set k v m'
  end.

Definition map_keys (m : list (T * T)) : list T := fst <$> m.

(** ** The main chain

    A [SortingPair] object is its identity [oid] and its [item] field, which
    is never assigned after creation.  Its optional [smaller] field is
    deleted in place while other arrays still hold the object, so it lives
    in a store indexed by identity. *)
Record SortingPair : Type := { oid : nat; item : T }.

Record Heap : Type := { next_oid : nat; smaller_of : nat -> option T }.

Definition empty_heap : Heap :=
  {| next_oid := 0; smaller_of := fun _ => None |}.

(** [{ item: x, smaller: s }], or [{ item: x }] when [s] is [None]. *)
Definition new_pair (x : T) (s : option T) (h : Heap) : SortingPair * Heap :=
  ({| oid := next_oid h; item := x |},
   {| next_oid := S (next_oid h);
      smaller_of := fun o => if decide (o = next_oid h) then s
                             else smaller_of h o |}).

(** [delete p.smaller]. *)
Definition delete_smaller (p : SortingPair) (h : Heap) : Heap :=
  {| next_oid := next_oid h;
     smaller_of := fun o => if decide (o = oid p) then None
                            else smaller_of h o |}.

(** [larger.map( l => ({ item: l, smaller: pairs.get(l)! }) )]. *)
Fixpoint new_chain (pairs : list (T * T)) (larger : list T) (h : Heap)
    : list SortingPair * Heap :=
  match larger with
  | [] => ([], h)
  | l :: larger' =>
      let '(p, h1) := new_pair l (map_get l pairs) h in
      let '(ps, h2) := new_chain pairs larger' h1 in
      (p :: ps, h2)
  end.

(** [mainChain.findIndex(v => Object.is(v, pair))]. *)
Fixpoint findIndex (pair_ : SortingPair) (mainChain : list SortingPair) : Z :=
  match mainChain with
  | [] => -1
  | v :: rest =>
      if decide (oid v = oid pair_) then 0
      else let i := findIndex pair_ rest in if i <? 0 then -1 else i + 1
  end.

(** The first loop of [mergeInsertionSort]: one comparison per pair of
    neighbours [array[i]], [array[i+1]], for [i = 0, 2, 4, ...]. *)
Fixpoint pairs_loop (array : list T) (pairs : list (T * T))
    : Prog (list (T * T)) :=
  match array with
  | a :: b :: rest =>
      Await a b (fun c =>
        pairs_loop rest (if c then map_set b a pairs else map_set a b pairs))
  | _ => Ret pairs
  end.

(** The last loop of [mergeInsertionSort]: [for (const pair of groups)]. *)
Fixpoint insert_loop (groups : list SortingPair) (h : Heap)
    (mainChain : list SortingPair) : Prog (list SortingPair) :=
  match groups with
  | [] => Ret mainChain
  | pair_ :: groups' =>
      '(insertItem, insertIdx) ←
        match smaller_of h (oid pair_) with
        | None =>
            idx ← _binInsertIdx (item <$> mainChain) (item pair_);
            Ret (item pair_, idx)
        | Some s =>
            let pairIdx := findIndex pair_ mainChain in
            idx ← _binInsertIdx (item <$> slice 0 pairIdx mainChain) s;
            Ret (s, idx)
        end;
      let '(p, h1) := new_pair insertItem None h in
      let mainChain' := splice_insert insertIdx p mainChain in
      let h2 := delete_smaller pair_ h1 in
      insert_loop groups' h2 mainChain'
  end.

Definition has_duplicates (array : list T) : bool :=
  negb (length array =? length (remove_dups array))%nat.

(** ** [mergeInsertionSort]

    [main_chain_steps] is the part of the function after the recursive
    call: building the main chain (step 3a), moving the smallest item to
    its front (step 4) and inserting the remaining items (step 5). *)
Definition main_chain_steps (array : list T) (pairs : list (T * T))
    (larger : list T) : Prog (list T) :=
  let '(mainChain, h) := new_chain pairs larger empty_heap in
  first ← non_null (mainChain !! 0%nat);
  s ← non_null (smaller_of h (oid first));
  let '(p, h) := new_pair s None h in
  let mainChain := p :: mainChain in
  second ← non_null (mainChain !! 1%nat);
  let h := delete_smaller second h in
  let toInsert := slice 2 (Z.of_nat (length mainChain)) mainChain in
  '(toInsert, h) ←
    (if Z.of_nat (length array) mod 2 =? 0 then Ret (toInsert, h)
     else
       leftover ← non_null (at_index array (Z.of_nat (length array) - 1));
       let '(p, h) := new_pair leftover None h in
       Ret (toInsert ++ [p], h));
  groups ← fueled (_makeGroups toInsert);
  mainChain ← insert_loop (snd <$> groups) h mainChain;
  Ret (item <$> mainChain).

(** The recursion on the larger items of the pairs takes one unit of fuel;
    [mergeInsertionSort] gives it the length of the array. *)
Fixpoint mergeInsertionSort_rec (fuel : nat) (array : list T)
    : Prog (list T) :=
  match array with
  | [] => Ret []
  | [_] => Ret array
  | _ =>
    if has_duplicates array then Throw ErrDuplicateItems
    else
      match array with
      | [a0; a1] =>
          Await a0 a1 (fun c => Ret (if c then array else [a1; a0]))
      | _ =>
        match fuel with
        | O => Throw ErrOutOfFuel
        | S fuel' =>
          pairs ← pairs_loop array [];
          larger ← mergeInsertionSort_rec fuel' (map_keys pairs);
          main_chain_steps array pairs larger
        end
      end
  end.

End Program.

Section Run.
Context {T : Type} `{EqDecision T}.

Definition mergeInsertionSort (array : list T) : Prog (list T) :=
  mergeInsertionSort_rec (length array) array.

(** ** Running a program against a comparator

    A comparator is any behaviour of the caller's function: its answer may
    depend on the calls made so far (most recent first), and [None] is a
    rejected promise, which aborts the program. *)
Definition Comparator : Type := list (T * T) -> T -> T -> option bool.

Inductive Outcome (A : Type) : Type :=
| Returned (a : A)
| Thrown (e : Error)
| Rejected.
Global Arguments Returned {A} a.
Global Arguments Thrown {A} e.
Global Arguments Rejected {A}.

Fixpoint run {A} (comp : Comparator) (p : Prog A) (calls : list (T * T))
    : list (T * T) * Outcome A :=
  match p with
  | Ret a => (calls, Returned a)
  | Throw e => (calls, Thrown e)
  | Await a b k =>
      match comp calls a b with
      | Some c => run comp (k c) ((a, b) :: calls)
      | None => ((a, b) :: calls, Rejected)
      end
  end.

(** ** Properties of all runs of a program

    [wp beh p Q]: on every path of [p] on which each response [r] of the
    comparator to [comp([a, b])] is allowed by [beh a b r] ([Some c] an
    answer, [None] a rejection), the calls made (most recent first) and
    the outcome satisfy [Q]. *)
Fixpoint wp {A} (beh : T -> T -> option bool -> Prop) (p : Prog A)
    (Q : list (T * T) -> Outcome A -> Prop) : Prop :=
  match p with
  | Ret a => Q [] (Returned a)
  | Throw e => Q [] (Thrown e)
  | Await a b k =>
      (beh a b None -> Q [(a, b)] Rejected)
      /\ forall c, beh a b (Some c) ->
                   wp beh (k c) (fun l o => Q (l ++ [(a, b)]) o)
  end.

(** A rejected run ends with a call that [beh] allows to be rejected. *)
Definition rejected_by (beh : T -> T -> option bool -> Prop) {A} (l : list (T * T)) (o : Outcome A) : Prop :=
  o = Rejected -> exists a b l', l = (a, b) :: l' /\ beh a b None.

(** Every response is possible. *)
Definition any_response : T -> T -> option bool -> Prop := fun _ _ _ => True.

(** The responses of a comparator derived from the order [R]: on two
    different items it answers, and [1] exactly when the second item is
    ranked higher.  Nothing is said of equal items. *)
Definition order_response (R : relation T) : T -> T -> option bool -> Prop :=
  fun a b r => a <> b -> exists c, r = Some c /\ (c = true <-> R a b).

(** The comparator [comp] responds as [beh] allows. *)
Definition responds (comp : Comparator) (beh : T -> T -> option bool -> Prop)
    : Prop :=
  forall calls a b, beh a b (comp calls a b).

(** [comp] is derived from the order [R]. *)
Definition derived_from (R : relation T) (comp : Comparator) : Prop :=
  responds comp (order_response R).

End Run.

(** ** The grouping, as the specification words it

    [group_size i] is the size of the [i]-th group: [size(1) = 2] and
    [size(i) = 2^i - size(i-1)].  [chunks sizes l] cuts [l] into consecutive
    groups of the given sizes, the last one shorter when [l] is exhausted. *)
Fixpoint group_size (i : nat) : Z :=
  match i with
  | O => 0
  | S O => 2
  | S j => 2 ^ Z.of_nat i - group_size j
  end.

Fixpoint chunks {A} (sizes : list Z) (l : list A) : list (list A) :=
  match sizes with
  | [] => []
  | s :: sizes' => take (Z.to_nat s) l :: chunks sizes' (drop (Z.to_nat s) l)
  end.

(** Each group reversed, the groups in ascending order. *)
Definition grouped {A} (l : list A) : list A :=
  concat (@reverse A <$> chunks (group_size <$> seq 1 (S (length l))) l).

(** The state of the generator after [k] values. *)
Definition gen_at (k : nat) : GenState :=
  {| gen_prev := group_size k; gen_i := Z.of_nat (S k) |}.

(** ** What a binary search does

    [probes array item ms calls]: the calls compare [item] with the items
    of [array] at the indices [ms].  [search_post beh array item lo hi] is
    what holds of a search of the range [lo <= i < hi]: it probes
    different indices of the range, no more than [k] of them when the range
    has less than [2^k] places, and it returns an index of the range (or
    [hi]) whose left neighbour was answered [0] and which was itself
    answered [1]. *)
Section SearchPost.
Context {T : Type} `{EqDecision T}.

Definition probes (array : list T) (item : T) (ms : list Z)
    (calls : list (T * T)) : Prop :=
  Forall2 (fun c m => c.1 = item /\ at_index array m = Some c.2) calls ms.

Definition search_post (beh : T -> T -> option bool -> Prop)
    (array : list T) (item : T) (lo hi : Z)
    (calls : list (T * T)) (o : Outcome Z) : Prop :=
  (exists ms, probes array item ms calls /\ NoDup ms
              /\ Forall (fun m => lo <= m < hi) ms)
  /\ (forall k : nat, hi - lo < 2 ^ Z.of_nat k -> (length calls <= k)%nat)
  /\ match o with
     | Returned idx =>
         lo <= idx <= hi
         /\ (idx = lo \/ exists x, at_index array (idx - 1) = Some x
                                  /\ beh item x (Some false))
         /\ (idx = hi \/ exists x, at_index array idx = Some x
                                  /\ beh item x (Some true))
     | Thrown _ => False
     | Rejected => True
     end.

End SearchPost.

(** ** The state of the insertion loop *)
Section ChainState.
Context {T : Type} `{EqDecision T}.
Implicit Types (h : Heap (T := T)) (g p : SortingPair (T := T)).

(** The item that the loop inserts for the entry [g] of [groups]: its
    [smaller] item, or its own item when it is the leftover. *)
Definition pend h g : T := default (item g) (smaller_of h (oid g)).

(** The part of the main chain that is searched for [g]. *)
Definition search_prefix h (mainChain : list SortingPair) g : list SortingPair :=
  match smaller_of h (oid g) with
  | Some _ => slice 0 (findIndex g mainChain) mainChain
  | None => mainChain
  end.

(** The heap and the main chain after the insertion for [g] at [idx]. *)
Definition step_heap h g : Heap :=
  delete_smaller g (new_pair (pend h g) None h).2.

Definition step_chain h (mainChain : list SortingPair) g (idx : Z)
    : list SortingPair :=
  splice_insert idx (new_pair (pend h g) None h).1 mainChain.

(** [below beh a b]: an answer of the comparator ranks [a] below [b]. *)
Definition below (beh : T -> T -> option bool -> Prop) (a b : T) : Prop :=
  a <> b /\ (beh a b (Some true) \/ beh b a (Some false)).

(** The two calls [comp([a, b])] and [comp([b, a])] are for one pair. *)
Definition swap_call (c : T * T) : T * T := (c.2, c.1).

(** No pair of items is compared twice, and no item with itself. *)
Definition no_repeat (calls : list (T * T)) : Prop :=
  NoDup (calls ++ (swap_call <$> calls)).

(** The objects of the chain and of the pending entries are different
    objects holding different items, and an entry with a [smaller] item
    is in the chain. *)
Definition chain_inv h (mainChain groups : list SortingPair) : Prop :=
  NoDup (oid <$> mainChain)
  /\ NoDup (oid <$> groups)
  /\ (forall p, p ∈ mainChain ++ groups -> (oid p < next_oid h)%nat)
  /\ (forall g, g ∈ groups -> is_Some (smaller_of h (oid g)) -> g ∈ mainChain)
  /\ NoDup ((item <$> mainChain) ++ (pend h <$> groups)).

(** The chain ascends by the answers of the comparator, and so does each
    pending [smaller] item to its chain item. *)
Definition order_inv (beh : T -> T -> option bool -> Prop) h
    (mainChain groups : list SortingPair) : Prop :=
  Sorted (below beh) (item <$> mainChain)
  /\ (forall g s, g ∈ groups -> smaller_of h (oid g) = Some s ->
                  below beh s (item g)).

(** The pairs made of the neighbours [array[i]], [array[i+1]]. *)
Fixpoint adjacent (array : list T) : list (T * T) :=
  match array with
  | a :: b :: rest => (a, b) :: adjacent rest
  | _ => []
  end.

(** [pairs] holds, for each pair of neighbours, the larger item as key and
    the smaller as value, by an answer of the comparator. *)
Inductive paired (beh : T -> T -> option bool -> Prop)
    : list T -> list (T * T) -> Prop :=
| paired_nil : paired beh [] []
| paired_one a : paired beh [a] []
| paired_cons a b rest c ps :
    beh a b (Some c) ->
    paired beh rest ps ->
    paired beh (a :: b :: rest) ((if c : bool then (b, a) else (a, b)) :: ps).

(** The smaller item of the pair of the larger item [k]. *)
Definition val (pairs : list (T * T)) (k : T) : T :=
  default k (map_get k pairs).

(** The item without a neighbour, when the length of the array is odd. *)
Definition leftover (array : list T) : list T :=
  if Z.of_nat (length array) mod 2 =? 0 then []
  else option_list (at_index array (Z.of_nat (length array) - 1)).

(** The calls of the insertion loop: a pending item is compared with an
    item of the chain or an item that was pending, and never with the item
    of its own entry. *)
Definition insert_calls h (mainChain groups : list SortingPair)
    (calls : list (T * T)) : Prop :=
  Forall (fun c =>
    c.1 ∈ pend h <$> groups
    /\ c.2 ∈ (item <$> mainChain) ++ (pend h <$> groups)
    /\ forall g, g ∈ groups -> c.1 = pend h g -> c.2 <> item g) calls.

(** The [i]-th entry to come is searched for in less than [2^k] places,
    [k] the [i]-th number of [ks], even if every insertion before it goes
    into its part of the chain. *)
Definition pos_inv h (mainChain groups : list SortingPair) (ks : list nat)
    : Prop :=
  length ks = length groups
  /\ forall (i : nat) g k, groups !! i = Some g -> ks !! i = Some k ->
       Z.of_nat (length (search_prefix h mainChain g) + i) < 2 ^ Z.of_nat k.

(** What holds of the insertion loop. *)
Definition insert_post (beh : T -> T -> option bool -> Prop) h
    (mainChain groups : list SortingPair) (ks : list nat)
    (calls : list (T * T)) (o : Outcome (list SortingPair)) : Prop :=
  insert_calls h mainChain groups calls
  /\ no_repeat calls
  /\ (length calls <= sum_list ks)%nat
  /\ match o with
     | Returned final =>
         item <$> final ≡ₚ (item <$> mainChain) ++ (pend h <$> groups)
         /\ Sorted (below beh) (item <$> final)
     | Thrown _ => False
     | Rejected => True
     end.

(** What holds of [mergeInsertionSort] on an array without duplicates:
    the calls compare items of the array, no pair twice, no more than
    [bound] of the length allows, and the result holds the items of the
    array in an order that ascends by the answers of the comparator. *)
Definition sort_post (beh : T -> T -> option bool -> Prop) (bound : nat -> nat)
    (array : list T) (calls : list (T * T)) (o : Outcome (list T)) : Prop :=
  Forall (fun c => c.1 ∈ array /\ c.2 ∈ array) calls
  /\ no_repeat calls
  /\ (length calls <= bound (length array))%nat
  /\ match o with
     | Returned result =>
         result ≡ₚ array /\ Sorted (below beh) result
     | Thrown _ => False
     | Rejected => True
     end.

(** What holds of the part of the sort after the recursive call: its
    calls compare an item that is no key of [pairs] with an item that is
    not the key of its pair. *)
Definition steps_post (beh : T -> T -> option bool -> Prop)
    (costs : nat -> list nat) (array : list T) (ps : list (T * T)) (q : nat)
    (calls : list (T * T)) (o : Outcome (list T)) : Prop :=
  Forall (fun c => c.1 ∈ array /\ c.2 ∈ array
                   /\ (c.1 ∉ fst <$> ps) /\ ((c.2, c.1) ∉ ps)) calls
  /\ no_repeat calls
  /\ (length calls <= sum_list (costs q))%nat
  /\ match o with
     | Returned result => result ≡ₚ array /\ Sorted (below beh) result
     | Thrown _ => False
     | Rejected => True
     end.

End ChainState.

(** ** The number of comparisons

    [step_cost i] is [Math.ceil(Math.log2((3*i)/4))], the term that the
    loop left in a comment of [mergeInsertionMaxComparisons] adds for [i],
    and [comparisons_sum n] is the sum that this loop computes.
    [insert_costs q] are the numbers of comparisons that the insertions of
    [q] items may take: the one at place [t] takes what the item
    [2t + 3] adds to the sum. *)
Definition step_cost (i : nat) : nat :=
  Z.to_nat (ceil_log2 (3 * Z.of_nat i) 4).

Definition comparisons_sum (n : nat) : nat :=
  sum_list (step_cost <$> seq 1 n).

Definition insert_costs (q : nat) : list nat :=
  (fun t => step_cost (2 * t + 3)) <$> seq 0 q.

(** The place in the pending list where the group after [k] groups
    starts. *)
Fixpoint group_start (k : nat) : Z :=
  match k with
  | O => 0
  | S k' => group_start k' + group_size k
  end.

(** The value of the closed formula, with [c = step_cost n]. *)
Definition closed_formula (n : nat) : Z :=
  Z.of_nat n * Z.of_nat (step_cost n)
  - 2 ^ Z.of_nat (S (S (step_cost n))) / 3
  + Z.of_nat (S (S (step_cost n))) / 2.

(** ** The calls of a run *)
Section Calls.
Context {T : Type} `{EqDecision T}.

(** No call is for a pair of items that an earlier call was for (the
    calls are most recent first). *)
Fixpoint no_pair_twice (calls : list (T * T)) : Prop :=
  match calls with
  | [] => True
  | c :: earlier =>
      (c ∉ earlier) /\ (swap_call c ∉ earlier) /\ no_pair_twice earlier
  end.

(** The number of different unordered pairs among the calls. *)
Fixpoint distinct_pairs (calls : list (T * T)) : nat :=
  match calls with
  | [] => O
  | c :: earlier =>
      if bool_decide (c ∈ earlier \/ swap_call c ∈ earlier)
      then distinct_pairs earlier
      else S (distinct_pairs earlier)
  end.

End Calls.

(** ** The earlier revision of the module

    The code of the revision that wraps the comparator in a cache:
    [_makeGroups] with the target indices, [_binInsert] that inserts in
    place up to a right index, [_cachedComparator], [_mergeInsertionSort]
    and the exported [mergeInsertionSort]. *)
Module Rev1.
Section Rev1.
Context {T : Type} `{EqDecision T}.

Fixpoint makeGroups_loop {A} (fuel : nat) (items : list A)
    (gen : GenState) (i : Z) (rv : list (Z * A)) : option (list (Z * A)) :=
  match fuel with
  | O => None
  | S fuel' =>
      let '(curGroupSize, gen') := gen_next gen in
      let curGroup :=
        reverse (imap (fun j e => (Z.of_nat j + i + 3, e))
                   (slice i (i + curGroupSize) items)) in
      let rv' := rv ++ curGroup in
      if Z.of_nat (length curGroup) <? curGroupSize then Some rv'
      else makeGroups_loop fuel' items gen' (i + curGroupSize) rv'
  end.

Definition _makeGroups {A} (items : list A) : option (list (Z * A)) :=
  makeGroups_loop (S (length items)) items _groupSizes 0 [].

(** [_binInsert]: the array is changed in place, so the function returns
    the array it leaves. *)
Fixpoint binInsert_loop (fuel : nat) (array : list T) (item : T)
    (l r : Z) : Prog Z :=
  if l <=? r then
    match fuel with
    | O => Throw ErrOutOfFuel
    | S fuel' =>
        let m := (l + r) / 2 in
        c ← await_comp (Some item) (at_index array m);
        if c : bool then binInsert_loop fuel' array item l (m - 1)
        else binInsert_loop fuel' array item (m + 1) r
    end
  else Ret l.

Definition _binInsert (array : list T) (right : Z) (item : T)
    : Prog (list T) :=
  if bool_decide (item ∈ array) then Throw ErrAlreadyInTarget
  else if right <? 0 then Throw ErrRightNegative
  else
    l ← binInsert_loop (length array) array item 0
          (Z.min right (Z.of_nat (length array) - 1));
    Ret (splice_insert l item array).

(** [for (const [idx, item] of groups) await _binInsert(results, idx-1, item, comparator)]. *)
Fixpoint binInsert_all (groups : list (Z * T)) (results : list T)
    : Prog (list T) :=
  match groups with
  | [] => Ret results
  | (idx, item) :: groups' =>
      results' ← _binInsert results (idx - 1) item;
      binInsert_all groups' results'
  end.

Fixpoint _mergeInsertionSort_rec (fuel : nat) (array : list T)
    : Prog (list T) :=
  match array with
  | [] => Ret []
  | [_] => Ret array
  | _ =>
    if has_duplicates array then Throw ErrDuplicateItems
    else
      match array with
      | [a0; a1] =>
          Await a0 a1 (fun c => Ret (if c then array else [a1; a0]))
      | _ =>
        match fuel with
        | O => Throw ErrOutOfFuel
        | S fuel' =>
          pairs ← pairs_loop array [];
          results ← _mergeInsertionSort_rec fuel' (map_keys pairs);
          first ← non_null (results !! 0%nat ≫= fun e => map_get e pairs);
          let results := first :: results in
          remaining ←
            non_null (mapM (fun e => map_get e pairs)
                        (slice 2 (Z.of_nat (length results)) results));
          remaining ←
            (if Z.of_nat (length array) mod 2 =? 0 then Ret remaining
             else
               last ← non_null (at_index array (Z.of_nat (length array) - 1));
               Ret (remaining ++ [last]));
          groups ← fueled (_makeGroups remaining);
          binInsert_all groups results
        end
      end
  end.

Definition _mergeInsertionSort (array : list T) : Prog (list T) :=
  _mergeInsertionSort_rec (length array) array.

(** The cache [Map<T, Map<T, 0|1>>] of [_cachedComparator]. *)
Definition Cache : Type := list (T * list (T * bool)).

(** [cache.has(a) && cache.get(a).has(b)], with [cache.get(a).get(b)]. *)
Definition cache_lookup (cache : Cache) (a b : T) : option bool :=
  map_get a cache ≫= map_get b.

(** [if (cache.has(a)) cache.get(a).set(b, rv) else cache.set(a, new Map([[b, rv]]))]. *)
Definition cache_store (a b : T) (rv : bool) (cache : Cache) : Cache :=
  match map_get a cache with
  | Some m => map_set a (map_set b rv m) cache
  | None => map_set a [(b, rv)] cache
  end.

(** [_cachedComparator(comp)]: a program that awaits the comparator it is
    given, run with the wrapped comparator in its place.  A call that the
    cache answers goes on without a call of [comp]. *)
Fixpoint _cachedComparator {A} (cache : Cache) (p : Prog A) : Prog A :=
  match p with
  | Ret a => Ret a
  | Throw e => Throw e
  | Await a b k =>
      match cache_lookup cache a b with
      | Some rv => _cachedComparator cache (k rv)
      | None =>
          match cache_lookup cache b a with
          | Some rv => _cachedComparator cache (k (negb rv))
          | None =>
              Await a b (fun rv =>
                _cachedComparator (cache_store a b rv cache) (k rv))
          end
      end
  end.

Definition mergeInsertionSort (array : list T) : Prog (list T) :=
  _cachedComparator [] (_mergeInsertionSort array).

End Rev1.
End Rev1.

(** ** The arrays of the caller

    To tell what [mergeInsertionSort] does to the array it is given, the
    arrays of items live in a store and the function takes and returns
    references.  A run is a tree as before, with the store at every call
    of the comparator and at its end, so that the store is known also
    when the run fails.  The function reads its array from the store,
    allocates each array of items that it creates ([[]], [Array.from],
    the array of the keys, its result) and awaits the recursive call on
    the reference of the keys; the work on the [Map] and on the main
    chain, which are no arrays of items, is the program of the model
    above, run at the current store. *)
Section Store.
Context {T : Type} `{EqDecision T}.

Definition Store : Type := list (list T).

Inductive Run (A : Type) : Type :=
| Done (o : Error + A) (st : Store)
| Ask (a b : T) (st : Store) (k : bool -> Run A).
Global Arguments Done {A} o st.
Global Arguments Ask {A} a b st k.

Definition St (A : Type) : Type := Store -> Run A.

Fixpoint run_bind {A B} (t : Run A) (f : A -> St B) : Run B :=
  match t with
  | Done (inr a) st => f a st
  | Done (inl e) st => Done (inl e) st
  | Ask a b st k => Ask a b st (fun c => run_bind (k c) f)
  end.

Definition st_bind {A B} (m : St A) (f : A -> St B) : St B :=
  fun st => run_bind (m st) f.

Definition st_throw {A} (e : Error) : St A := fun st => Done (inl e) st.

(** A new array with the items [l]. *)
Definition alloc_array (l : list T) : St nat :=
  fun st => Done (inr (length st)) (st ++ [l]).

(** The items of the array [r]. *)
Definition read_array (r : nat) : St (list T) :=
  fun st =>
    match st !! r with
    | Some l => Done (inr l) st
    | None => Done (inl ErrUndefined) st
    end.

(** A program that creates and changes no array of items of the store. *)
Fixpoint lift_prog {A} (p : Prog A) : St A :=
  fun st =>
    match p with
    | Ret a => Done (inr a) st
    | Throw e => Done (inl e) st
    | Await a b k => Ask a b st (fun c => lift_prog (k c) st)
    end.

Fixpoint mergeInsertionSort_store (fuel : nat) (array : nat) : St nat :=
  st_bind (read_array array) (fun items =>
  match items with
  | [] => alloc_array []
  | [_] => alloc_array items
  | _ =>
    if has_duplicates items then st_throw ErrDuplicateItems
    else
      match items with
      | [a0; a1] =>
          st_bind (lift_prog (Await a0 a1 Ret)) (fun c =>
          alloc_array (if c : bool then items else [a1; a0]))
      | _ =>
        match fuel with
        | O => st_throw ErrOutOfFuel
        | S fuel' =>
          st_bind (lift_prog (pairs_loop items [])) (fun pairs =>
          st_bind (alloc_array (map_keys pairs)) (fun keys =>
          st_bind (mergeInsertionSort_store fuel' keys) (fun larger =>
          st_bind (read_array larger) (fun larger_items =>
          st_bind (read_array array) (fun items' =>
          st_bind (lift_prog (main_chain_steps items' pairs larger_items))
            (fun result =>
          alloc_array result))))))
        end
      end
  end).

(** [mergeInsertionSort] on the array [array] of the store, with the fuel
    that the length of the array asks for. *)
Definition mergeInsertionSort_in_store (array : nat) : St nat :=
  fun st =>
    mergeInsertionSort_store (length (default [] (st !! array))) array st.

(** A run in the store against a comparator: the calls, the outcome and
    the store that it leaves. *)
Fixpoint exec {A} (comp : Comparator) (t : Run A) (calls : list (T * T))
    : list (T * T) * Outcome A * Store :=
  match t with
  | Done (inr a) st => (calls, Returned a, st)
  | Done (inl e) st => (calls, Thrown e, st)
  | Ask a b st k =>
      match comp calls a b with
      | Some c => exec comp (k c) ((a, b) :: calls)
      | None => ((a, b) :: calls, Rejected, st)
      end
  end.

(** Every store of the run holds the arrays of [st0] unchanged. *)
Fixpoint keeps {A} (st0 : Store) (t : Run A) : Prop :=
  match t with
  | Done _ st => st0 `prefix_of` st
  | Ask _ _ st k => st0 `prefix_of` st /\ forall c, keeps st0 (k c)
  end.

(** The run in the store [t] does what the program [p] does, and its
    results are related by [R]. *)
Fixpoint follows {A B} (R : A -> Store -> B -> Prop) (t : Run A) (p : Prog B)
    : Prop :=
  match t, p with
  | Done (inr a) st, Ret b => R a st b
  | Done (inl e) _, Throw e' => e = e'
  | Ask a b _ k, Await a' b' k' =>
      a = a' /\ b = b' /\ forall c, follows R (k c) (k' c)
  | _, _ => False
  end.

(** [m] keeps the arrays of every store that it starts in. *)
Definition preserves {A} (m : St A) : Prop :=
  forall st0 st, st0 `prefix_of` st -> keeps st0 (m st).

(** The outcome [o] of a run in the store that ends in [st] against the
    outcome [o'] of a program. *)
Definition outcome_agrees {A B} (R : A -> Store -> B -> Prop) (st : Store)
    (o : Outcome A) (o' : Outcome B) : Prop :=
  match o, o' with
  | Returned a, Returned b => R a st b
  | Thrown e, Thrown e' => e = e'
  | Rejected, Rejected => True
  | _, _ => False
  end.

(** The result of a call from the store [st]: the reference [r] is new
    and holds [result] in the store [st'], which keeps the arrays of
    [st]. *)
Definition new_array (st : Store) (r : nat) (st' : Store) (result : list T)
    : Prop :=
  st `prefix_of` st' /\ st' !! r = Some result /\ (length st <= r)%nat.

End Store.

(** ** The comparators of the tests: [testComp] and [testComparator]

    Both wrap a comparator in one that rejects a call for two equal items
    and a call for a pair that it has seen, in either order, and that
    counts its calls.  [testComp] also appends the call to [log], when it
    is given one, and warns on the console when the count exceeds
    [maxCalls]; [testComparator], of the earlier tests, rejects the call
    then.  As with [_cachedComparator], the wrapper is what it makes of a
    program that awaits the comparator; a rejection by the wrapper ends
    the program with the error, here the result [inl]. *)
Section TestComp.
Context {T : Type} `{EqDecision T}.

Inductive TestError : Type :=
| ErrEqualItems           (* 'a and b may not be equal' *)
| ErrDuplicateComparison  (* 'duplicate comparison of ...' *)
| ErrTooManyCalls.        (* 'too many Comparator calls' *)

(** The variables that the closure holds: [callCount], [pairMap], the
    [log] of the caller, and the number of warnings written. *)
Record TestState : Type := {
  callCount : Z;
  pairMap : list (T * list (T * unit));
  log : option (list (T * T));
  warnings : nat
}.

Definition test_init (log : option (list (T * T))) : TestState :=
  {| callCount := 0; pairMap := []; log := log; warnings := 0 |}.

(** [pairMap.get(a)?.has(b)]. *)
Definition has_pair (m : list (T * list (T * unit))) (a b : T) : bool :=
  match map_get a m with
  | Some inner => bool_decide (is_Some (map_get b inner))
  | None => false
  end.

(** [if (pairMap.has(a)) pairMap.get(a)?.set(b, null)
     else pairMap.set(a, new Map([[b, null]]))]. *)
Definition add_pair (a b : T) (m : list (T * list (T * unit)))
    : list (T * list (T * unit)) :=
  match map_get a m with
  | Some inner => map_set a (map_set b () inner) m
  | None => map_set a [(b, ())] m
  end.

Fixpoint testComp {A} (maxCalls : Z) (st : TestState) (p : Prog A)
    : Prog ((TestError + A) * TestState) :=
  match p with
  | Ret a => Ret (inr a, st)
  | Throw e => Throw e
  | Await a b k =>
      if decide (a = b) then Ret (inl ErrEqualItems, st)
      else if has_pair (pairMap st) a b || has_pair (pairMap st) b a
      then Ret (inl ErrDuplicateComparison, st)
      else
        let count := callCount st + 1 in
        let st' :=
          {| callCount := count;
             pairMap := add_pair a b (pairMap st);
             log := (fun l => l ++ [(a, b)]) <$> log st;
             warnings := if maxCalls <? count then S (warnings st)
                         else warnings st |} in
        Await a b (fun c => testComp maxCalls st' (k c))
  end.

Fixpoint testComparator {A} (maxCalls : Z) (st : TestState) (p : Prog A)
    : Prog ((TestError + A) * TestState) :=
  match p with
  | Ret a => Ret (inr a, st)
  | Throw e => Throw e
  | Await a b k =>
      if decide (a = b) then Ret (inl ErrEqualItems, st)
      else if has_pair (pairMap st) a b || has_pair (pairMap st) b a
      then Ret (inl ErrDuplicateComparison, st)
      else
        let count := callCount st + 1 in
        let st' :=
          {| callCount := count;
             pairMap := add_pair a b (pairMap st);
             log := log st;
             warnings := warnings st |} in
        if maxCalls <? count then Ret (inl ErrTooManyCalls, st')
        else Await a b (fun c => testComparator maxCalls st' (k c))
  end.

(** The state [st] after the calls [prev] (most recent first) went
    through the wrapper, from a state with the log [log0] and [w0]
    warnings. *)
Definition records (log0 : option (list (T * T))) (st : TestState)
    (prev : list (T * T)) : Prop :=
  (forall a b, has_pair (pairMap st) a b = true <-> (a, b) ∈ prev)
  /\ callCount st = Z.of_nat (length prev)
  /\ log st = (fun l => l ++ reverse prev) <$> log0.

End TestComp.

(** ** The helpers of the tests: [xorshift32], [fisherYates], [permutations]

    A generator of numbers is its state and the function that runs it up
    to the next [yield]. *)
Section Generators.
Context {G : Type} (next : G -> Z * G).

(** The first [n] values of the generator. *)
Fixpoint take_values (n : nat) (random : G) : list Z :=
  match n with
  | O => []
  | S n' => let '(v, random') := next random in v :: take_values n' random'
  end.

(** The state of the generator after [n] values. *)
Fixpoint after_values (n : nat) (random : G) : G :=
  match n with
  | O => random
  | S n' => after_values n' (next random).2
  end.

(** [fisherYates]: the loop for [i] from [array.length-1] down to 1.  The
    assignment [[array[i], array[j]] = [array[j], array[i]]] reads both
    items and then writes [array[i]] and [array[j]].  The remainder [j] of
    a negative number is negative and no index of the array; the model
    does not go on then ([None]). *)
Fixpoint fisherYates_loop {A} (i : nat) (array : list A) (random : G)
    : option (list A * G) :=
  match i with
  | O => Some (array, random)
  | S i' =>
      let '(r, random') := next random in
      let j := Z.rem r (Z.of_nat (length array)) in
      if j <? 0 then None
      else
        aj ← array !! Z.to_nat j;
        ai ← array !! i;
        fisherYates_loop i' (<[Z.to_nat j := ai]> (<[i := aj]> array)) random'
  end.

Definition fisherYates {A} (array : list A) (random : G)
    : option (list A * G) :=
  fisherYates_loop (length array - 1) array random.

End Generators.

(** [BigInt.asUintN(bits, y)]. *)
Definition asUintN (bits y : Z) : Z := y mod 2 ^ bits.

(** No bit of [y] from the 32nd on is set. *)
Definition high_bits_clear (y : Z) : Prop :=
  forall i, 32 <= i -> Z.testbit y i = false.

(** [xorshift32]: the state is the variable [y]. *)
Definition xorshift32 : Z := 2463534242.

Definition xorshift32_next (y : Z) : Z * Z :=
  let y := Z.lxor y (Z.shiftl y 13) in
  let y := asUintN 32 y in
  let y := Z.lxor y (Z.shiftr y 17) in
  let y := Z.lxor y (Z.shiftl y 5) in
  let y := asUintN 32 y in
  (y, y).

(** A generator that yields the numbers of a list, as the ones that the
    tests of [fisherYates] write, and 0 after them. *)
Definition list_next (l : list Z) : Z * list Z := (hd 0 l, tl l).

(** [permutations]: the counters [c], the array [a] and the index [i] of
    the loop; each unit of fuel is one turn of the [while] loop, and the
    result is the list of the arrays that are yielded.  The assignment
    [[a[j], a[i]] = [a[i]!, a[j]!]] reads both items and then writes
    [a[j]] and [a[i]]. *)
Fixpoint permutations_loop {A} (fuel : nat) (c : list nat) (a : list A)
    (i : nat) : option (list (list A)) :=
  if (i <? length a)%nat then
    match fuel with
    | O => None
    | S fuel' =>
        ci ← c !! i;
        if (ci <? i)%nat then
          let j := if Nat.odd i then ci else 0%nat in
          ai ← a !! i;
          aj ← a !! j;
          let a' := <[i := aj]> (<[j := ai]> a) in
          rest ← permutations_loop fuel' (<[i := S ci]> c) a' 1;
          Some (a' :: rest)
        else permutations_loop fuel' (<[i := 0%nat]> c) a (S i)
    end
  else Some [].

(** The loop takes fewer than [(n+1)!] turns on [n] items. *)
Definition permutations {A} (array : list A) : option (list (list A)) :=
  rest ← permutations_loop (fact (S (length array)))
            (replicate (length array) 0%nat) array 1;
  Some (array :: rest).

(** ** The positions that [permutations] moves

    [permutations] is oblivious of the items: what it does is told by
    maps of positions.  [arr_map f a a'] says that the array [a'] holds at
    each index [i] the item that [a] holds at index [f i].  [transp i j]
    belongs to the exchange of the items at [i] and [j].  [heap_final k]
    belongs to the whole work of the loop on the first [k] items (from
    [i = 1] with the counters below [k] at 0 until [i] reaches [k]), and
    [heap_round k t] to the part of its work on the first [k + 1] items
    that ends with the [t]-th exchange with the item at index [k].
    [heap_steps k] is the number of turns that the loop takes on the
    first [k] items. *)
Definition arr_map {A} (f : nat -> nat) (a a' : list A) : Prop :=
  length a' = length a
  /\ forall i, (i < length a)%nat -> a' !! i = a !! f i.

Definition transp (i j x : nat) : nat :=
  if decide (x = i) then j else if decide (x = j) then i else x.

Definition heap_final (k x : nat) : nat :=
  if Nat.odd k then transp 0 (k - 1) x
  else if decide (k = 2)%nat then transp 0 1 x
  else if decide (x = 0)%nat then (k - 3)%nat
  else if decide (x = 1)%nat then (k - 2)%nat
  else if decide (x <= k - 3)%nat then (x - 1)%nat
  else if decide (x = k - 2)%nat then (k - 1)%nat
  else if decide (x = k - 1)%nat then 0%nat
  else x.

Fixpoint heap_round (k t x : nat) : nat :=
  match t with
  | O => x
  | S t' =>
      heap_round k t'
        (heap_final k (transp (if Nat.odd k then t' else 0%nat) k x))
  end.

Fixpoint heap_steps (k : nat) : nat :=
  match k with
  | O => 0
  | S k' =>
      match k' with
      | O => 0
      | S _ => (heap_steps k' + k' * (1 + heap_steps k') + 1)%nat
      end
  end.

(** The places of the positions [0 .. k] on the cycle along which one
    round moves the items when [k] is even and at least 4, and the
    position at each place. *)
Definition heap_rank (k x : nat) : nat :=
  if decide (x = k) then 0%nat
  else if decide (x = 0)%nat then k
  else if decide (x <= k - 3)%nat then (k - 2 - x)%nat
  else x.

Definition heap_pos (k m : nat) : nat :=
  if decide (m = 0)%nat then k
  else if decide (m = k) then 0%nat
  else if decide (m <= k - 3)%nat then (k - 2 - m)%nat
  else m.

(** [a'] is [a] with the items at two different indices exchanged. *)
Definition one_swap {A} (a a' : list A) : Prop :=
  exists (i j : nat) (x y : A),
    i <> j /\ a !! i = Some x /\ a !! j = Some y
    /\ a' = <[i := y]> (<[j := x]> a).

(** What the loop does on the first [k] items. *)
Definition phase_spec {A} (k : nat) : Prop :=
  forall (c : list nat) (a : list A),
    (k <= length a)%nat -> length c = length a ->
    (forall j, (1 <= j < k)%nat -> c !! j = Some 0%nat) ->
    exists outs a',
      (forall fuel,
         permutations_loop (heap_steps k + fuel)%nat c a 1
         = (fun rest => outs ++ rest) <$> permutations_loop fuel c a' k)
      /\ S (length outs) = fact k
      /\ arr_map (heap_final k) a a'
      /\ a' ≡ₚ a
      /\ Forall (fun o => o ≡ₚ a /\ forall i, (k <= i)%nat -> o !! i = a !! i) outs
      /\ (NoDup a -> NoDup (a :: outs)).

(** ** The group sizes as numbers of the source

    [binary64 z] is the binary64 number nearest to the integer [z], ties
    to the even significand, for [z] of a magnitude below [2^1023]: an
    integer of at most 53 significant bits is kept, a longer one is
    rounded to 53.  [gen_next_binary64] is the step of [_groupSizes] on
    these numbers, for its first 1023 values: there [2**i] is exact and
    finite, and the difference is rounded. *)
Definition binary64 (z : Z) : Z :=
  let e := Z.log2 (Z.abs z) - 52 in
  if e <=? 0 then z
  else
    let q := z / 2 ^ e in
    let r := z mod 2 ^ e in
    let half := 2 ^ (e - 1) in
    (if (half <? r) || ((r =? half) && Z.odd q) then q + 1 else q) * 2 ^ e.

Definition gen_next_binary64 (g : GenState) : Z * GenState :=
  let cur := binary64 (2 ^ gen_i g - gen_prev g) in
  (cur, {| gen_prev := cur; gen_i := gen_i g + 1 |}).

(** The comparator [([a, b]) => a > b ? 0 : 1] of the tests, on integers. *)
Definition compare_Z : @Comparator Z := fun _ a b => Some (a <? b).

(* ================================================================== *)
(** * Proofs *)

(** Linear arithmetic with divisions by constants. *)
Ltac div_lia := zify; Z.div_mod_to_equations; lia.

Example groupSizes_first :
  gen_take 8 _groupSizes = [2; 2; 6; 10; 22; 42; 86; 170].
Proof. reflexivity. Qed.

Example makeGroups_wikipedia :
  _makeGroups [3; 4; 5; 6; 7; 8; 9; 10; 11; 12; 21; 22]
  = Some [(1, 4); (0, 3); (3, 6); (2, 5); (9, 12); (8, 11); (7, 10);
          (6, 9); (5, 8); (4, 7); (11, 22); (10, 21)].
Proof. reflexivity. Qed.

Example maxComparisons_table :
  map mergeInsertionMaxComparisons
      [0; 1; 2; 3; 4; 5; 6; 7; 8; 9; 10; 11; 12; 13; 14; 15; 16; 17; 18; 19; 20; 21; 22]
  = map inr [0; 0; 1; 3; 5; 7; 10; 13; 16; 19; 22; 26; 30; 34; 38; 42; 46;
             50; 54; 58; 62; 66; 71].
Proof. vm_compute. reflexivity. Qed.


(** ** The logic of [wp] *)
Section Logic.
Context {T : Type} `{EqDecision T}.
Implicit Types (beh : T -> T -> option bool -> Prop) (calls l : list (T * T)).

Lemma wp_mono {A} beh (p : Prog A) (Q Q' : list (T * T) -> Outcome A -> Prop) :
  (forall l o, Q l o -> Q' l o) -> wp beh p Q -> wp beh p Q'.
Proof.
  revert Q Q'. induction p as [a|e|a b k IH]; simpl; intros Q Q' HQ; auto.
  intros [Hr Hk]. split; [auto|].
  intros c Hc. eapply IH; [|apply Hk, Hc]. simpl. auto.
Qed.

Lemma wp_weaken {A} beh beh' (p : Prog A) Q :
  (forall a b r, beh' a b r -> beh a b r) -> wp beh p Q -> wp beh' p Q.
Proof.
  intros Hbeh. revert Q. induction p as [a|e|a b k IH]; simpl; intros Q; auto.
  intros [Hr Hk]. split; [auto|]. intros c Hc. apply IH, Hk, Hbeh, Hc.
Qed.

Lemma wp_any {A} beh (p : Prog A) Q : wp any_response p Q -> wp beh p Q.
Proof. apply wp_weaken. intros; exact I. Qed.

Lemma wp_conj {A} beh (p : Prog A) Q1 Q2 :
  wp beh p Q1 -> wp beh p Q2 -> wp beh p (fun l o => Q1 l o /\ Q2 l o).
Proof.
  revert Q1 Q2. induction p as [a|e|a b k IH]; simpl; intros Q1 Q2; auto.
  intros [Hr1 Hk1] [Hr2 Hk2]. split; [auto|].
  intros c Hc. apply (IH c _ _ (Hk1 c Hc) (Hk2 c Hc)).
Qed.

Lemma wp_rejected {A} beh (p : Prog A) Q :
  wp beh p Q -> wp beh p (fun l o => Q l o /\ rejected_by beh l o).
Proof.
  unfold rejected_by.
  revert Q. induction p as [a|e|a b k IH]; simpl; intros Q.
  - intros HQ. split; [done|]. discriminate.
  - intros HQ. split; [done|]. discriminate.
  - intros [Hr Hk]. split.
    + intros Hb. split; [auto|]. intros _. by exists a, b, [].
    + intros c Hc. eapply wp_mono; [|apply IH, Hk, Hc]. simpl.
      intros l o [HQ Hrej]. split; [done|]. intros Ho.
      destruct (Hrej Ho) as (a' & b' & l' & -> & Hb).
      exists a', b', (l' ++ [(a, b)]). done.
Qed.

Lemma wp_bind {A B} beh (p : Prog A) (f : A -> Prog B) Q :
  wp beh p (fun l1 o =>
    match o with
    | Returned a => wp beh (f a) (fun l2 o2 => Q (l2 ++ l1) o2)
    | Thrown e => Q l1 (Thrown e)
    | Rejected => Q l1 Rejected
    end) ->
  wp beh (p ≫= f) Q.
Proof.
  unfold mbind, prog_bind.
  revert Q. induction p as [a|e|a b k IH]; simpl; intros Q.
  - apply wp_mono. intros l o. by rewrite app_nil_r.
  - auto.
  - intros [Hr Hk]. split; [auto|]. intros c Hc. apply IH.
    eapply wp_mono; [|apply Hk, Hc]. simpl. intros l [r|e|]; auto.
    apply wp_mono. intros l2 o2. by rewrite app_assoc.
Qed.

Lemma wp_ret {A} beh (a : A) (Q : list (T * T) -> Outcome A -> Prop) :
  Q [] (Returned a) -> wp beh (mret a) Q.
Proof. auto. Qed.

(** What [wp] says of a run against a comparator. *)
Lemma wp_run {A} beh (comp : Comparator) (p : Prog A) Q calls :
  responds comp beh -> wp beh p Q ->
  exists l, (run comp p calls).1 = l ++ calls /\ Q l (run comp p calls).2.
Proof.
  intros Hcomp. revert Q calls.
  induction p as [a|e|a b k IH]; simpl; intros Q calls.
  - by exists [].
  - by exists [].
  - intros [Hr Hk]. pose proof (Hcomp calls a b) as Hb.
    destruct (comp calls a b) as [c|] eqn:Hc; simpl.
    + destruct (IH c _ ((a, b) :: calls) (Hk c Hb)) as (l & Hl & HQ).
      exists (l ++ [(a, b)]). by rewrite Hl, <- app_assoc.
    + exists [(a, b)]. auto.
Qed.

Lemma responds_any (comp : @Comparator T) : responds comp any_response.
Proof. by intros calls a b. Qed.

End Logic.

(** ** The bound [mergeInsertionMaxComparisons] on small inputs *)

(** C5: [mergeInsertionMaxComparisons] throws for every negative [n], and
    for [n = 0..10] it returns 0, 0, 1, 3, 5, 7, 10, 13, 16, 19, 22. *)
Theorem maxComparisons_small :
  (forall n, n < 0 -> mergeInsertionMaxComparisons n = inl ErrNegativeCount)
  /\ map mergeInsertionMaxComparisons [0; 1; 2; 3; 4; 5; 6; 7; 8; 9; 10]
     = map inr [0; 0; 1; 3; 5; 7; 10; 13; 16; 19; 22].
Proof.
  split.
  - intros n Hn. unfold mergeInsertionMaxComparisons.
    destruct (Z.ltb_spec n 0); [reflexivity | lia].
  - vm_compute. reflexivity.
Qed.

Lemma maxComparisons_small_witness :
  mergeInsertionMaxComparisons (-3) = inl ErrNegativeCount.
Proof. apply (proj1 maxComparisons_small). lia. Defined.

(** ** Duplicate items *)
Section Duplicates.
Context {T : Type} `{EqDecision T}.

Lemma length_remove_dups_le (l : list T) :
  (length (remove_dups l) <= length l)%nat.
Proof.
  induction l as [|x l IH]; simpl; [lia|].
  destruct (decide_rel _ x l); simpl; lia.
Qed.

Lemma length_remove_dups_NoDup (l : list T) :
  length (remove_dups l) = length l <-> NoDup l.
Proof.
  induction l as [|x l IH]; simpl.
  - split; [constructor | done].
  - pose proof (length_remove_dups_le l).
    destruct (decide_rel _ x l) as [Hin|Hin]; simpl.
    + split; [lia|]. intros Hnd. by apply NoDup_cons in Hnd as [? _].
    + rewrite NoDup_cons. split.
      * intros Hlen. split; [done|]. apply IH. lia.
      * intros [_ Hnd]. f_equal. by apply IH.
Qed.

Lemma has_duplicates_false (array : list T) :
  has_duplicates array = false <-> NoDup array.
Proof.
  unfold has_duplicates. rewrite negb_false_iff, Nat.eqb_eq.
  rewrite <- length_remove_dups_NoDup. split; congruence.
Qed.

Lemma has_duplicates_true (array : list T) :
  has_duplicates array = true <-> ~ NoDup array.
Proof.
  rewrite <- has_duplicates_false. destruct (has_duplicates array); split; congruence.
Qed.

Lemma sort_rec_duplicates fuel (array : list T) :
  ~ NoDup array -> mergeInsertionSort_rec fuel array = Throw ErrDuplicateItems.
Proof.
  intros Hdup. apply has_duplicates_true in Hdup as Hd.
  destruct array as [|a0 [|a1 rest]].
  - destruct Hdup. constructor.
  - destruct Hdup. apply NoDup_singleton.
  - destruct fuel; simpl; simpl in Hd; by rewrite Hd.
Qed.

End Duplicates.

(** C4: when two items of the input are equal, [mergeInsertionSort] throws
    the duplicate-item error and the comparator is not called: the program
    is the single [throw], so every run leaves the calls as they were. *)
Theorem sort_duplicates_rejected {T : Type} `{EqDecision T}
    (array : list T) (i j : nat) (x : T) :
  i <> j -> array !! i = Some x -> array !! j = Some x ->
  mergeInsertionSort array = Throw ErrDuplicateItems
  /\ forall (comp : Comparator) calls,
       run comp (mergeInsertionSort array) calls
       = (calls, Thrown ErrDuplicateItems).
Proof.
  intros Hij Hi Hj.
  assert (mergeInsertionSort array = Throw ErrDuplicateItems) as ->.
  { apply sort_rec_duplicates. intros Hnd. apply Hij.
    eapply NoDup_lookup; eauto. }
  split; [reflexivity|]. intros comp calls. reflexivity.
Qed.

Lemma sort_duplicates_rejected_witness :
  mergeInsertionSort ["A"; "B"; "B"]%string = Throw ErrDuplicateItems
  /\ forall (comp : Comparator) calls,
       run comp (mergeInsertionSort ["A"; "B"; "B"]%string) calls
       = (calls, Thrown ErrDuplicateItems).
Proof.
  apply (sort_duplicates_rejected _ 1%nat 2%nat "B"%string);
    [lia | reflexivity | reflexivity].
Defined.

(** ** The group scheduler *)
Section Groups.

Lemma group_size_S (i : nat) :
  group_size (S i) = 2 ^ Z.of_nat (S i) - group_size i.
Proof. destruct i as [|i]; reflexivity. Qed.

Lemma group_size_bounds (i : nat) :
  2 ^ Z.of_nat i <= group_size (S i) <= 2 ^ Z.of_nat (S i).
Proof.
  induction i as [|i IH]; [simpl; lia|].
  rewrite (group_size_S (S i)).
  replace (Z.of_nat (S (S i))) with (Z.succ (Z.of_nat (S i))) by lia.
  rewrite Z.pow_succ_r by lia.
  replace (Z.of_nat (S i)) with (Z.succ (Z.of_nat i)) in * by lia.
  rewrite Z.pow_succ_r in * by lia. lia.
Qed.

Lemma group_size_pos (i : nat) : 1 <= group_size (S i).
Proof.
  pose proof (group_size_bounds i).
  pose proof (Z.pow_pos_nonneg 2 (Z.of_nat i)). lia.
Qed.

Lemma gen_next_at (k : nat) : gen_next (gen_at k) = (group_size (S k), gen_at (S k)).
Proof.
  unfold gen_next, gen_at; simpl gen_prev; simpl gen_i.
  rewrite group_size_S. do 3 f_equal. lia.
Qed.

Lemma gen_take_at (n k : nat) :
  gen_take n (gen_at k) = group_size <$> seq (S k) n.
Proof.
  revert k. induction n as [|n IH]; intros k; [reflexivity|].
  cbn [gen_take]. rewrite gen_next_at. cbn [seq]. rewrite fmap_cons. by rewrite IH.
Qed.

Lemma slice_take_drop {A} (i size : Z) (l : list A) :
  0 <= i <= Z.of_nat (length l) -> 0 <= size ->
  slice i (i + size) l = take (Z.to_nat size) (drop (Z.to_nat i) l).
Proof.
  intros Hi Hs. unfold slice, clamp_index.
  destruct (Z.ltb_spec i 0); [lia|].
  destruct (Z.ltb_spec (i + size) 0); [lia|].
  rewrite (Z.min_l i) by lia.
  destruct (Z.le_ge_cases (i + size) (Z.of_nat (length l))).
  - rewrite Z.min_l by lia. f_equal. lia.
  - rewrite Z.min_r by lia.
    rewrite !take_ge; [done| |]; rewrite length_drop; lia.
Qed.

Lemma chunks_nil {A} (sizes : list Z) :
  concat (@reverse A <$> chunks sizes []) = [].
Proof.
  induction sizes as [|s sizes IH]; [reflexivity|].
  simpl. by rewrite take_nil, drop_nil.
Qed.

Lemma makeGroups_loop_spec {A} (fuel n k : nat) (items : list (Z * A)) (i : Z)
    (rv : list (Z * A)) :
  0 <= i <= Z.of_nat (length items) ->
  (length items - Z.to_nat i < fuel)%nat ->
  (length items - Z.to_nat i < n)%nat ->
  makeGroups_loop fuel items (gen_at k) i rv
  = Some (rv ++ concat (@reverse _ <$>
       chunks (group_size <$> seq (S k) n) (drop (Z.to_nat i) items))).
Proof.
  revert n k i rv. induction fuel as [|fuel IH]; intros n k i rv Hi Hf Hn; [lia|].
  destruct n as [|n]; [lia|].
  cbn [makeGroups_loop]. rewrite gen_next_at.
  pose proof (group_size_pos k) as Hpos.
  rewrite slice_take_drop by lia.
  cbn [seq]. rewrite fmap_cons. cbn [chunks]. rewrite fmap_cons. cbn [concat].
  rewrite length_reverse, length_take, length_drop.
  destruct (Z.ltb_spec
    (Z.of_nat (Z.to_nat (group_size (S k)) `min` (length items - Z.to_nat i)))
    (group_size (S k))) as [Hlt|Hge].
  - rewrite (drop_ge (drop _ _)) by (rewrite length_drop; lia).
    by rewrite chunks_nil, app_nil_r.
  - rewrite IH with (n := n) by lia.
    rewrite <- app_assoc, drop_drop.
    by rewrite Z2Nat.inj_add by lia.
Qed.

Lemma makeGroups_spec {A} (array : list A) :
  _makeGroups array = Some (grouped (with_index array)).
Proof.
  unfold _makeGroups, grouped.
  change _groupSizes with (gen_at 0).
  rewrite makeGroups_loop_spec with (n := S (length (with_index array))).
  - reflexivity.
  - lia.
  - unfold with_index. rewrite length_imap. simpl. lia.
  - simpl. lia.
Qed.

Lemma chunks_fmap {A B} (f : A -> B) sizes (l : list A) :
  chunks sizes (f <$> l) = fmap (M := list) f <$> chunks sizes l.
Proof.
  revert l. induction sizes as [|s sizes IH]; intros l; [reflexivity|].
  simpl. by rewrite <- fmap_take, <- fmap_drop, IH.
Qed.

Lemma with_index_snd {A} (l : list A) : (with_index l).*2 = l.
Proof.
  unfold with_index. generalize Z.of_nat as f.
  induction l as [|x l IH]; intros f; [reflexivity|].
  rewrite imap_cons, fmap_cons. simpl. f_equal. apply IH.
Qed.

Lemma grouped_fmap {A B} (f : A -> B) (l : list A) :
  f <$> grouped l = grouped (f <$> l).
Proof.
  unfold grouped. rewrite length_fmap, chunks_fmap.
  generalize (chunks (group_size <$> seq 1 (S (length l))) l) as ll.
  induction ll as [|c ll IH]; [reflexivity|].
  rewrite !fmap_cons. cbn [concat]. by rewrite fmap_app, fmap_reverse, IH.
Qed.

End Groups.

(** C6: [_makeGroups] returns the items, each with its index, cut into
    consecutive groups of the sizes 2, 2, 6, 10, 22, 42, 86, ...
    ([size(1) = 2], [size(i) = 2^i - size(i-1)]), the last group possibly
    shorter, each group reversed and the groups in ascending order.  The
    generator yields these sizes; this is stated of its first 54 values,
    those that the numbers of the source hold exactly. *)
Theorem makeGroups_schedule {A} (array : list A) :
  (forall n, (n <= 54)%nat -> gen_take n _groupSizes = group_size <$> seq 1 n)
  /\ group_size <$> seq 1 7 = [2; 2; 6; 10; 22; 42; 86]
  /\ _makeGroups array = Some (grouped (with_index array))
  /\ fmap (M := list) snd <$> _makeGroups array = Some (grouped array).
Proof.
  split; [|split; [|split]].
  - intros n _. apply (gen_take_at n 0).
  - reflexivity.
  - apply makeGroups_spec.
  - rewrite makeGroups_spec. simpl. by rewrite grouped_fmap, with_index_snd.
Qed.

Lemma makeGroups_schedule_witness :
  gen_take 54 _groupSizes = group_size <$> seq 1 54
  /\ fmap (M := list) snd <$> _makeGroups [10; 11; 12; 13; 14; 15; 16]
     = Some [11; 10; 13; 12; 16; 15; 14].
Proof.
  destruct (makeGroups_schedule [10; 11; 12; 13; 14; 15; 16])
    as (Hsizes & _ & _ & Hgroups).
  split; [apply Hsizes; lia|]. rewrite Hgroups. vm_compute. reflexivity.
Defined.

(** ** The binary search [_binInsertIdx] *)
Section BinarySearch.
Context {T : Type} `{EqDecision T}.
Implicit Types (beh : T -> T -> option bool -> Prop) (array : list T).

Lemma at_index_Some {A} (l : list A) (i : Z) :
  0 <= i < Z.of_nat (length l) -> exists x, at_index l i = Some x.
Proof.
  intros Hi. unfold at_index. destruct (Z.ltb_spec i 0); [lia|].
  apply lookup_lt_is_Some_2. lia.
Qed.

Lemma at_index_lookup {A} (l : list A) (i : Z) x :
  at_index l i = Some x <-> 0 <= i /\ l !! Z.to_nat i = Some x.
Proof.
  unfold at_index. destruct (Z.ltb_spec i 0); [|intuition lia].
  split; [done|lia].
Qed.

Lemma at_index_elem_of {A} (l : list A) (i : Z) x :
  at_index l i = Some x -> x ∈ l.
Proof. rewrite at_index_lookup. intros [_ Hx]. by eapply list_elem_of_lookup_2. Qed.

Lemma pow2_split (k : nat) (n : Z) :
  1 <= n -> n < 2 ^ Z.of_nat k ->
  exists k', k = S k' /\ 2 ^ Z.of_nat k = 2 * 2 ^ Z.of_nat k'.
Proof.
  intros Hn Hk. destruct k as [|k']; [simpl in Hk; lia|].
  exists k'. split; [done|].
  rewrite Nat2Z.inj_succ, Z.pow_succ_r; lia.
Qed.

Lemma binInsertIdx_loop_spec beh fuel array item (l r : Z) :
  0 <= l -> r < Z.of_nat (length array) -> l <= r + 1 ->
  r - l + 1 <= Z.of_nat fuel ->
  wp beh (binInsertIdx_loop fuel array item l r)
     (search_post beh array item l (r + 1)).
Proof.
  revert l r. induction fuel as [|fuel IH]; intros l r Hl Hr Hlr Hfuel.
  - simpl. destruct (Z.leb_spec l r); [lia|]. simpl.
    split; [|split].
    + exists []. split; [constructor|]. split; constructor.
    + intros k _. simpl. lia.
    + split; [lia|]. split; [by left|]. left. lia.
  - cbn [binInsertIdx_loop]. destruct (Z.leb_spec l r) as [Hle|Hgt]; cycle 1.
    { simpl. split; [|split].
      + exists []. split; [constructor|]. split; constructor.
      + intros k _. simpl. lia.
      + split; [lia|]. split; [by left|]. left. lia. }
    set (m := l + (r - l) / 2).
    assert (l <= m <= r) as Hm by (unfold m; div_lia).
    destruct (at_index_Some array m) as [x Hx]; [lia|]. rewrite Hx.
    simpl. split.
    + intros _. split; [|split; [|done]].
      * exists [m]. split; [by repeat constructor|].
        split; [apply NoDup_singleton|]. repeat constructor; lia.
      * intros k Hk. destruct (pow2_split k (r + 1 - l)) as (k' & -> & _);
          [lia|lia|]. simpl. lia.
    + intros c Hc. destruct c.
      * eapply wp_mono; [|apply (IH l (m - 1)); lia].
        intros calls o ((ms & Hp & Hnd & Hms) & Hcnt & Ho).
        replace (m - 1 + 1) with m in * by lia.
        split; [|split].
        -- exists (ms ++ [m]). split; [|split].
           ++ apply Forall2_app; [done|]. by repeat constructor.
           ++ apply NoDup_app. split; [done|]. split; [|apply NoDup_singleton].
              intros m' Hm' ->%list_elem_of_singleton.
              rewrite Forall_forall in Hms. specialize (Hms _ Hm'). lia.
           ++ apply Forall_app. split; [|repeat constructor; lia].
              eapply Forall_impl; [done|]. simpl. lia.
        -- intros k Hk.
           destruct (pow2_split k (r + 1 - l)) as (k' & -> & Hpow); [lia|lia|].
           rewrite length_app. simpl.
           assert (length calls <= k')%nat; [|lia].
           apply Hcnt. unfold m. div_lia.
        -- destruct o as [idx|e|]; [|done|done].
           destruct Ho as (Hidx & Hleft & Hright).
           split; [lia|]. split; [done|]. right.
           destruct Hright as [->|Hright]; [by exists x|done].
      * eapply wp_mono; [|apply (IH (m + 1) r); lia].
        intros calls o ((ms & Hp & Hnd & Hms) & Hcnt & Ho).
        split; [|split].
        -- exists (ms ++ [m]). split; [|split].
           ++ apply Forall2_app; [done|]. by repeat constructor.
           ++ apply NoDup_app. split; [done|]. split; [|apply NoDup_singleton].
              intros m' Hm' ->%list_elem_of_singleton.
              rewrite Forall_forall in Hms. specialize (Hms _ Hm'). lia.
           ++ apply Forall_app. split; [|repeat constructor; lia].
              eapply Forall_impl; [done|]. simpl. lia.
        -- intros k Hk.
           destruct (pow2_split k (r + 1 - l)) as (k' & -> & Hpow); [lia|lia|].
           rewrite length_app. simpl.
           assert (length calls <= k')%nat; [|lia].
           apply Hcnt. unfold m. div_lia.
        -- destruct o as [idx|e|]; [|done|done].
           destruct Ho as (Hidx & Hleft & Hright).
           split; [lia|]. split; [|done]. right.
           destruct Hleft as [->|Hleft]; [|done].
           replace (m + 1 - 1) with m by lia. by exists x.
Qed.

Lemma binInsertIdx_spec beh array item :
  item ∉ array ->
  wp beh (_binInsertIdx array item)
     (search_post beh array item 0 (Z.of_nat (length array))).
Proof.
  intros Hnotin. unfold _binInsertIdx.
  destruct (Z.ltb_spec (Z.of_nat (length array)) 1) as [Hlen|Hlen].
  { simpl. split; [|split].
    + exists []. split; [constructor|]. split; constructor.
    + intros k _. simpl. lia.
    + split; [lia|]. split; [by left|]. left. lia. }
  rewrite bool_decide_eq_false_2 by done.
  destruct (Z.eqb_spec (Z.of_nat (length array)) 1) as [Hone|Hmore].
  - destruct (at_index_Some array 0) as [x Hx]; [lia|]. rewrite Hx, Hone.
    simpl. split.
    + intros _. split; [|split; [|done]].
      * exists [0]. split; [by repeat constructor|].
        split; [apply NoDup_singleton|]. repeat constructor; lia.
      * intros k Hk. destruct (pow2_split k 1) as (k' & -> & _); [lia|lia|].
        simpl. lia.
    + intros c Hc. split; [|split].
      * exists [0]. split; [by repeat constructor|].
        split; [apply NoDup_singleton|]. repeat constructor; lia.
      * intros k Hk. destruct (pow2_split k 1) as (k' & -> & _); [lia|lia|].
        simpl. lia.
      * destruct c.
        -- split; [lia|]. split; [by left|]. right. by exists x.
        -- split; [lia|]. split; [|by left]. right. by exists x.
  - eapply wp_mono; [|apply binInsertIdx_loop_spec; lia].
    intros calls o. by replace (Z.of_nat (length array) - 1 + 1)
      with (Z.of_nat (length array)) by lia.
Qed.

Lemma binInsertIdx_already_in array item :
  item ∈ array -> _binInsertIdx array item = Throw ErrAlreadyInTarget.
Proof.
  intros Hin. unfold _binInsertIdx.
  destruct (Z.ltb_spec (Z.of_nat (length array)) 1) as [Hlen|Hlen].
  - destruct array; [by apply elem_of_nil in Hin|simpl in Hlen; lia].
  - by rewrite bool_decide_eq_true_2.
Qed.

End BinarySearch.

(** ** Searching an ascending array *)
Section SortedSearch.
Context {T : Type} `{EqDecision T}.
Context (R : relation T) `{!StrictOrder R} `{!Trichotomy R}.

Lemma order_response_false (a b : T) :
  order_response R a b (Some false) -> a <> b -> R b a.
Proof.
  intros Hresp Hab. destruct (Hresp Hab) as (c & [= <-] & Hc).
  destruct (trichotomy R a b) as [HR|[->|HR]]; [|done|done].
  apply Hc in HR. discriminate.
Qed.

Lemma order_response_true (a b : T) :
  order_response R a b (Some true) -> a <> b -> R a b.
Proof.
  intros Hresp Hab. destruct (Hresp Hab) as (c & [= <-] & Hc). by apply Hc.
Qed.

Lemma splice_insert_take_drop {A} (idx : Z) (x : A) (l : list A) :
  0 <= idx <= Z.of_nat (length l) ->
  splice_insert idx x l = take (Z.to_nat idx) l ++ x :: drop (Z.to_nat idx) l.
Proof.
  intros Hidx. unfold splice_insert, clamp_index.
  destruct (Z.ltb_spec idx 0); [lia|]. by rewrite Z.min_l by lia.
Qed.

(** An ascending array stays ascending when [item] goes between a left
    neighbour below it and a right neighbour above it. *)
Lemma sorted_insert_between (array : list T) (item : T) (n : nat) :
  StronglySorted R array ->
  (n <= length array)%nat ->
  (n = 0%nat \/ exists x, array !! pred n = Some x /\ R x item) ->
  (n = length array \/ exists x, array !! n = Some x /\ R item x) ->
  StronglySorted R (take n array ++ item :: drop n array).
Proof.
  intros Hsorted Hn Hleft Hright.
  rewrite <- (take_drop n array) in Hsorted.
  apply StronglySorted_app in Hsorted as (Hcross & Hl & Hr).
  assert (Forall (fun y => R y item) (take n array)) as Hbelow.
  { destruct Hleft as [->|(x & Hx & HRx)]; [by rewrite take_0|].
    destruct n as [|n]; [by rewrite take_0|]. simpl in Hx.
    rewrite (take_S_r _ _ _ Hx). apply Forall_app. split; [|by repeat constructor].
    rewrite (take_S_r _ _ _ Hx) in Hl.
    apply StronglySorted_app in Hl as (Hc & _ & _).
    apply Forall_forall. intros y Hy. transitivity x; [|done].
    apply Hc; [done|]. by apply list_elem_of_singleton. }
  assert (Forall (R item) (drop n array)) as Habove.
  { destruct Hright as [->|(x & Hx & HRx)]; [by rewrite drop_all|].
    rewrite (drop_S _ _ _ Hx) in Hr |- *.
    apply StronglySorted_cons in Hr as [Hxs _].
    constructor; [done|]. eapply Forall_impl; [done|]. simpl.
    intros y Hy. by transitivity x. }
  apply StronglySorted_app. split; [|split; [done|]].
  - intros x1 x2 Hx1 [->|Hx2]%elem_of_cons; [|by apply Hcross].
    rewrite Forall_forall in Hbelow. by apply Hbelow.
  - by apply StronglySorted_cons.
Qed.

(** The index a search returns is a place for [item] in an ascending
    [array] that does not hold it. *)
Lemma search_post_sorted (array : list T) (item : T) calls (idx : Z) :
  StronglySorted R array -> item ∉ array ->
  search_post (order_response R) array item 0 (Z.of_nat (length array))
    calls (Returned idx) ->
  0 <= idx <= Z.of_nat (length array)
  /\ StronglySorted R (splice_insert idx item array).
Proof.
  intros Hsorted Hnotin (_ & _ & Hidx & Hleft & Hright).
  split; [done|]. rewrite splice_insert_take_drop by done.
  apply sorted_insert_between; [done|lia| |].
  - destruct Hleft as [->|(x & Hx & Hresp)]; [by left|]. right.
    apply at_index_lookup in Hx as [? Hx]. exists x. split.
    + by replace (pred (Z.to_nat idx)) with (Z.to_nat (idx - 1)) by lia.
    + apply order_response_false; [done|].
      intros ->. apply Hnotin. by eapply list_elem_of_lookup_2.
  - destruct Hright as [->|(x & Hx & Hresp)]; [left; lia|]. right.
    apply at_index_lookup in Hx as [? Hx]. exists x. split; [done|].
    apply order_response_true; [done|].
    intros ->. apply Hnotin. by eapply list_elem_of_lookup_2.
Qed.

(** The calls of a search compare two different items when [item] is not
    in the array. *)
Lemma probes_distinct (array : list T) (item : T) ms calls :
  item ∉ array -> probes array item ms calls ->
  Forall (fun c => c.1 = item /\ c.2 ∈ array /\ c.1 <> c.2) calls.
Proof.
  intros Hnotin Hp. induction Hp as [|c m calls ms [Hc Hm] _ IH]; constructor; [|done].
  apply at_index_elem_of in Hm. split; [done|]. split; [done|].
  rewrite Hc. intros ->. done.
Qed.

End SortedSearch.

(** C7: for an array that is strictly ascending in the total order [R] of
    the comparator and an item that is not in it, [_binInsertIdx] returns
    an index [idx] with [0 <= idx <= length array], and the array with the
    item inserted before position [idx] is strictly ascending. *)
Theorem binInsertIdx_keeps_sorted {T : Type} `{EqDecision T}
    (R : relation T) `{!StrictOrder R} `{!Trichotomy R}
    (comp : Comparator) (array : list T) (item : T) (calls : list (T * T)) :
  derived_from R comp -> StronglySorted R array -> item ∉ array ->
  exists idx,
    (run comp (_binInsertIdx array item) calls).2 = Returned idx
    /\ 0 <= idx <= Z.of_nat (length array)
    /\ StronglySorted R (splice_insert idx item array).
Proof.
  intros Hcomp Hsorted Hnotin.
  destruct (wp_run (order_response R) comp (_binInsertIdx array item) _ calls
              Hcomp (wp_rejected _ _ _ (binInsertIdx_spec _ array item Hnotin)))
    as (l & _ & Hpost & Hrej).
  destruct (run comp (_binInsertIdx array item) calls).2 as [idx|e|] eqn:Ho.
  - exists idx. split; [done|]. by eapply search_post_sorted.
  - by destruct Hpost as (_ & _ & []).
  - destruct (Hrej eq_refl) as (a & b & l' & -> & Hb).
    destruct Hpost as ((ms & Hp & _) & _).
    apply (probes_distinct _ _ _ _ Hnotin) in Hp.
    apply Forall_cons in Hp as [(_ & _ & Hne) _]. simpl in Hne.
    destruct (Hb Hne) as (c & [=] & _).
Qed.

(** ** Calls without repetition *)
Section NoRepeat.
Context {T : Type} `{EqDecision T}.
Implicit Types (calls l : list (T * T)) (c : T * T).

Lemma swap_call_involutive c : swap_call (swap_call c) = c.
Proof. by destruct c. Qed.

Global Instance swap_call_inj : Inj (=) (=) (@swap_call T).
Proof. intros [a b] [a' b']. unfold swap_call. simpl. congruence. Qed.

Lemma elem_of_swap_calls c l : c ∈ swap_call <$> l <-> swap_call c ∈ l.
Proof.
  rewrite list_elem_of_fmap. split.
  - intros (d & -> & Hd). by rewrite swap_call_involutive.
  - intros Hc. exists (swap_call c). by rewrite swap_call_involutive.
Qed.

Lemma no_repeat_nil : no_repeat (@nil (T * T)).
Proof. unfold no_repeat. simpl. constructor. Qed.

Lemma no_repeat_app l1 l2 :
  no_repeat (l1 ++ l2) <->
  no_repeat l1 /\ no_repeat l2
  /\ (forall c, c ∈ l1 -> (c ∉ l2) /\ (swap_call c ∉ l2)).
Proof.
  unfold no_repeat. rewrite fmap_app.
  assert ((l1 ++ l2) ++ (swap_call <$> l1) ++ (swap_call <$> l2)
          ≡ₚ (l1 ++ (swap_call <$> l1)) ++ (l2 ++ (swap_call <$> l2))) as ->.
  { rewrite <- !app_assoc. f_equiv. rewrite !app_assoc. f_equiv.
    apply Permutation_app_comm. }
  rewrite (NoDup_app (l1 ++ _)). split.
  - intros (H1 & Hd & H2). split; [done|]. split; [done|].
    intros c Hc. split.
    + intros Hc2. eapply Hd; apply elem_of_app; left; done.
    + intros Hc2. eapply (Hd c); apply elem_of_app; [by left|right].
      by apply elem_of_swap_calls.
  - intros (H1 & H2 & Hd). split; [done|]. split; [|done].
    intros c [Hc|Hc]%elem_of_app [Hc2|Hc2]%elem_of_app.
    + by destruct (Hd c Hc).
    + apply elem_of_swap_calls in Hc2. by destruct (Hd c Hc).
    + apply elem_of_swap_calls in Hc. destruct (Hd _ Hc) as [_ []].
      by rewrite swap_call_involutive.
    + apply elem_of_swap_calls in Hc, Hc2. by destruct (Hd _ Hc).
Qed.

Lemma no_repeat_distinct calls c : no_repeat calls -> c ∈ calls -> c.1 <> c.2.
Proof.
  unfold no_repeat. intros Hnd Hc Heq.
  apply NoDup_app in Hnd as (_ & Hd & _). apply (Hd c Hc).
  apply elem_of_swap_calls. destruct c as [a b]. simpl in Heq. by subst.
Qed.

(** Calls that compare one item with different other items. *)
Lemma no_repeat_one_item calls (x : T) :
  Forall (fun c => c.1 = x) calls -> NoDup (snd <$> calls) ->
  x ∉ snd <$> calls -> no_repeat calls.
Proof.
  intros Hfst Hsnd Hx. unfold no_repeat. apply NoDup_app.
  split; [by eapply NoDup_fmap_1|]. split; [|by apply NoDup_fmap_2; [apply _|eapply NoDup_fmap_1]].
  intros [a b] Hc Hsw. apply elem_of_swap_calls in Hsw. unfold swap_call in Hsw.
  simpl in Hsw. rewrite Forall_forall in Hfst.
  apply Hfst in Hc as Ha, Hsw as Hb. simpl in *. subst.
  apply Hx. apply list_elem_of_fmap. by exists (x, x).
Qed.

Lemma probes_snd_NoDup (array : list T) (item : T) ms calls :
  NoDup array -> NoDup ms -> probes array item ms calls ->
  NoDup (snd <$> calls).
Proof.
  intros Harr Hms Hp. induction Hp as [|c m calls ms [Hc Hm] Hp IH]; [constructor|].
  apply NoDup_cons in Hms as [Hm' Hms]. rewrite fmap_cons. constructor; [|by apply IH].
  intros Hin. apply list_elem_of_fmap in Hin as (c' & Heq & Hc').
  apply Hm'. clear IH Hms Hm'.
  induction Hp as [|d m' calls ms [Hd Hdm] _ IH]; [by apply elem_of_nil in Hc'|].
  apply elem_of_cons in Hc' as [->|Hc']; [|right; by apply IH].
  apply elem_of_cons. left. rewrite Heq in Hm.
  apply at_index_lookup in Hm as [? Hm], Hdm as [? Hdm].
  pose proof (NoDup_lookup _ _ _ _ Harr Hm Hdm). lia.
Qed.

Lemma probes_fst (array : list T) (item : T) ms calls :
  probes array item ms calls ->
  Forall (fun c => c.1 = item /\ c.2 ∈ array) calls.
Proof.
  intros Hp. induction Hp as [|c m calls ms [Hc Hm] _ IH]; constructor; [|done].
  split; [done|]. by eapply at_index_elem_of.
Qed.

End NoRepeat.

(** ** Lists that ascend link by link *)
Section SortedLocal.
Context {A : Type} (R : relation A).

Lemma Sorted_insert_between (l : list A) (y : A) (n : nat) :
  Sorted R l ->
  (n <= length l)%nat ->
  (n = 0%nat \/ exists x, l !! pred n = Some x /\ R x y) ->
  (n = length l \/ exists x, l !! n = Some x /\ R y x) ->
  Sorted R (take n l ++ y :: drop n l).
Proof.
  revert n. induction l as [|a l IH]; intros n Hs Hn Hleft Hright.
  - simpl in Hn. assert (n = 0%nat) as -> by lia. simpl. by repeat constructor.
  - apply Sorted_inv in Hs as [Hs Hhd]. destruct n as [|n].
    + simpl. constructor; [by constructor|].
      destruct Hright as [?|(x & [= <-] & HR)]; [done|]. by constructor.
    + simpl. simpl in Hn. constructor.
      * apply IH; [done|lia| |].
        -- destruct n as [|n]; [by left|]. right.
           destruct Hleft as [?|(x & Hx & HR)]; [done|]. by exists x.
        -- destruct Hright as [?|(x & Hx & HR)]; [left; simpl in *; lia|].
           right. by exists x.
      * destruct n as [|n].
        -- simpl. constructor.
           destruct Hleft as [?|(x & [= <-] & HR)]; done.
        -- destruct l as [|b l]; [simpl in Hn; lia|]. simpl.
           constructor. by apply HdRel_inv in Hhd.
Qed.

Lemma Sorted_StronglySorted_trans `{!Transitive R} (l : list A) :
  Sorted R l -> StronglySorted R l.
Proof. by apply Sorted_StronglySorted. Qed.

Lemma Sorted_two (x y : A) : R x y -> Sorted R [x; y].
Proof. intros HR. by repeat constructor. Qed.

Lemma Sorted_mono (R' : relation A) (l : list A) :
  (forall x y, R x y -> R' x y) -> Sorted R l -> Sorted R' l.
Proof.
  intros HR. induction 1 as [|x l Hs IH Hhd]; constructor; [done|].
  destruct Hhd; constructor. by apply HR.
Qed.

End SortedLocal.

(** ** The main chain and its objects *)
Section Chain.
Context {T : Type} `{EqDecision T}.
Implicit Types (h : Heap (T := T)) (g p : SortingPair (T := T))
  (mainChain groups : list (SortingPair (T := T))).

Lemma findIndex_range g mainChain :
  findIndex g mainChain = -1
  \/ 0 <= findIndex g mainChain < Z.of_nat (length mainChain).
Proof.
  induction mainChain as [|v rest IH]; [by left|].
  cbn [findIndex length]. destruct (decide (oid v = oid g)); [right; lia|].
  destruct (Z.ltb_spec (findIndex g rest) 0); [by left|right; lia].
Qed.

Lemma findIndex_lookup g mainChain (b : nat) :
  NoDup (oid <$> mainChain) -> mainChain !! b = Some g ->
  findIndex g mainChain = Z.of_nat b.
Proof.
  revert b. induction mainChain as [|v rest IH]; intros b Hnd Hb; [done|].
  rewrite fmap_cons in Hnd. apply NoDup_cons in Hnd as [Hv Hnd].
  cbn [findIndex]. destruct b as [|b].
  - simpl in Hb. injection Hb as ->. by rewrite decide_True.
  - simpl in Hb. rewrite decide_False.
    + rewrite (IH b) by done. destruct (Z.ltb_spec (Z.of_nat b) 0); lia.
    + intros Heq. apply Hv. rewrite Heq.
      apply list_elem_of_fmap. exists g. split; [done|].
      by eapply list_elem_of_lookup_2.
Qed.

Lemma slice_0_take {A} (b : nat) (l : list A) :
  (b <= length l)%nat -> slice 0 (Z.of_nat b) l = take b l.
Proof.
  intros Hb. change (Z.of_nat b) with (0 + Z.of_nat b).
  rewrite (slice_take_drop 0 (Z.of_nat b) l) by lia.
  simpl. by rewrite Nat2Z.id.
Qed.

(** The searched part is a prefix of the chain: up to the object of the
    entry, or the whole chain for the leftover. *)
Lemma search_prefix_take h mainChain g groups :
  chain_inv h mainChain (g :: groups) ->
  exists b : nat,
    search_prefix h mainChain g = take b mainChain
    /\ (b <= length mainChain)%nat
    /\ match smaller_of h (oid g) with
       | Some _ => mainChain !! b = Some g
       | None => b = length mainChain
       end.
Proof.
  intros (Hoid & _ & _ & Hin & _). unfold search_prefix.
  destruct (smaller_of h (oid g)) as [s|] eqn:Hs.
  - assert (g ∈ mainChain) as [b Hb]%list_elem_of_lookup_1.
    { apply Hin; [by left|]. by rewrite Hs. }
    exists b. rewrite (findIndex_lookup _ _ b) by done.
    apply lookup_lt_Some in Hb as Hlt.
    rewrite slice_0_take by lia. split; [done|]. split; [lia|done].
  - exists (length mainChain). by rewrite take_ge.
Qed.

Lemma step_heap_smaller h g o :
  smaller_of (step_heap h g) o
  = if decide (o = oid g) then None
    else if decide (o = next_oid h) then None else smaller_of h o.
Proof. reflexivity. Qed.

Lemma step_heap_other h g groups g' :
  NoDup (oid <$> g :: groups) -> (oid g' < next_oid h)%nat -> g' ∈ groups ->
  smaller_of (step_heap h g) (oid g') = smaller_of h (oid g').
Proof.
  intros Hnd Hlt Hg'. rewrite step_heap_smaller.
  rewrite fmap_cons in Hnd. apply NoDup_cons in Hnd as [Hg _].
  rewrite decide_False.
  - rewrite decide_False; [done|lia].
  - intros Heq. apply Hg. rewrite <- Heq. apply list_elem_of_fmap. by exists g'.
Qed.

End Chain.

(** ** One insertion into the main chain *)
Section InsertStep.
Context {T : Type} `{EqDecision T}.
Implicit Types (h : Heap (T := T)) (g p : SortingPair (T := T))
  (mainChain groups : list (SortingPair (T := T))).

Lemma step_chain_take_drop h mainChain g (idx : Z) :
  0 <= idx <= Z.of_nat (length mainChain) ->
  step_chain h mainChain g idx
  = take (Z.to_nat idx) mainChain
    ++ {| oid := next_oid h; item := pend h g |} :: drop (Z.to_nat idx) mainChain.
Proof. intros Hidx. unfold step_chain. by rewrite splice_insert_take_drop. Qed.

Lemma insert_middle_Permutation {A} (n : nat) (x : A) (l : list A) :
  take n l ++ x :: drop n l ≡ₚ x :: l.
Proof. by rewrite <- Permutation_middle, take_drop. Qed.

Lemma step_smaller_other h g groups mainChain g' :
  chain_inv h mainChain (g :: groups) -> g' ∈ groups ->
  smaller_of (step_heap h g) (oid g') = smaller_of h (oid g').
Proof.
  intros (_ & Hnd & Hlt & _) Hg'. eapply step_heap_other; [done| |done].
  apply Hlt. apply elem_of_app. right. by right.
Qed.

Lemma step_pend_other h g groups mainChain :
  chain_inv h mainChain (g :: groups) ->
  pend (step_heap h g) <$> groups = pend h <$> groups.
Proof.
  intros Hinv. apply list_fmap_ext. intros i g' Hg'. unfold pend.
  erewrite step_smaller_other; [done|done|]. by eapply list_elem_of_lookup_2.
Qed.

Lemma chain_inv_step h mainChain g groups (n : nat) :
  chain_inv h mainChain (g :: groups) ->
  chain_inv (step_heap h g)
    (take n mainChain ++ {| oid := next_oid h; item := pend h g |}
       :: drop n mainChain) groups.
Proof.
  intros Hinv. pose proof Hinv as (Hoid & Hgoid & Hlt & Hin & Hitems).
  set (p := {| oid := next_oid h; item := pend h g |}).
  split; [|split; [|split; [|split]]].
  - rewrite (insert_middle_Permutation n p mainChain), fmap_cons.
    constructor; [|done]. simpl. intros Hp.
    apply list_elem_of_fmap in Hp as (q & Hq & Hqin).
    assert (oid q < next_oid h)%nat; [|lia].
    apply Hlt. apply elem_of_app. by left.
  - rewrite fmap_cons in Hgoid. by apply NoDup_cons in Hgoid as [_ ?].
  - intros q Hq. simpl.
    rewrite (insert_middle_Permutation n p mainChain) in Hq.
    rewrite <- app_comm_cons in Hq.
    apply elem_of_cons in Hq as [->|Hq]; [simpl; lia|].
    assert (oid q < next_oid h)%nat; [|lia].
    apply Hlt. apply elem_of_app in Hq as [Hq|Hq]; apply elem_of_app;
      [by left|right; by right].
  - intros g' Hg' Hsome.
    rewrite (step_smaller_other _ _ _ _ _ Hinv Hg') in Hsome.
    rewrite (insert_middle_Permutation n p mainChain). right.
    apply Hin; [by right|done].
  - rewrite (insert_middle_Permutation n p mainChain), fmap_cons.
    rewrite (step_pend_other _ _ _ _ Hinv).
    rewrite fmap_cons in Hitems. simpl.
    by rewrite <- Permutation_middle in Hitems.
Qed.

Lemma pend_not_in_chain h mainChain g groups :
  chain_inv h mainChain (g :: groups) -> pend h g ∉ item <$> mainChain.
Proof.
  intros (_ & _ & _ & _ & Hitems). rewrite fmap_cons in Hitems.
  apply NoDup_app in Hitems as (_ & Hd & _). intros Hin.
  apply (Hd _ Hin). by left.
Qed.

Lemma order_inv_step beh h mainChain g groups (b n : nat) :
  chain_inv h mainChain (g :: groups) ->
  order_inv beh h mainChain (g :: groups) ->
  search_prefix h mainChain g = take b mainChain ->
  (b <= length mainChain)%nat ->
  match smaller_of h (oid g) with
  | Some _ => mainChain !! b = Some g
  | None => b = length mainChain
  end ->
  (n <= b)%nat ->
  (n = 0%nat \/ exists x, (item <$> mainChain) !! pred n = Some x
                          /\ beh (pend h g) x (Some false)) ->
  (n = b \/ exists x, (item <$> mainChain) !! n = Some x
                      /\ beh (pend h g) x (Some true)) ->
  order_inv beh (step_heap h g)
    (take n mainChain ++ {| oid := next_oid h; item := pend h g |}
       :: drop n mainChain) groups.
Proof.
  intros Hinv [Hsorted Hpending] Hprefix Hb Hgb Hn Hleft Hright.
  pose proof (pend_not_in_chain _ _ _ _ Hinv) as Hnotin.
  split.
  - rewrite fmap_app, fmap_cons, fmap_take, fmap_drop. simpl.
    apply Sorted_insert_between; [done|rewrite length_fmap; lia| |].
    + destruct Hleft as [->|(x & Hx & Hbeh)]; [by left|]. right.
      exists x. split; [done|]. split; [|by right].
      intros ->. apply Hnotin. by eapply list_elem_of_lookup_2.
    + destruct Hright as [->|(x & Hx & Hbeh)].
      * destruct (smaller_of h (oid g)) as [s|] eqn:Hs.
        -- right. exists (item g). split; [by rewrite list_lookup_fmap, Hgb|].
           unfold pend. rewrite Hs. simpl. apply Hpending; [by left|done].
        -- left. by rewrite length_fmap.
      * right. exists x. split; [done|]. split; [|by left].
        intros <-. apply Hnotin. by eapply list_elem_of_lookup_2.
  - intros g' s Hg' Hs.
    rewrite (step_smaller_other _ _ _ _ _ Hinv Hg') in Hs.
    apply Hpending; [by right|done].
Qed.

End InsertStep.

(** ** The insertion loop *)
Section InsertLoop.
Context {T : Type} `{EqDecision T}.
Implicit Types (h : Heap (T := T)) (g p : SortingPair (T := T))
  (mainChain groups : list (SortingPair (T := T)))
  (beh : T -> T -> option bool -> Prop).

Lemma chain_items_facts h mainChain g groups :
  chain_inv h mainChain (g :: groups) ->
  NoDup (item <$> mainChain)
  /\ (pend h g ∉ item <$> mainChain)
  /\ (pend h g ∉ pend h <$> groups)
  /\ (forall x, x ∈ item <$> mainChain -> x ∉ pend h <$> groups).
Proof.
  intros (_ & _ & _ & _ & Hitems). rewrite fmap_cons in Hitems.
  apply NoDup_app in Hitems as (Hc & Hd & Hp).
  apply NoDup_cons in Hp as [Hy Hp].
  split; [done|]. split; [|split; [done|]].
  - intros Hin. apply (Hd _ Hin). by left.
  - intros x Hx Hxp. apply (Hd _ Hx). by right.
Qed.

Lemma lookup_insert_middle {A} (l : list A) (x : A) (n i : nat) :
  (n <= length l)%nat ->
  (take n l ++ x :: drop n l) !! (if decide (i < n)%nat then i else S i)
  = l !! i.
Proof.
  intros Hn. destruct (decide (i < n)%nat) as [Hlt|Hge].
  - rewrite lookup_app_l by (rewrite length_take; lia).
    by rewrite lookup_take_lt.
  - rewrite lookup_app_r by (rewrite length_take; lia).
    rewrite length_take, Nat.min_l by lia.
    replace (S i - n)%nat with (S (i - n)) by lia. simpl.
    rewrite lookup_drop. f_equal. lia.
Qed.

Lemma search_prefix_step h mainChain g groups (n : nat) g' :
  chain_inv h mainChain (g :: groups) -> (n <= length mainChain)%nat ->
  g' ∈ groups ->
  (length (search_prefix (step_heap h g)
     (take n mainChain ++ {| oid := next_oid h; item := pend h g |}
        :: drop n mainChain) g')
   <= S (length (search_prefix h mainChain g')))%nat.
Proof.
  intros Hinv Hn Hg'.
  pose proof (chain_inv_step _ _ _ _ n Hinv) as Hinv'.
  set (p := {| oid := next_oid h; item := pend h g |}) in *.
  unfold search_prefix at 1.
  rewrite (step_smaller_other _ _ _ _ _ Hinv Hg').
  unfold search_prefix. destruct (smaller_of h (oid g')) as [s|] eqn:Hs.
  - destruct Hinv as (Hoid & _ & _ & Hin & _).
    assert (g' ∈ mainChain) as [b Hb]%list_elem_of_lookup_1.
    { apply Hin; [by right|]. by rewrite Hs. }
    pose proof Hb as Hb'.
    rewrite <- (lookup_insert_middle mainChain p n b Hn) in Hb'.
    destruct Hinv' as (Hoid' & _).
    rewrite (findIndex_lookup _ _ _ Hoid' Hb').
    apply lookup_lt_Some in Hb' as Hlt.
    rewrite slice_0_take by lia.
    rewrite (findIndex_lookup _ _ _ Hoid Hb).
    apply lookup_lt_Some in Hb as Hlt'.
    rewrite slice_0_take by lia.
    rewrite !length_take. destruct (decide (b < n)%nat); lia.
  - rewrite length_app, length_take. simpl. rewrite length_drop. lia.
Qed.

Lemma pos_inv_step h mainChain g groups (n k : nat) ks :
  chain_inv h mainChain (g :: groups) -> (n <= length mainChain)%nat ->
  pos_inv h mainChain (g :: groups) (k :: ks) ->
  pos_inv (step_heap h g)
    (take n mainChain ++ {| oid := next_oid h; item := pend h g |}
       :: drop n mainChain) groups ks.
Proof.
  intros Hinv Hn [Hlen Hpos]. split; [simpl in Hlen; lia|].
  intros i g' k' Hg' Hk'.
  pose proof (search_prefix_step _ _ _ _ n g' Hinv Hn
                (list_elem_of_lookup_2 _ _ _ Hg')) as Hle.
  specialize (Hpos (S i) g' k' Hg' Hk'). lia.
Qed.

(** The calls of one search. *)
Lemma search_calls h mainChain g groups (b : nat) ms calls :
  chain_inv h mainChain (g :: groups) ->
  match smaller_of h (oid g) with
  | Some _ => mainChain !! b = Some g
  | None => b = length mainChain
  end ->
  probes (item <$> take b mainChain) (pend h g) ms calls ->
  Forall (fun c => c.1 = pend h g /\ c.2 ∈ item <$> mainChain
                   /\ c.2 <> item g) calls.
Proof.
  intros Hinv Hb Hp. apply probes_fst in Hp.
  destruct (chain_items_facts _ _ _ _ Hinv) as (Hnd & Hy & _ & _).
  eapply Forall_impl; [done|]. simpl. intros c [Hc1 Hc2].
  split; [done|]. rewrite fmap_take in Hc2.
  split; [by eapply subseteq_take|].
  destruct (smaller_of h (oid g)) as [s|] eqn:Hs.
  - intros Heq.
    rewrite <- (take_drop_middle _ _ _ Hb), fmap_app, fmap_cons in Hnd.
    apply NoDup_app in Hnd as (_ & Hd & _).
    rewrite fmap_take in Hd. apply (Hd _ Hc2). rewrite Heq. by left.
  - intros Heq. apply Hy. unfold pend. rewrite Hs. simpl. rewrite <- Heq.
    by eapply subseteq_take.
Qed.

Lemma insert_calls_search h mainChain g groups calls :
  chain_inv h mainChain (g :: groups) ->
  Forall (fun c => c.1 = pend h g /\ c.2 ∈ item <$> mainChain
                   /\ c.2 <> item g) calls ->
  insert_calls h mainChain (g :: groups) calls.
Proof.
  intros Hinv. destruct (chain_items_facts _ _ _ _ Hinv) as (_ & _ & Hy & _).
  intros Hcalls. eapply Forall_impl; [done|]. simpl.
  intros c (Hc1 & Hc2 & Hc3).
  split; [rewrite Hc1; by left|]. split; [apply elem_of_app; by left|].
  intros g' [->|Hg']%elem_of_cons Heq; [done|].
  destruct Hy. rewrite <- Hc1, Heq. apply list_elem_of_fmap. by exists g'.
Qed.

Lemma insert_calls_rest h mainChain g groups (n : nat) calls :
  chain_inv h mainChain (g :: groups) ->
  insert_calls (step_heap h g)
    (take n mainChain ++ {| oid := next_oid h; item := pend h g |}
       :: drop n mainChain) groups calls ->
  insert_calls h mainChain (g :: groups) calls
  /\ Forall (fun c => c.1 ∈ pend h <$> groups) calls.
Proof.
  intros Hinv Hcalls.
  destruct (chain_items_facts _ _ _ _ Hinv) as (_ & _ & Hy & _).
  unfold insert_calls in *. rewrite <- Forall_and.
  eapply Forall_impl; [done|]. simpl.
  rewrite (step_pend_other _ _ _ _ Hinv).
  intros c (Hc1 & Hc2 & Hc3). split; [split; [by right|split]|done].
  - rewrite insert_middle_Permutation, fmap_cons in Hc2. simpl in Hc2.
    by rewrite <- Permutation_middle.
  - intros g' [->|Hg']%elem_of_cons Heq; [by rewrite Heq in Hc1|].
    apply Hc3; [done|]. unfold pend.
    by rewrite (step_smaller_other _ _ _ _ _ Hinv Hg').
Qed.

Lemma no_repeat_search_rest h mainChain g groups calls rest :
  chain_inv h mainChain (g :: groups) ->
  Forall (fun c => c.1 = pend h g /\ c.2 ∈ item <$> mainChain
                   /\ c.2 <> item g) calls ->
  NoDup (snd <$> calls) ->
  Forall (fun c => c.1 ∈ pend h <$> groups) rest ->
  no_repeat rest ->
  no_repeat (rest ++ calls).
Proof.
  intros Hinv Hcalls Hsnd Hrest Hnr.
  destruct (chain_items_facts _ _ _ _ Hinv) as (_ & Hyc & Hyp & Hdisj).
  rewrite Forall_forall in Hcalls, Hrest.
  apply no_repeat_app. split; [done|]. split.
  - apply (no_repeat_one_item _ (pend h g)); [|done|].
    + apply Forall_forall. intros c Hc. by apply Hcalls.
    + intros (c & Heq & Hc)%list_elem_of_fmap.
      apply Hcalls in Hc as (_ & Hc2 & _). by rewrite <- Heq in Hc2.
  - intros c Hc. apply Hrest in Hc as Hc1. split.
    + intros Hc'. apply Hcalls in Hc' as (Heq & _). by rewrite Heq in Hc1.
    + intros Hc'. apply Hcalls in Hc' as (_ & Hc2 & _). simpl in Hc2.
      by apply (Hdisj _ Hc2).
Qed.

End InsertLoop.

Section InsertLoopSpec.
Context {T : Type} `{EqDecision T}.
Implicit Types (h : Heap (T := T)) (g p : SortingPair (T := T))
  (mainChain groups : list (SortingPair (T := T)))
  (beh : T -> T -> option bool -> Prop).

(** One turn of the loop: the search for the pending item of [g], then
    the loop on the state after its insertion. *)
Lemma insert_loop_cons_wp beh g groups h mainChain Q :
  wp beh (_binInsertIdx (item <$> search_prefix h mainChain g) (pend h g))
     (fun l1 o =>
        match o with
        | Returned idx =>
            wp beh (insert_loop groups (step_heap h g)
                      (step_chain h mainChain g idx))
               (fun l2 o2 => Q (l2 ++ l1) o2)
        | Thrown e => Q l1 (Thrown e)
        | Rejected => Q l1 Rejected
        end) ->
  wp beh (insert_loop (g :: groups) h mainChain) Q.
Proof.
  cbn [insert_loop]. unfold pend, search_prefix, step_heap, step_chain, pend.
  intros Hwp. apply wp_bind.
  destruct (smaller_of h (oid g)) as [s|]; simpl in Hwp |- *.
  - apply wp_bind. eapply wp_mono; [|exact Hwp].
    intros l [idx|e|]; simpl; auto.
  - apply wp_bind. eapply wp_mono; [|exact Hwp].
    intros l [idx|e|]; simpl; auto.
Qed.

Lemma insert_loop_spec beh groups : forall h mainChain ks,
  chain_inv h mainChain groups ->
  order_inv beh h mainChain groups ->
  pos_inv h mainChain groups ks ->
  wp beh (insert_loop groups h mainChain)
     (insert_post beh h mainChain groups ks).
Proof.
  induction groups as [|g groups IH]; intros h mainChain ks Hinv Hord Hpos.
  - simpl. split; [constructor|]. split; [apply no_repeat_nil|].
    split; [simpl; lia|]. split; [by rewrite app_nil_r|apply Hord].
  - destruct ks as [|k ks]; [by destruct Hpos|].
    destruct (search_prefix_take _ _ _ _ Hinv) as (b & Hpre & Hb & Hgb).
    destruct (chain_items_facts _ _ _ _ Hinv) as (Hnd & Hyc & Hyp & Hdisj).
    apply insert_loop_cons_wp. rewrite Hpre.
    assert (length (item <$> take b mainChain) = b) as Hlen.
    { rewrite length_fmap, length_take. lia. }
    eapply wp_mono; [|apply binInsertIdx_spec]; cycle 1.
    { intros Hin. apply Hyc. rewrite fmap_take in Hin.
      by eapply subseteq_take. }
    intros calls o ((ms & Hp & Hms & Hrange) & Hcnt & Ho).
    pose proof (search_calls _ _ _ _ _ _ _ Hinv Hgb Hp) as Hcalls.
    assert (NoDup (snd <$> calls)) as Hsnd.
    { eapply probes_snd_NoDup; [|done|done].
      rewrite fmap_take. eapply sublist_NoDup; [done|apply sublist_take]. }
    assert (length calls <= k)%nat as Hk.
    { apply Hcnt. rewrite Hlen. destruct Hpos as [_ Hpos].
      specialize (Hpos 0%nat g k eq_refl eq_refl).
      rewrite Hpre, length_take in Hpos. lia. }
    assert (insert_calls h mainChain (g :: groups) calls
            /\ no_repeat calls) as [Hic Hnr].
    { split; [by apply insert_calls_search|].
      apply (no_repeat_search_rest _ _ _ _ _ [] Hinv Hcalls Hsnd);
        [constructor|apply no_repeat_nil]. }
    destruct o as [idx|e|]; [|done|]; cycle 1.
    { split; [done|]. split; [done|]. split; [simpl; lia|done]. }
    destruct Ho as (Hidx & Hleft & Hright). rewrite Hlen in Hidx, Hright.
    rewrite step_chain_take_drop by lia.
    set (n := Z.to_nat idx).
    eapply wp_mono; [|apply (IH _ _ ks)]; cycle 1.
    { by apply chain_inv_step. }
    { apply (order_inv_step _ _ _ _ _ b); [done|done|done|done|done|lia| |].
      - destruct Hleft as [->|(x & Hx & Hbeh)]; [by left|]. right.
        exists x. split; [|done].
        apply at_index_lookup in Hx as [? Hx].
        rewrite fmap_take in Hx. apply lookup_take_Some in Hx as [Hx _].
        by replace (pred n) with (Z.to_nat (idx - 1)) by lia.
      - destruct Hright as [->|(x & Hx & Hbeh)]; [left; lia|]. right.
        exists x. split; [|done].
        apply at_index_lookup in Hx as [? Hx].
        rewrite fmap_take in Hx. by apply lookup_take_Some in Hx as [Hx _]. }
    { eapply pos_inv_step; [done|lia|done]. }
    intros rest o2 (Hic2 & Hnr2 & Hlen2 & Ho2).
    apply (insert_calls_rest _ _ _ _ n) in Hic2 as [Hic2 Hfst]; [|done].
    split; [by apply Forall_app|].
    split; [by eapply no_repeat_search_rest|].
    split; [rewrite length_app; simpl; lia|].
    destruct o2 as [final|e|]; [|done|done].
    destruct Ho2 as [Hperm Hsorted]. split; [|done].
    rewrite Hperm, (step_pend_other _ _ _ _ Hinv).
    rewrite !fmap_app, !fmap_cons. simpl.
    rewrite <- !Permutation_middle.
    by rewrite <- fmap_app, take_drop.
Qed.

End InsertLoopSpec.

(** ** The pairs *)
Section Pairs.
Context {T : Type} `{EqDecision T}.
Implicit Types (beh : T -> T -> option bool -> Prop) (array : list T)
  (ps pairs : list (T * T)).

Lemma pair_induction (P : list T -> Prop) :
  P [] -> (forall a, P [a]) ->
  (forall a b rest, P rest -> P (a :: b :: rest)) ->
  forall l, P l.
Proof.
  intros H0 H1 H2 l.
  assert (P l /\ forall a, P (a :: l)) as [? _]; [|done].
  induction l as [|b l [IH1 IH2]]; [by split|].
  split; [apply IH2|]. intros a. by apply H2.
Qed.

Lemma map_set_fresh (k v : T) pairs :
  k ∉ fst <$> pairs -> map_set k v pairs = pairs ++ [(k, v)].
Proof.
  induction pairs as [|[k' v'] pairs IH]; intros Hk; [done|].
  rewrite fmap_cons in Hk. apply not_elem_of_cons in Hk as [Hne Hk].
  simpl. rewrite decide_False by done. by rewrite IH.
Qed.

Lemma map_get_Some (k v : T) pairs :
  NoDup (fst <$> pairs) -> (k, v) ∈ pairs -> map_get k pairs = Some v.
Proof.
  unfold map_get.
  induction pairs as [|[k' v'] pairs IH]; intros Hnd Hin;
    [by apply elem_of_nil in Hin|].
  rewrite fmap_cons in Hnd. apply NoDup_cons in Hnd as [Hk' Hnd].
  simpl. destruct (decide (k' = k)) as [->|Hne].
  - rewrite bool_decide_eq_true_2 by done. simpl.
    apply elem_of_cons in Hin as [[= ->]|Hin]; [done|].
    destruct Hk'. apply list_elem_of_fmap. by exists (k, v).
  - rewrite bool_decide_eq_false_2 by done.
    apply elem_of_cons in Hin as [[= -> ->]|Hin]; [done|]. by apply IH.
Qed.

Lemma adjacent_elem_of array a b :
  (a, b) ∈ adjacent array -> a ∈ array /\ b ∈ array.
Proof.
  induction array as [| |x y rest IH] using pair_induction; simpl.
  - by intros ?%elem_of_nil.
  - by intros ?%elem_of_nil.
  - intros [[= -> ->]|Hin]%elem_of_cons.
    + split; [by left|right; by left].
    + destruct (IH Hin). split; by do 2 right.
Qed.

Lemma adjacent_length array :
  length (adjacent array) = (length array / 2)%nat.
Proof.
  induction array as [| |x y rest IH] using pair_induction; [done|done|].
  cbn [adjacent length]. rewrite IH.
  replace (S (S (length rest))) with (length rest + 1 * 2)%nat by lia.
  rewrite Nat.div_add by lia. lia.
Qed.

Lemma pairs_loop_spec beh array : forall acc,
  NoDup array -> (forall x, x ∈ array -> x ∉ fst <$> acc) ->
  wp beh (pairs_loop array acc) (fun calls o =>
    reverse calls `prefix_of` adjacent array
    /\ match o with
       | Returned pairs => exists ps, pairs = acc ++ ps /\ paired beh array ps
       | Thrown _ => False
       | Rejected => True
       end).
Proof.
  induction array as [| |a b rest IH] using pair_induction;
    intros acc Hnd Hfresh.
  - simpl. split; [done|]. exists []. split; [by rewrite app_nil_r|constructor].
  - simpl. split; [apply prefix_nil|]. exists [].
    split; [by rewrite app_nil_r|constructor].
  - apply NoDup_cons in Hnd as [Ha Hnd]. apply NoDup_cons in Hnd as [Hb Hnd].
    apply not_elem_of_cons in Ha as [Hab Ha].
    simpl. split.
    + intros _. split; [|done]. by exists (adjacent rest).
    + intros c Hc.
      set (kv := if c then (b, a) else (a, b)).
      assert ((if c then map_set b a acc else map_set a b acc) = acc ++ [kv])
        as ->.
      { unfold kv. destruct c; apply map_set_fresh, Hfresh;
          [right; by left|by left]. }
      eapply wp_mono; [|apply IH]; [|done|].
      * intros calls o [Hpre Ho]. split.
        -- rewrite reverse_app. simpl. by apply prefix_cons.
        -- destruct o as [pairs|e|]; [|done|done].
           destruct Ho as (ps & -> & Hps). exists (kv :: ps).
           split; [by rewrite <- app_assoc|]. by constructor.
      * intros x Hx. rewrite fmap_app. intros [Hin|Hin]%elem_of_app.
        -- eapply Hfresh; [|done]. by do 2 right.
        -- unfold kv in Hin. destruct c; simpl in Hin;
             apply list_elem_of_singleton in Hin; by subst.
Qed.

Lemma leftover_cons2 (a b : T) rest : leftover (a :: b :: rest) = leftover rest.
Proof.
  unfold leftover. cbn [length].
  replace (Z.of_nat (S (S (length rest)))) with (Z.of_nat (length rest) + 1 * 2)
    by lia.
  rewrite Z.mod_add by lia.
  destruct (Z.eqb_spec (Z.of_nat (length rest) mod 2) 0) as [|Hodd];
    [done|]. f_equal.
  unfold at_index.
  destruct (Z.ltb_spec (Z.of_nat (length rest) - 1) 0) as [Hlt|Hge].
  - assert (length rest = 0%nat) as Hl by lia. by rewrite Hl in Hodd.
  - destruct (Z.ltb_spec (Z.of_nat (length rest) + 1 * 2 - 1) 0); [lia|].
    replace (Z.to_nat (Z.of_nat (length rest) + 1 * 2 - 1))
      with (S (S (Z.to_nat (Z.of_nat (length rest) - 1)))) by lia.
    done.
Qed.

Lemma paired_Permutation beh array ps :
  paired beh array ps ->
  (fst <$> ps) ++ (snd <$> ps) ++ leftover array ≡ₚ array.
Proof.
  induction 1 as [|a|a b rest c ps Hc Hps IH]; [done|done|].
  rewrite leftover_cons2, !fmap_cons.
  destruct c; simpl; rewrite <- Permutation_middle, IH; [apply perm_swap|done].
Qed.

Lemma paired_length beh array ps :
  paired beh array ps -> length ps = (length array / 2)%nat.
Proof.
  induction 1 as [|a|a b rest c ps Hc Hps IH]; [done|done|].
  cbn [length]. rewrite IH.
  replace (S (S (length rest))) with (length rest + 1 * 2)%nat by lia.
  rewrite Nat.div_add by lia. lia.
Qed.

Lemma paired_below beh array ps k v :
  NoDup array -> paired beh array ps -> (k, v) ∈ ps -> below beh v k.
Proof.
  intros Hnd Hps. induction Hps as [|a|a b rest c ps Hc Hps IH];
    [by intros ?%elem_of_nil|by intros ?%elem_of_nil|].
  apply NoDup_cons in Hnd as [Ha Hnd]. apply NoDup_cons in Hnd as [Hb Hnd].
  apply not_elem_of_cons in Ha as [Hab Ha].
  intros [Heq|Hin]%elem_of_cons; [|by apply IH].
  destruct c; injection Heq as -> ->; (split; [done|]); [by left|by right].
Qed.

(** A call of the first loop is for a pair and its key. *)
Lemma paired_adjacent beh array ps a b :
  paired beh array ps -> (a, b) ∈ adjacent array ->
  (a, b) ∈ ps \/ (b, a) ∈ ps.
Proof.
  induction 1 as [|x|x y rest c ps Hc Hps IH]; simpl;
    [by intros ?%elem_of_nil|by intros ?%elem_of_nil|].
  intros [[= -> ->]|Hin]%elem_of_cons.
  - destruct c; [right|left]; by left.
  - destruct (IH Hin); [left|right]; by right.
Qed.

End Pairs.

(** ** Building the main chain *)
Section Setup.
Context {T : Type} `{EqDecision T}.
Implicit Types (h : Heap (T := T)) (g p : SortingPair (T := T))
  (mainChain groups : list (SortingPair (T := T)))
  (beh : T -> T -> option bool -> Prop) (ps pairs : list (T * T)).

Lemma new_chain_spec pairs larger : forall h mainChain h',
  new_chain pairs larger h = (mainChain, h') ->
  item <$> mainChain = larger
  /\ NoDup (oid <$> mainChain)
  /\ (forall g, g ∈ mainChain -> (next_oid h <= oid g < next_oid h')%nat)
  /\ (forall g, g ∈ mainChain -> smaller_of h' (oid g) = map_get (item g) pairs)
  /\ (forall o, (o < next_oid h)%nat -> smaller_of h' o = smaller_of h o)
  /\ (next_oid h <= next_oid h')%nat.
Proof.
  induction larger as [|l larger IH]; intros h mainChain h' Hnc.
  - simpl in Hnc. injection Hnc as <- <-.
    split; [done|]. split; [constructor|].
    split; [by intros g ?%elem_of_nil|]. split; [by intros g ?%elem_of_nil|].
    split; [done|lia].
  - cbn [new_chain] in Hnc. unfold new_pair in Hnc.
    destruct (new_chain pairs larger _) as [ps h2] eqn:Hrec.
    injection Hnc as <- <-.
    destruct (IH _ _ _ Hrec) as (Hitem & Hnd & Hrange & Hsm & Hold & Hnext).
    simpl in Hrange, Hold, Hnext.
    split; [by rewrite fmap_cons, Hitem|]. split.
    { rewrite fmap_cons. constructor; [|done]. simpl.
      intros (g & Hg & Hin)%list_elem_of_fmap. apply Hrange in Hin. lia. }
    split.
    { intros g [->|Hg]%elem_of_cons; [simpl; lia|].
      apply Hrange in Hg. lia. }
    split.
    { intros g [->|Hg]%elem_of_cons; [|by apply Hsm]. simpl.
      rewrite Hold by lia. simpl. by rewrite decide_True. }
    split; [|lia].
    intros o Ho. rewrite Hold by lia. simpl. rewrite decide_False; [done|lia].
Qed.

Lemma map_get_elem_of (k v : T) pairs :
  map_get k pairs = Some v -> (k, v) ∈ pairs.
Proof.
  unfold map_get. intros Hget.
  destruct (find _ pairs) as [[k' v']|] eqn:Hfind; [|done].
  injection Hget as ->. apply find_some in Hfind as [Hin Hk].
  apply bool_decide_eq_true_1 in Hk. simpl in Hk. subst.
  by apply list_elem_of_In.
Qed.

Lemma val_pairs pairs :
  NoDup (fst <$> pairs) -> (fun kv => val pairs kv.1) <$> pairs = snd <$> pairs.
Proof.
  intros Hnd. apply list_fmap_ext. intros i [k v] Hi. unfold val. simpl.
  by rewrite (map_get_Some k v) by (done || by eapply list_elem_of_lookup_2).
Qed.

Lemma val_larger pairs larger :
  NoDup (fst <$> pairs) -> larger ≡ₚ fst <$> pairs ->
  val pairs <$> larger ≡ₚ snd <$> pairs.
Proof.
  intros Hnd ->. rewrite <- list_fmap_compose. by rewrite <- val_pairs.
Qed.

End Setup.

Section SetupInv.
Context {T : Type} `{EqDecision T}.
Implicit Types (h : Heap (T := T)) (g p : SortingPair (T := T))
  (mainChain groups : list (SortingPair (T := T)))
  (beh : T -> T -> option bool -> Prop) (ps pairs : list (T * T)).

Lemma leftover_length (array : list T) : (length (leftover array) <= 1)%nat.
Proof.
  unfold leftover. destruct (_ =? 0); [simpl; lia|].
  destruct (at_index _ _); simpl; lia.
Qed.

(** The state in which the insertion loop starts: the main chain is [p0],
    the object of the smallest smaller item, and the objects
    [first :: rest] of the larger items in ascending order; the entries to
    insert are [rest] and the object [lobjs] of the leftover, if any. *)
Lemma setup_inv beh array ps first rest p0 lobjs h s :
  NoDup array -> paired beh array ps ->
  item <$> first :: rest ≡ₚ fst <$> ps ->
  Sorted (below beh) (item <$> first :: rest) ->
  NoDup (oid <$> p0 :: first :: rest ++ lobjs) ->
  (forall g, g ∈ p0 :: first :: rest ++ lobjs -> (oid g < next_oid h)%nat) ->
  map_get (item first) ps = Some s -> item p0 = s ->
  (forall g, g ∈ rest -> smaller_of h (oid g) = map_get (item g) ps) ->
  (forall g, g ∈ lobjs -> smaller_of h (oid g) = None) ->
  item <$> lobjs = leftover array ->
  chain_inv h (p0 :: first :: rest) (rest ++ lobjs)
  /\ order_inv beh h (p0 :: first :: rest) (rest ++ lobjs)
  /\ (item <$> p0 :: first :: rest) ++ (pend h <$> rest ++ lobjs) ≡ₚ array
  /\ (forall (j : nat) g, (rest ++ lobjs) !! j = Some g ->
        length (search_prefix h (p0 :: first :: rest) g) = (j + 2)%nat)
  /\ (forall k v, (k, v) ∈ ps -> v ∈ pend h <$> rest ++ lobjs ->
        exists g, g ∈ rest ++ lobjs /\ item g = k /\ pend h g = v).
Proof.
  intros Harr Hps Hlarger Hsorted Hoid Hlt Hs Hp0 Hrest Hlobjs Hleft.
  assert (NoDup (fst <$> ps) /\ NoDup ((fst <$> ps) ++ (snd <$> ps)))
    as [Hkeys Hkv].
  { pose proof (paired_Permutation _ _ _ Hps) as Hperm.
    rewrite <- Hperm in Harr. rewrite app_assoc in Harr.
    apply NoDup_app in Harr as (Hkv & _ & _). split; [|done].
    by apply NoDup_app in Hkv as (? & _ & _). }
  assert (forall g, g ∈ rest -> exists v, smaller_of h (oid g) = Some v
            /\ (item g, v) ∈ ps /\ pend h g = val ps (item g)) as Hrest'.
  { intros g Hg.
    assert (item g ∈ fst <$> ps) as ([k v] & Hk & Hin)%list_elem_of_fmap.
    { rewrite <- Hlarger, fmap_cons. right. apply list_elem_of_fmap. by exists g. }
    simpl in Hk. subst k. exists v. unfold pend, val.
    rewrite (Hrest g Hg), (map_get_Some _ v) by done. done. }
  assert (pend h <$> rest ++ lobjs
          = (val ps <$> (item <$> rest)) ++ leftover array) as Hpends.
  { rewrite fmap_app, <- Hleft. f_equal.
    - rewrite <- list_fmap_compose. apply list_fmap_ext. intros i g Hg. simpl.
      by destruct (Hrest' g (list_elem_of_lookup_2 _ _ _ Hg)) as (v & _ & _ & ->).
    - apply list_fmap_ext. intros i g Hg. unfold pend.
      by rewrite (Hlobjs g (list_elem_of_lookup_2 _ _ _ Hg)). }
  assert ((item <$> p0 :: first :: rest) ++ (pend h <$> rest ++ lobjs) ≡ₚ array)
    as Hperm.
  { rewrite Hpends. etrans; [|apply (paired_Permutation _ _ _ Hps)].
    pose proof (val_larger ps _ Hkeys Hlarger) as Hvals.
    rewrite <- Hvals, <- Hlarger. rewrite !fmap_cons, Hp0.
    assert (val ps (item first) = s) as -> by (unfold val; by rewrite Hs).
    apply (Permutation_middle (item first :: (item <$> rest))). }
  assert (chain_inv h (p0 :: first :: rest) (rest ++ lobjs)) as Hinv.
  { split; [|split; [|split; [|split]]].
    - change (p0 :: first :: rest ++ lobjs)
        with ((p0 :: first :: rest) ++ lobjs) in Hoid.
      rewrite fmap_app in Hoid. by apply NoDup_app in Hoid as (? & _ & _).
    - rewrite !fmap_cons in Hoid. by do 2 apply NoDup_cons in Hoid as [_ Hoid].
    - intros g Hg. apply Hlt.
      change (p0 :: first :: rest ++ lobjs) with ((p0 :: first :: rest) ++ lobjs).
      apply elem_of_app in Hg as [Hg|Hg]; [apply elem_of_app; by left|].
      do 2 right. done.
    - intros g [Hg|Hg]%elem_of_app Hsome; [by do 2 right|].
      rewrite (Hlobjs g Hg) in Hsome. by destruct Hsome.
    - by rewrite Hperm. }
  split; [done|]. split; [|split; [done|split]].
  - split.
    + rewrite fmap_cons, Hp0. constructor; [done|].
      rewrite fmap_cons. constructor.
      apply (paired_below beh array ps); [done|done|]. by apply map_get_elem_of.
    + intros g v [Hg|Hg]%elem_of_app Hv.
      * destruct (Hrest' g Hg) as (v' & Hv' & Hin & _).
        rewrite Hv in Hv'. injection Hv' as <-.
        by apply (paired_below beh array ps).
      * by rewrite (Hlobjs g Hg) in Hv.
  - intros j g Hj. unfold search_prefix.
    destruct Hinv as (Hoid1 & _).
    apply lookup_app_Some in Hj as [Hj|[Hlen Hj]].
    + destruct (Hrest' g (list_elem_of_lookup_2 _ _ _ Hj)) as (v & -> & _).
      assert ((p0 :: first :: rest) !! (S (S j)) = Some g) as Hj2 by done.
      rewrite (findIndex_lookup _ _ _ Hoid1 Hj2).
      apply lookup_lt_Some in Hj2 as Hlt2.
      rewrite slice_0_take by lia. rewrite length_take. lia.
    + rewrite (Hlobjs g (list_elem_of_lookup_2 _ _ _ Hj)).
      apply lookup_lt_Some in Hj.
      pose proof (leftover_length array) as Hl. rewrite <- Hleft, length_fmap in Hl.
      simpl. lia.
  - intros k v Hkv' Hv.
    assert (k ∈ item <$> first :: rest) as Hk.
    { rewrite Hlarger. apply list_elem_of_fmap. by exists (k, v). }
    rewrite fmap_cons in Hk. apply elem_of_cons in Hk as [->|Hk].
    + rewrite (map_get_Some _ v) in Hs by done. injection Hs as ->.
      destruct Hinv as (_ & _ & _ & _ & Hnd).
      apply NoDup_app in Hnd as (_ & Hd & _). destruct (Hd s); [|done].
      rewrite fmap_cons, Hp0. by left.
    + apply list_elem_of_fmap in Hk as (g & -> & Hg). exists g.
      split; [apply elem_of_app; by left|]. split; [done|].
      destruct (Hrest' g Hg) as (v' & _ & Hin & ->). unfold val.
      by rewrite (map_get_Some _ v).
Qed.

End SetupInv.

(** ** The order of insertion is a rearrangement *)
Section GroupedPerm.

Lemma chunks_Permutation {A} (sizes : list Z) : forall l : list A,
  Forall (fun s => 1 <= s) sizes -> (length l <= length sizes)%nat ->
  concat (@reverse A <$> chunks sizes l) ≡ₚ l.
Proof.
  induction sizes as [|s sizes IH]; intros l Hs Hlen.
  - destruct l; [done|simpl in Hlen; lia].
  - apply Forall_cons in Hs as [Hs1 Hs]. cbn [chunks]. rewrite fmap_cons.
    cbn [concat]. rewrite reverse_Permutation, IH; [by rewrite take_drop|done|].
    rewrite length_drop. simpl in Hlen. lia.
Qed.

Lemma grouped_Permutation {A} (l : list A) : grouped l ≡ₚ l.
Proof.
  unfold grouped. apply chunks_Permutation.
  - apply Forall_fmap, Forall_forall. intros i Hi. simpl.
    apply elem_of_seq in Hi. destruct i as [|i]; [lia|]. apply group_size_pos.
  - rewrite length_fmap, length_seq. lia.
Qed.

Lemma with_index_fst {A} (l : list A) :
  (with_index l).*1 = Z.of_nat <$> seq 0 (length l).
Proof.
  unfold with_index. rewrite fmap_imap.
  rewrite <- (imap_seq_0 l Z.of_nat). by apply imap_ext.
Qed.

Lemma grouped_length {A} (l : list A) : length (grouped l) = length l.
Proof. by rewrite grouped_Permutation. Qed.

Lemma with_index_elem_of {A} (l : list A) (j : Z) (x : A) :
  (j, x) ∈ with_index l -> 0 <= j /\ l !! Z.to_nat j = Some x.
Proof.
  unfold with_index. intros (i & y & [= -> ->] & Hi)%elem_of_lookup_imap.
  split; [lia|]. by rewrite Nat2Z.id.
Qed.

End GroupedPerm.

Section TraceLemmas.
Context {T : Type} `{EqDecision T}.
Implicit Types (h : Heap (T := T)) (g p : SortingPair (T := T))
  (mainChain groups : list (SortingPair (T := T)))
  (beh : T -> T -> option bool -> Prop) (ps pairs : list (T * T)).

Global Instance no_repeat_Permutation :
  Proper ((≡ₚ) ==> iff) (@no_repeat T).
Proof. intros l1 l2 Hl. unfold no_repeat. by rewrite Hl. Qed.

Lemma no_repeat_cons (c : T * T) calls :
  no_repeat (c :: calls) <->
  c.1 <> c.2 /\ (c ∉ calls) /\ (swap_call c ∉ calls) /\ no_repeat calls.
Proof.
  change (c :: calls) with ([c] ++ calls). rewrite no_repeat_app. split.
  - intros (Hc & Hcalls & Hd). split; [|split; [|split; [|done]]].
    + apply (no_repeat_distinct [c]); [done|by left].
    + apply (Hd c). by left.
    + apply (Hd c). by left.
  - intros (Hne & Hc & Hsw & Hcalls). split; [|split; [done|]].
    + unfold no_repeat. simpl. apply NoDup_cons. split; [|apply NoDup_singleton].
      intros Heq%list_elem_of_singleton. destruct c as [a b]. unfold swap_call in Heq.
      simpl in *. congruence.
    + by intros c' ->%list_elem_of_singleton.
Qed.

Lemma no_repeat_adjacent (array : list T) :
  NoDup array -> no_repeat (adjacent array).
Proof.
  induction array as [| |a b rest IH] using pair_induction; intros Hnd;
    [apply no_repeat_nil|apply no_repeat_nil|].
  apply NoDup_cons in Hnd as [Ha Hnd]. apply NoDup_cons in Hnd as [Hb Hnd].
  apply not_elem_of_cons in Ha as [Hab Ha].
  cbn [adjacent]. apply no_repeat_cons. simpl.
  split; [done|]. split; [|split; [|by apply IH]].
  - intros Hin. apply adjacent_elem_of in Hin as [? _]. done.
  - intros Hin. apply adjacent_elem_of in Hin as [? _]. done.
Qed.

Lemma no_repeat_prefix (calls l : list (T * T)) :
  reverse calls `prefix_of` l -> no_repeat l -> no_repeat calls.
Proof.
  intros [k ->] Hnr. apply no_repeat_app in Hnr as (Hnr & _).
  by rewrite reverse_Permutation in Hnr.
Qed.

Lemma prefix_elem_of {A} (calls l : list A) x :
  reverse calls `prefix_of` l -> x ∈ calls -> x ∈ l.
Proof.
  intros [k ->] Hx. apply elem_of_app. left. by apply elem_of_reverse.
Qed.

Lemma prefix_reverse_length {A} (calls l : list A) :
  reverse calls `prefix_of` l -> (length calls <= length l)%nat.
Proof. intros Hp. apply prefix_length in Hp. by rewrite length_reverse in Hp. Qed.

Lemma chain_inv_Permutation h mainChain groups groups' :
  groups ≡ₚ groups' -> chain_inv h mainChain groups ->
  chain_inv h mainChain groups'.
Proof.
  intros Hg (H1 & H2 & H3 & H4 & H5).
  split; [done|]. split; [by rewrite <- Hg|]. split; [|split].
  - intros p. rewrite <- Hg. apply H3.
  - intros g. rewrite <- Hg. apply H4.
  - by rewrite <- Hg.
Qed.

Lemma order_inv_Permutation beh h mainChain groups groups' :
  groups ≡ₚ groups' -> order_inv beh h mainChain groups ->
  order_inv beh h mainChain groups'.
Proof.
  intros Hg [H1 H2]. split; [done|]. intros g s. rewrite <- Hg. apply H2.
Qed.

Lemma insert_calls_Permutation h mainChain groups groups' calls :
  groups ≡ₚ groups' -> insert_calls h mainChain groups calls ->
  insert_calls h mainChain groups' calls.
Proof.
  intros Hg Hcalls. unfold insert_calls in *.
  eapply Forall_impl; [done|]. simpl. intros c (H1 & H2 & H3).
  split; [by rewrite <- Hg|]. split; [by rewrite <- Hg|].
  intros g. rewrite <- Hg. apply H3.
Qed.

End TraceLemmas.

(** ** The sort, for any bound that obeys its recurrence *)
Section SortSpec.
Context {T : Type} `{EqDecision T}.
Context (beh : T -> T -> option bool -> Prop).
Context (bound : nat -> nat) (costs : nat -> list nat).
Hypothesis bound_2 : (1 <= bound 2)%nat.
Hypothesis bound_rec : forall n, (3 <= n)%nat ->
  (n / 2 + bound (n / 2) + sum_list (costs ((n + 1) / 2 - 1)) <= bound n)%nat.
Hypothesis costs_length : forall q, length (costs q) = q.
Hypothesis costs_pos : forall (q i : nat) (j : Z) (k : nat),
  grouped (Z.of_nat <$> seq 0 q) !! i = Some j -> costs q !! i = Some k ->
  j + 2 + Z.of_nat i < 2 ^ Z.of_nat k.

Implicit Types (h : Heap (T := T)) (g p : SortingPair (T := T))
  (mainChain groups : list (SortingPair (T := T)))
  (ps pairs : list (T * T)).

Lemma pos_inv_grouped h mainChain (toInsert : list SortingPair) :
  (forall (j : nat) g, toInsert !! j = Some g ->
     length (search_prefix h mainChain g) = (j + 2)%nat) ->
  pos_inv h mainChain (grouped toInsert) (costs (length toInsert)).
Proof.
  intros Hlen. rewrite <- (with_index_snd toInsert) at 1.
  rewrite <- grouped_fmap. split.
  - rewrite costs_length, length_fmap, grouped_length. unfold with_index.
    by rewrite length_imap.
  - intros i g k Hg Hk. rewrite list_lookup_fmap in Hg.
    destruct (grouped (with_index toInsert) !! i) as [[j g']|] eqn:Hi; [|done].
    injection Hg as ->.
    assert ((j, g) ∈ with_index toInsert) as Hin.
    { rewrite <- grouped_Permutation. by eapply list_elem_of_lookup_2. }
    apply with_index_elem_of in Hin as [Hj Hin].
    rewrite (Hlen _ _ Hin).
    assert (grouped (Z.of_nat <$> seq 0 (length toInsert)) !! i = Some j) as Hi'.
    { by rewrite <- with_index_fst, <- grouped_fmap, list_lookup_fmap, Hi. }
    specialize (costs_pos _ _ _ _ Hi' Hk). lia.
Qed.


Lemma insert_phase_spec array ps first rest p0 lobjs h s :
  NoDup array -> paired beh array ps ->
  item <$> first :: rest ≡ₚ fst <$> ps ->
  Sorted (below beh) (item <$> first :: rest) ->
  NoDup (oid <$> p0 :: first :: rest ++ lobjs) ->
  (forall g, g ∈ p0 :: first :: rest ++ lobjs -> (oid g < next_oid h)%nat) ->
  map_get (item first) ps = Some s -> item p0 = s ->
  (forall g, g ∈ rest -> smaller_of h (oid g) = map_get (item g) ps) ->
  (forall g, g ∈ lobjs -> smaller_of h (oid g) = None) ->
  item <$> lobjs = leftover array ->
  wp beh
    (bind (fueled (_makeGroups (rest ++ lobjs))) (fun gs =>
     bind (insert_loop (snd <$> gs) h (p0 :: first :: rest))
       (fun mc => Ret (item <$> mc))))
    (steps_post beh costs array ps (length (rest ++ lobjs))).
Proof.
  intros Harr Hps Hlarger Hsorted Hoid Hlt Hs Hp0 Hrest Hlobjs Hleft.
  destruct (setup_inv beh array ps first rest p0 lobjs h s)
    as (Hinv & Hord & Hperm & Hpos & Hpartner); try done.
  rewrite makeGroups_spec. cbn [fueled bind].
  rewrite grouped_fmap, with_index_snd.
  pose proof (grouped_Permutation (rest ++ lobjs)) as Hg.
  apply (wp_bind beh (insert_loop _ _ _)). eapply wp_mono;
    [|apply (insert_loop_spec _ _ _ _ (costs (length (rest ++ lobjs))))];
    cycle 1.
  { eapply chain_inv_Permutation; [symmetry; exact Hg|done]. }
  { eapply order_inv_Permutation; [symmetry; exact Hg|done]. }
  { by apply pos_inv_grouped. }
  intros calls o (Hcalls & Hnr & Hlen & Ho).
  apply (insert_calls_Permutation _ _ _ _ _ Hg) in Hcalls.
  destruct Hinv as (_ & _ & _ & _ & Hnd).
  assert (Forall (fun c => c.1 ∈ array /\ c.2 ∈ array
            /\ (c.1 ∉ fst <$> ps) /\ ((c.2, c.1) ∉ ps)) calls) as Hcalls'.
  { eapply Forall_impl; [exact Hcalls|]. simpl. intros c (Hc1 & Hc2 & Hc3).
    apply NoDup_app in Hnd as (_ & Hd & _).
    split; [|split; [|split]].
    - rewrite <- Hperm. apply elem_of_app. by right.
    - by rewrite <- Hperm.
    - intros Hk. rewrite <- Hlarger in Hk. apply (Hd (c.1)); [|done].
      rewrite fmap_cons. by right.
    - intros Hin. destruct (Hpartner _ _ Hin Hc1) as (g & Hg' & Hitem & Hpend).
      by apply (Hc3 g). }
  destruct o as [final|e|]; [|done|done].
  simpl. split; [done|]. split; [done|]. split; [done|].
  destruct Ho as [Hfinal Hs']. split; [|done].
  by rewrite Hfinal, Hg.
Qed.

Lemma slice_to_end {A} (i : nat) (l : list A) :
  (i <= length l)%nat ->
  slice (Z.of_nat i) (Z.of_nat (length l)) l = drop i l.
Proof.
  intros Hi.
  replace (Z.of_nat (length l))
    with (Z.of_nat i + Z.of_nat (length l - i)) at 1 by lia.
  rewrite slice_take_drop by lia. rewrite !Nat2Z.id.
  apply take_ge. rewrite length_drop. lia.
Qed.

Lemma slice_from_2 {A} (l : list A) :
  (2 <= length l)%nat -> slice 2 (Z.of_nat (length l)) l = drop 2 l.
Proof. apply (slice_to_end 2). Qed.

Ltac prog_step :=
  cbn [mbind prog_bind bind non_null fueled new_pair lookup list_lookup].

Lemma main_chain_steps_spec array ps larger :
  NoDup array -> paired beh array ps -> (3 <= length array)%nat ->
  larger ≡ₚ fst <$> ps -> Sorted (below beh) larger ->
  wp beh (main_chain_steps array ps larger)
     (steps_post beh costs array ps ((length array + 1) / 2 - 1)).
Proof.
  intros Harr Hps Hlen3 Hlarger Hsorted. unfold main_chain_steps.
  destruct (new_chain ps larger empty_heap) as [chain0 h0] eqn:Hnc.
  destruct (new_chain_spec _ _ _ _ _ Hnc)
    as (Hitem & Hoid & Hrange & Hsm & _ & _).
  assert (length chain0 = (length array / 2)%nat) as Hlen0.
  { rewrite <- (length_fmap item), Hitem, Hlarger, length_fmap.
    by apply (paired_length beh). }
  assert (1 <= length array / 2)%nat as Hhalf.
  { div_lia. }
  destruct chain0 as [|first rest]; [cbn [length] in Hlen0; lia|].
  assert (exists s, map_get (item first) ps = Some s) as [s Hs].
  { assert (item first ∈ fst <$> ps) as ([k v] & Hk & Hin)%list_elem_of_fmap.
    { rewrite <- Hlarger, <- Hitem, fmap_cons. by left. }
    exists v. apply map_get_Some; [|by rewrite Hk].
    pose proof (paired_Permutation _ _ _ Hps) as Hperm.
    rewrite <- Hperm in Harr. by apply NoDup_app in Harr as (? & _ & _). }
  prog_step. rewrite (Hsm first) by (by left). rewrite Hs. prog_step.
  rewrite slice_from_2 by (simpl; lia). cbn [drop].
  set (p0 := {| oid := next_oid h0; item := s |}).
  set (h1 := delete_smaller first _).
  assert (forall g, g ∈ rest -> smaller_of h1 (oid g) = map_get (item g) ps)
    as Hrest.
  { intros g Hg. unfold h1. simpl.
    rewrite fmap_cons in Hoid. apply NoDup_cons in Hoid as [Hfirst _].
    rewrite decide_False.
    - specialize (Hrange g (list_elem_of_further _ _ _ Hg)).
      rewrite decide_False by lia. apply Hsm. by right.
    - intros Heq. apply Hfirst. rewrite <- Heq.
      apply list_elem_of_fmap. by exists g. }
  assert (NoDup (oid <$> p0 :: first :: rest)) as Hoid1.
  { rewrite fmap_cons. constructor; [|done].
    intros (g & Hg & Hin)%list_elem_of_fmap. apply Hrange in Hin.
    simpl in Hg, Hin. lia. }
  rewrite <- Hitem in Hlarger, Hsorted.
  destruct (Z.eqb_spec (Z.of_nat (length array) mod 2) 0) as [Heven|Hodd].
  - prog_step.
    assert ((length array + 1) / 2 - 1 = length (rest ++ []))%nat as ->.
    { rewrite app_nil_r. cbn [length] in Hlen0.
      div_lia. }
    rewrite <- (app_nil_r rest) at 1.
    eapply (insert_phase_spec array ps first rest p0 [] h1 s); try done.
    + by rewrite app_nil_r.
    + rewrite app_nil_r. intros g Hg. unfold h1. simpl.
      apply elem_of_cons in Hg as [->|Hg]; [simpl; lia|].
      apply Hrange in Hg. lia.
    + by intros g ?%elem_of_nil.
    + unfold leftover. by rewrite (proj2 (Z.eqb_eq _ _) Heven).
  - destruct (at_index_Some array (Z.of_nat (length array) - 1)) as [x Hx];
      [lia|].
    rewrite Hx. prog_step.
    set (pl := {| oid := next_oid h1; item := x |}).
    set (h2 := Build_Heap _ _).
    assert ((length array + 1) / 2 - 1 = length (rest ++ [pl]))%nat as ->.
    { rewrite length_app. cbn [length] in Hlen0 |- *.
      div_lia. }
    eapply (insert_phase_spec array ps first rest p0 [pl] h2 s); try done.
    + change (p0 :: first :: rest ++ [pl])
        with ((p0 :: first :: rest) ++ [pl]).
      rewrite fmap_app. apply NoDup_app. split; [done|].
      split; [|apply NoDup_singleton].
      intros o Ho ->%list_elem_of_singleton.
      apply list_elem_of_fmap in Ho as (g & Hg & Hin). simpl in Hg.
      apply elem_of_cons in Hin as [->|Hin]; [simpl in Hg; lia|].
      apply Hrange in Hin. lia.
    + intros g Hg. unfold h2. simpl.
      change (p0 :: first :: rest ++ [pl])
        with ((p0 :: first :: rest) ++ [pl]) in Hg.
      apply elem_of_app in Hg as [Hg|Hg];
        [|apply list_elem_of_singleton in Hg; subst g; simpl; lia].
      apply elem_of_cons in Hg as [->|Hg]; [simpl; lia|].
      apply Hrange in Hg. lia.
    + intros g Hg. unfold h2. simpl. rewrite decide_False; [by apply Hrest|].
      specialize (Hrange g (list_elem_of_further _ _ _ Hg)). simpl. lia.
    + intros g ->%list_elem_of_singleton. unfold h2. simpl.
      by rewrite decide_True.
    + unfold leftover. rewrite (proj2 (Z.eqb_neq _ _) Hodd). by rewrite Hx.
Qed.

Lemma sort_rec_spec fuel : forall array,
  NoDup array -> (length array <= fuel)%nat ->
  wp beh (mergeInsertionSort_rec fuel array) (sort_post beh bound array).
Proof.
  induction fuel as [|fuel IH]; intros array Hnd Hfuel.
  { destruct array; [|simpl in Hfuel; lia]. simpl.
    split; [constructor|]. split; [apply no_repeat_nil|].
    split; [simpl; lia|]. split; [done|constructor]. }
  destruct array as [|a0 [|a1 rest]].
  { simpl. split; [constructor|]. split; [apply no_repeat_nil|].
    split; [simpl; lia|]. split; [done|constructor]. }
  { simpl. split; [constructor|]. split; [apply no_repeat_nil|].
    split; [simpl; lia|]. split; [done|]. by repeat constructor. }
  cbn [mergeInsertionSort_rec].
  rewrite (proj2 (has_duplicates_false _) Hnd).
  destruct rest as [|a2 rest].
  { apply NoDup_cons in Hnd as [Ha0 _].
    apply not_elem_of_cons in Ha0 as [Hne _].
    assert (no_repeat [(a0, a1)]) as Hnr.
    { apply no_repeat_cons. simpl. split; [done|].
      split; [apply not_elem_of_nil|]. split; [apply not_elem_of_nil|].
      apply no_repeat_nil. }
    assert (Forall (fun c : T * T => c.1 ∈ [a0; a1] /\ c.2 ∈ [a0; a1]) [(a0, a1)])
      as Hin.
    { constructor; [|constructor]. simpl. split; [by left|right; by left]. }
    simpl. split.
    - intros _. split; [done|]. split; [done|]. split; [simpl; lia|done].
    - intros c Hc. split; [done|]. split; [done|]. split; [simpl; lia|].
      destruct c.
      + split; [done|]. apply Sorted_two. split; [done|by left].
      + split; [apply perm_swap|]. apply Sorted_two. split; [done|by right]. }
  set (array := a0 :: a1 :: a2 :: rest) in *.
  assert (3 <= length array)%nat as Hlen3 by (simpl; lia).
  pose proof (bound_rec _ Hlen3) as Hbound.
  apply wp_bind.
  eapply wp_mono; [|apply pairs_loop_spec; [done|by intros x _ ?%elem_of_nil]].
  intros calls1 o1 [Hpre1 Ho1].
  assert (Forall (fun c => c.1 ∈ array /\ c.2 ∈ array) calls1) as Hin1.
  { apply Forall_forall. intros [a b] Hc. apply adjacent_elem_of.
    by eapply prefix_elem_of. }
  assert (no_repeat calls1) as Hnr1.
  { eapply no_repeat_prefix; [done|]. by apply no_repeat_adjacent. }
  assert (length calls1 <= length array / 2)%nat as Hlen1.
  { rewrite <- adjacent_length. by apply prefix_reverse_length. }
  destruct o1 as [pairs|e|]; [|done|]; cycle 1.
  { split; [done|]. split; [done|]. split; [lia|done]. }
  destruct Ho1 as (ps & -> & Hps). simpl.
  pose proof (paired_Permutation _ _ _ Hps) as Hperm.
  assert (NoDup (fst <$> ps)
          /\ (forall x, x ∈ fst <$> ps -> x ∉ snd <$> ps)
          /\ (forall x, x ∈ fst <$> ps -> x ∈ array)) as (Hkeys & Hdisj & Hsub).
  { rewrite <- Hperm in Hnd. rewrite app_assoc in Hnd.
    apply NoDup_app in Hnd as (Hkv & _ & _).
    apply NoDup_app in Hkv as (? & ? & _). split; [done|]. split; [done|].
    intros x Hx. rewrite <- Hperm. apply elem_of_app. by left. }
  assert (length ps = (length array / 2)%nat) as Hlenps
    by (by apply (paired_length beh)).
  apply wp_bind. unfold map_keys.
  eapply wp_mono; [|apply IH; [done|]]; cycle 1.
  { rewrite length_fmap, Hlenps. div_lia. }
  intros calls2 o2 (Hin2 & Hnr2 & Hlen2 & Ho2).
  rewrite length_fmap, Hlenps in Hlen2.
  assert (Forall (fun c => c.1 ∈ array /\ c.2 ∈ array) (calls2 ++ calls1))
    as Hin12.
  { apply Forall_app. split; [|done]. eapply Forall_impl; [exact Hin2|].
    simpl. intros c [? ?]. split; by apply Hsub. }
  assert (no_repeat (calls2 ++ calls1)) as Hnr12.
  { apply no_repeat_app. split; [done|]. split; [done|].
    rewrite Forall_forall in Hin2.
    assert (forall a b, a ∈ fst <$> ps -> b ∈ fst <$> ps -> (a, b) ∉ calls1)
      as Hnot.
    { intros a b Ha Hb Hc.
      destruct (paired_adjacent _ _ _ a b Hps (prefix_elem_of _ _ _ Hpre1 Hc))
        as [Hin|Hin].
      - apply (Hdisj b Hb). apply list_elem_of_fmap. by exists (a, b).
      - apply (Hdisj a Ha). apply list_elem_of_fmap. by exists (b, a). }
    intros [a b] Hc. destruct (Hin2 _ Hc) as [Ha Hb]. simpl in Ha, Hb.
    split; by apply Hnot. }
  destruct o2 as [larger|e|]; [|done|]; cycle 1.
  { split; [done|]. split; [done|]. split; [rewrite length_app; lia|done]. }
  destruct Ho2 as [Hlarger Hsorted].
  eapply wp_mono; [|by apply main_chain_steps_spec].
  intros calls3 o3 (Hin3 & Hnr3 & Hlen3' & Ho3).
  rewrite Forall_forall in Hin3. rewrite <- app_assoc.
  split; [|split; [|split; [|done]]].
  - apply Forall_app. split; [|done]. apply Forall_forall.
    intros c Hc. by destruct (Hin3 c Hc) as (? & ? & _).
  - apply no_repeat_app. split; [done|]. split; [done|].
    rewrite Forall_forall in Hin2.
    intros [a b] Hc. destruct (Hin3 _ Hc) as (_ & _ & Hkey & Hpair).
    simpl in Hkey, Hpair.
    assert ((a, b) ∉ ps) as Hpair'.
    { intros Hin. apply Hkey. apply list_elem_of_fmap. by exists (a, b). }
    split.
    + intros [Hc2|Hc1]%elem_of_app.
      * by destruct (Hin2 _ Hc2) as [? _].
      * by destruct (paired_adjacent _ _ _ a b Hps
                       (prefix_elem_of _ _ _ Hpre1 Hc1)).
    + unfold swap_call. simpl. intros [Hc2|Hc1]%elem_of_app.
      * by destruct (Hin2 _ Hc2) as [_ ?].
      * by destruct (paired_adjacent _ _ _ b a Hps
                       (prefix_elem_of _ _ _ Hpre1 Hc1)).
  - rewrite !length_app. lia.
Qed.

End SortSpec.

(** ** The arithmetic of the bound *)
Section Arithmetic.

Lemma pow2_S (c : nat) : 2 ^ Z.of_nat (S c) = 2 * 2 ^ Z.of_nat c.
Proof. rewrite Nat2Z.inj_succ, Z.pow_succ_r; lia. Qed.

Lemma pow2_pos (c : nat) : 0 < 2 ^ Z.of_nat c.
Proof. apply Z.pow_pos_nonneg; lia. Qed.

Lemma pow2_le (c d : nat) : (c <= d)%nat -> 2 ^ Z.of_nat c <= 2 ^ Z.of_nat d.
Proof. intros Hcd. apply Z.pow_le_mono_r; lia. Qed.

Lemma pow2_lt_inv (c d : nat) : 2 ^ Z.of_nat c < 2 ^ Z.of_nat d -> (c < d)%nat.
Proof.
  intros Hlt. destruct (decide (c < d)%nat) as [|Hge]; [done|].
  pose proof (pow2_le d c ltac:(lia)). lia.
Qed.

(** [step_cost x] is the [c] with [2^(c+1) < 3x <= 2^(c+2)]. *)
Lemma step_cost_unique (x c : nat) :
  2 ^ Z.of_nat (S c) < 3 * Z.of_nat x <= 2 ^ Z.of_nat (S (S c)) ->
  step_cost x = c.
Proof.
  intros [Hlo Hhi]. unfold step_cost, ceil_log2.
  rewrite !pow2_S in Hlo. rewrite !pow2_S in Hhi.
  pose proof (pow2_pos c) as Hpos.
  destruct (Z.leb_spec (3 * Z.of_nat x) 4) as [Hsmall|Hbig].
  - assert (2 ^ Z.of_nat c < 2 ^ Z.of_nat 1) as Hc%pow2_lt_inv
      by (change (2 ^ Z.of_nat 1) with 2; lia).
    assert (c = 0%nat) as -> by lia.
    assert (x = 1%nat) as -> by (simpl in Hlo; lia). reflexivity.
  - destruct c as [|c]; [simpl in Hhi; lia|].
    rewrite !pow2_S in Hlo. rewrite !pow2_S in Hhi.
    pose proof (pow2_pos c) as Hpos'.
    rewrite (Z.log2_up_unique _ (Z.of_nat (S c))); [lia|lia|].
    replace (Z.pred (Z.of_nat (S c))) with (Z.of_nat c) by lia.
    rewrite pow2_S. generalize dependent (2 ^ Z.of_nat c). intros P **.
    split; Z.div_mod_to_equations; lia.
Qed.

Lemma pow2_mod3 (m : nat) :
  2 ^ Z.of_nat m mod 3 = if Nat.even m then 1 else 2.
Proof.
  induction m as [|m IH]; [reflexivity|].
  rewrite pow2_S, <- Z.mul_mod_idemp_r, IH by lia.
  rewrite Nat.even_succ, <- Nat.negb_even. by destruct (Nat.even m).
Qed.

Lemma pow2_not_mult3 (m : nat) (x : Z) : 3 * x <> 2 ^ Z.of_nat m.
Proof.
  intros Heq. pose proof (pow2_mod3 m) as Hmod. rewrite <- Heq in Hmod.
  rewrite Z.mul_comm, Z.mod_mul in Hmod by lia. by destruct (Nat.even m).
Qed.

Lemma step_cost_bounds (x : nat) :
  (1 <= x)%nat ->
  2 ^ Z.of_nat (S (step_cost x)) < 3 * Z.of_nat x
    < 2 ^ Z.of_nat (S (S (step_cost x))).
Proof.
  intros Hx.
  destruct (Z.log2_up_spec (3 * Z.of_nat x)) as [Hlo Hhi]; [lia|].
  pose proof (Z.log2_up_nonneg (3 * Z.of_nat x)) as Hnn.
  set (L := Z.log2_up (3 * Z.of_nat x)) in *.
  assert (2 <= L) as HL.
  { destruct (decide (2 <= L)); [done|].
    assert (2 ^ L <= 2 ^ 1) by (apply Z.pow_le_mono_r; lia).
    change (2 ^ 1) with 2 in *. lia. }
  assert (Z.of_nat (S (Z.to_nat (L - 2))) = Z.pred L) as H1 by lia.
  assert (Z.of_nat (S (S (Z.to_nat (L - 2)))) = L) as H2 by lia.
  assert (step_cost x = Z.to_nat (L - 2)) as ->.
  { apply step_cost_unique. by rewrite H1, H2. }
  rewrite H1. split; [done|].
  pose proof (pow2_not_mult3 (S (S (Z.to_nat (L - 2)))) (Z.of_nat x)).
  rewrite H2 in *. lia.
Qed.

Lemma step_cost_double (x : nat) :
  (1 <= x)%nat -> step_cost (2 * x) = S (step_cost x).
Proof.
  intros Hx. apply step_cost_unique.
  pose proof (step_cost_bounds x Hx) as [Hlo Hhi].
  rewrite !pow2_S in *. lia.
Qed.

Lemma step_cost_lower (x k : nat) :
  (1 <= x)%nat -> 2 ^ Z.of_nat (S (S k)) < 3 * Z.of_nat x ->
  (k < step_cost x)%nat.
Proof.
  intros Hx Hk. pose proof (step_cost_bounds x Hx) as [_ Hhi].
  assert (2 ^ Z.of_nat (S (S k)) < 2 ^ Z.of_nat (S (S (step_cost x))))
    as Hlt%pow2_lt_inv by lia. lia.
Qed.

Lemma step_cost_mono (x y : nat) :
  (1 <= x <= y)%nat -> (step_cost x <= step_cost y)%nat.
Proof.
  intros [Hx Hxy]. pose proof (step_cost_bounds x Hx) as [Hlo _].
  destruct (step_cost x) as [|c] eqn:Hc; [lia|].
  apply (step_cost_lower y c); lia.
Qed.

Lemma comparisons_sum_S (n : nat) :
  comparisons_sum (S n) = (comparisons_sum n + step_cost (S n))%nat.
Proof.
  unfold comparisons_sum. rewrite seq_S, fmap_app, sum_list_with_app. simpl. lia.
Qed.

Lemma insert_costs_S (q : nat) :
  insert_costs (S q) = insert_costs q ++ [step_cost (2 * q + 3)].
Proof. unfold insert_costs. by rewrite seq_S, fmap_app. Qed.

Lemma insert_costs_length (q : nat) : length (insert_costs q) = q.
Proof. unfold insert_costs. by rewrite length_fmap, length_seq. Qed.

(** The recurrence of the number of comparisons: the pairs, the sort of
    the larger items, and the insertions. *)
Lemma comparisons_sum_rec (n : nat) :
  (1 <= n)%nat ->
  (n / 2 + comparisons_sum (n / 2) + sum_list (insert_costs ((n + 1) / 2 - 1))
   = comparisons_sum n)%nat.
Proof.
  induction n as [|n IH]; [lia|]. intros _.
  destruct n as [|n]; [reflexivity|].
  specialize (IH ltac:(lia)). rewrite (comparisons_sum_S (S n)), <- IH.
  destruct (Nat.Even_or_Odd n) as [[m ->]|[m ->]].
  - replace (S (S (2 * m)) / 2)%nat with (S m) by div_lia.
    replace (S (2 * m) / 2)%nat with m by div_lia.
    replace ((S (S (2 * m)) + 1) / 2 - 1)%nat with m by div_lia.
    replace ((S (2 * m) + 1) / 2 - 1)%nat with m by div_lia.
    rewrite comparisons_sum_S.
    replace (S (S (2 * m))) with (2 * S m)%nat by lia.
    rewrite step_cost_double by lia. lia.
  - replace (S (S (2 * m + 1)) / 2)%nat with (S m) by div_lia.
    replace (S (2 * m + 1) / 2)%nat with (S m) by div_lia.
    replace ((S (S (2 * m + 1)) + 1) / 2 - 1)%nat with (S m) by div_lia.
    replace ((S (2 * m + 1) + 1) / 2 - 1)%nat with m by div_lia.
    rewrite insert_costs_S, sum_list_with_app. simpl.
    replace (S (S (m + (m + 0) + 1))) with (m + (m + 0) + 3)%nat by lia. lia.
Qed.

Lemma group_size_pair (k : nat) :
  group_size (S k) + group_size (S (S k)) = 2 ^ Z.of_nat (S (S k)).
Proof. rewrite (group_size_S (S k)). lia. Qed.

Lemma group_start_sum (k : nat) :
  group_start k + group_start (S k) = 2 ^ Z.of_nat (S (S k)) - 2.
Proof.
  induction k as [|k IH]; [reflexivity|].
  cbn [group_start] in *. pose proof (group_size_pair k) as Hp.
  rewrite (pow2_S (S (S k))). lia.
Qed.

Lemma group_start_bounds (k : nat) :
  2 ^ Z.of_nat (S (S k)) - 4 <= 3 * group_start k <= 2 ^ Z.of_nat (S (S k)) - 2.
Proof.
  induction k as [|k IH]; [simpl; lia|].
  pose proof (group_start_sum k) as Hs. rewrite (pow2_S (S (S k))). lia.
Qed.

End Arithmetic.

(** ** The places of the groups *)
Section GroupPlaces.

(** In the order of insertion, the item at place [a + i] with original
    index [j] is searched for among [j + 2] items at first, and by its
    turn among no more than [j + 2 + (a + i)], which is less than two to
    the power of its cost. *)
Lemma chunks_positions (n : nat) : forall (k a len i : nat) (j : Z),
  Z.of_nat a = group_start k ->
  concat (@reverse Z <$> chunks (group_size <$> seq (S k) n)
                           (Z.of_nat <$> seq a len)) !! i = Some j ->
  j + 2 + Z.of_nat (a + i) < 2 ^ Z.of_nat (step_cost (2 * (a + i) + 3)).
Proof.
  induction n as [|n IH]; intros k a len i j Ha Hj; [done|].
  cbn [seq] in Hj. rewrite fmap_cons in Hj. cbn [chunks] in Hj.
  rewrite fmap_cons in Hj. cbn [concat] in Hj.
  pose proof (group_size_pos k) as Hpos.
  set (s := Z.to_nat (group_size (S k))) in *.
  apply lookup_app_Some in Hj as [Hj|[Hlen Hj]].
  - apply reverse_lookup_Some in Hj as [Hj Hi].
    apply lookup_take_Some in Hj as [Hj _].
    rewrite list_lookup_fmap in Hj.
    destruct (seq a len !! _) as [m|] eqn:Hm; [|done].
    injection Hj as <-. apply lookup_seq in Hm as [-> Hm].
    rewrite length_take, length_fmap, length_seq in Hi, Hm |- *.
    pose proof (group_start_sum k) as Hsum. cbn [group_start] in Hsum.
    pose proof (group_start_bounds k) as [Hlo _].
    assert (S k < step_cost (2 * (a + i) + 3))%nat as Hcost.
    { apply step_cost_lower; [lia|]. rewrite pow2_S. lia. }
    pose proof (pow2_le (S (S k)) (step_cost (2 * (a + i) + 3)) ltac:(lia)).
    lia.
  - rewrite length_reverse, length_take, length_fmap, length_seq in Hlen, Hj.
    rewrite <- fmap_drop, drop_seq in Hj.
    destruct (decide (s <= len)%nat) as [Hs|Hs].
    + rewrite Nat.min_l in Hlen, Hj by done.
      apply (IH (S k)) in Hj; [|cbn [group_start]; lia].
      by replace (a + s + (i - s))%nat with (a + i)%nat in Hj by lia.
    + replace (len - s)%nat with 0%nat in Hj by lia. simpl in Hj.
      by rewrite chunks_nil in Hj.
Qed.

Lemma grouped_positions (q i : nat) (j : Z) (k : nat) :
  grouped (Z.of_nat <$> seq 0 q) !! i = Some j ->
  insert_costs q !! i = Some k ->
  j + 2 + Z.of_nat i < 2 ^ Z.of_nat k.
Proof.
  unfold grouped, insert_costs. intros Hj Hk.
  rewrite list_lookup_fmap in Hk.
  destruct (seq 0 q !! i) as [m|] eqn:Hm; [|done]. injection Hk as <-.
  apply lookup_seq in Hm as [-> _].
  by apply (chunks_positions _ 0 0) in Hj.
Qed.

End GroupPlaces.

(** ** The closed formula of [mergeInsertionMaxComparisons] *)
Section ClosedFormula.

Lemma step_cost_Z (n : nat) :
  (1 <= n)%nat -> ceil_log2 (3 * Z.of_nat n) 4 = Z.of_nat (step_cost n).
Proof.
  intros Hn. unfold step_cost. rewrite Z2Nat.id; [done|]. unfold ceil_log2.
  destruct (Z.leb_spec (3 * Z.of_nat n) 4).
  - assert (n = 1%nat) as -> by lia. done.
  - apply Z.log2_up_nonneg.
Qed.

Lemma floor_log2_6n (n : nat) :
  (1 <= n)%nat -> floor_log2 (6 * Z.of_nat n) = Z.of_nat (S (S (step_cost n))).
Proof.
  intros Hn. unfold floor_log2. apply Z.log2_unique; [lia|].
  pose proof (step_cost_bounds n Hn) as [Hlo Hhi].
  replace (Z.succ (Z.of_nat (S (S (step_cost n)))))
    with (Z.of_nat (S (S (S (step_cost n))))) by lia.
  rewrite !pow2_S in *. lia.
Qed.

Lemma pow2_mod3_even (t : nat) : 2 ^ Z.of_nat (2 * t) mod 3 = 1.
Proof. rewrite pow2_mod3, Nat.even_mul. done. Qed.

Lemma pow2_mod3_odd (t : nat) : 2 ^ Z.of_nat (2 * t + 1) mod 3 = 2.
Proof. rewrite pow2_mod3, Nat.even_add, Nat.even_mul. done. Qed.

Lemma step_cost_S (n : nat) :
  (1 <= n)%nat ->
  step_cost (S n) = step_cost n
  \/ (step_cost (S n) = S (step_cost n)
      /\ 3 * Z.of_nat n < 2 ^ Z.of_nat (S (S (step_cost n)))
         < 3 * Z.of_nat n + 3).
Proof.
  intros Hn.
  pose proof (step_cost_mono n (S n) ltac:(lia)) as Hmono.
  pose proof (step_cost_bounds n Hn) as [Hlo Hhi].
  pose proof (step_cost_bounds (S n) ltac:(lia)) as [Hlo' Hhi'].
  destruct (decide (step_cost (S n) = step_cost n)) as [|Hne]; [by left|].
  right.
  assert (step_cost (S n) <= S (step_cost n))%nat as Hle.
  { destruct (decide (step_cost (S n) <= S (step_cost n))%nat); [done|].
    pose proof (pow2_le (S (S (S (step_cost n)))) (S (step_cost (S n)))
                  ltac:(lia)) as Hp.
    pose proof (pow2_pos (step_cost n)).
    rewrite !pow2_S in *. lia. }
  assert (step_cost (S n) = S (step_cost n)) as Heq by lia.
  split; [done|]. rewrite Heq in Hlo'. lia.
Qed.

Lemma closed_formula_S (n : nat) :
  (1 <= n)%nat ->
  closed_formula (S n) = closed_formula n + Z.of_nat (step_cost (S n)).
Proof.
  intros Hn. unfold closed_formula.
  destruct (step_cost_S n Hn) as [->|(-> & Hlo & Hhi)]; [lia|].
  set (c := step_cost n) in *.
  rewrite (pow2_S (S (S c))).
  destruct (Nat.Even_or_Odd c) as [[t Ht]|[t Ht]].
  - pose proof (pow2_mod3_even (S t)) as Hmod.
    replace (2 * S t)%nat with (S (S c)) in Hmod by lia.
    generalize dependent (2 ^ Z.of_nat (S (S c))). intros P **.
    Z.div_mod_to_equations. lia.
  - pose proof (pow2_mod3_odd (S t)) as Hmod.
    replace (2 * S t + 1)%nat with (S (S c)) in Hmod by lia.
    generalize dependent (2 ^ Z.of_nat (S (S c))). intros P **.
    Z.div_mod_to_equations. lia.
Qed.

Lemma closed_formula_sum (n : nat) :
  (1 <= n)%nat -> closed_formula n = Z.of_nat (comparisons_sum n).
Proof.
  induction n as [|n IH]; [lia|]. intros _.
  destruct n as [|n]; [reflexivity|].
  rewrite closed_formula_S, comparisons_sum_S, IH by lia. lia.
Qed.

Lemma maxComparisons_sum (n : nat) :
  mergeInsertionMaxComparisons (Z.of_nat n) = inr (Z.of_nat (comparisons_sum n)).
Proof.
  unfold mergeInsertionMaxComparisons.
  destruct (Z.ltb_spec (Z.of_nat n) 0); [lia|].
  destruct (Z.eqb_spec (Z.of_nat n) 0) as [Hz|Hnz].
  - assert (n = 0%nat) as -> by lia. reflexivity.
  - rewrite step_cost_Z, floor_log2_6n by lia.
    rewrite <- closed_formula_sum by lia. reflexivity.
Qed.

End ClosedFormula.

(** ** The properties of [mergeInsertionSort] *)
Section SortRuns.
Context {T : Type} `{EqDecision T}.
Implicit Types (beh : T -> T -> option bool -> Prop) (array : list T)
  (comp : @Comparator T).

Lemma sort_wp beh array :
  NoDup array ->
  wp beh (mergeInsertionSort array) (sort_post beh comparisons_sum array).
Proof.
  intros Hnd. unfold mergeInsertionSort.
  apply (sort_rec_spec beh comparisons_sum insert_costs); [done| | | |done|done].
  - intros n Hn. by rewrite comparisons_sum_rec by lia.
  - apply insert_costs_length.
  - apply grouped_positions.
Qed.

(** Every run on an array without duplicates. *)
Lemma sort_run beh comp array calls :
  responds comp beh -> NoDup array ->
  exists l,
    (run comp (mergeInsertionSort array) calls).1 = l ++ calls
    /\ sort_post beh comparisons_sum array l
         (run comp (mergeInsertionSort array) calls).2
    /\ rejected_by beh l (run comp (mergeInsertionSort array) calls).2.
Proof.
  intros Hcomp Hnd.
  destruct (wp_run beh comp (mergeInsertionSort array) _ calls Hcomp
              (wp_rejected _ _ _ (sort_wp beh array Hnd))) as (l & Hl & Hpost & Hrej).
  by exists l.
Qed.

Lemma no_repeat_no_pair_twice (l : list (T * T)) :
  no_repeat l -> no_pair_twice l.
Proof.
  induction l as [|c l IH]; [done|].
  intros (_ & Hc & Hsw & Hl)%no_repeat_cons. simpl. auto.
Qed.

Lemma distinct_pairs_le (l : list (T * T)) : (distinct_pairs l <= length l)%nat.
Proof.
  induction l as [|c l IH]; [done|]. simpl.
  destruct (bool_decide _); lia.
Qed.

Lemma below_order (R : relation T) `{!StrictOrder R} `{!Trichotomy R} (a b : T) :
  below (order_response R) a b -> R a b.
Proof.
  intros [Hne [Hb|Hb]].
  - by apply order_response_true.
  - by apply order_response_false.
Qed.

End SortRuns.

(** For an array of pairwise different items and a comparator derived
    from a strict total order [R], [mergeInsertionSort] of the current
    revision returns an array that holds exactly the items of the input,
    in ascending order. *)
Theorem sort_sorts {T : Type} `{EqDecision T}
    (R : relation T) `{!StrictOrder R} `{!Trichotomy R}
    (comp : Comparator) (array : list T) (calls : list (T * T)) :
  derived_from R comp -> NoDup array ->
  exists result,
    (run comp (mergeInsertionSort array) calls).2 = Returned result
    /\ result ≡ₚ array
    /\ StronglySorted R result.
Proof.
  intros Hcomp Hnd.
  destruct (sort_run (order_response R) comp array calls Hcomp Hnd)
    as (l & _ & (_ & Hnr & _ & Ho) & Hrej).
  destruct (run comp (mergeInsertionSort array) calls).2 as [result|e|];
    [|done|].
  - exists result. destruct Ho as [Hperm Hsorted]. split; [done|].
    split; [done|]. apply Sorted_StronglySorted; [apply _|].
    eapply Sorted_mono; [|done]. intros a b. by apply below_order.
  - destruct (Hrej eq_refl) as (a & b & l' & -> & Hb).
    assert (a <> b) as Hne.
    { apply (no_repeat_distinct _ (a, b) Hnr). by left. }
    by destruct (Hb Hne) as (c & [=] & _).
Qed.

(** C2: in every run of [mergeInsertionSort] on [n] pairwise different
    items, whatever the comparator answers, the number of calls of the
    comparator, and so the number of different unordered pairs given to
    it, is at most [mergeInsertionMaxComparisons(n)]. *)
Theorem sort_comparisons_bound {T : Type} `{EqDecision T}
    (comp : Comparator) (array : list T) (calls : list (T * T)) :
  NoDup array ->
  exists l m,
    (run comp (mergeInsertionSort array) calls).1 = l ++ calls
    /\ mergeInsertionMaxComparisons (Z.of_nat (length array)) = inr m
    /\ Z.of_nat (length l) <= m
    /\ Z.of_nat (distinct_pairs l) <= m.
Proof.
  intros Hnd.
  destruct (sort_run any_response comp array calls (responds_any comp) Hnd)
    as (l & Hl & (_ & _ & Hlen & _) & _).
  exists l, (Z.of_nat (comparisons_sum (length array))).
  split; [done|]. split; [apply maxComparisons_sum|].
  pose proof (distinct_pairs_le l). lia.
Qed.

(** C9: in every run of [mergeInsertionSort] on pairwise different items,
    each call of the comparator receives two different items of the
    input. *)
Theorem sort_compares_distinct {T : Type} `{EqDecision T}
    (comp : Comparator) (array : list T) (calls : list (T * T)) :
  NoDup array ->
  exists l,
    (run comp (mergeInsertionSort array) calls).1 = l ++ calls
    /\ forall a b, (a, b) ∈ l -> a <> b /\ a ∈ array /\ b ∈ array.
Proof.
  intros Hnd.
  destruct (sort_run any_response comp array calls (responds_any comp) Hnd)
    as (l & Hl & (Hin & Hnr & _ & _) & _).
  exists l. split; [done|]. intros a b Hab.
  split; [by apply (no_repeat_distinct l (a, b))|].
  rewrite Forall_forall in Hin. by apply (Hin (a, b)).
Qed.

(** C10: for pairwise different items and any comparator, even one that
    agrees with no order, a result that [mergeInsertionSort] returns
    holds exactly the items of the input, each once; and it does return
    when the comparator answers every call. *)
Theorem sort_result_permutation {T : Type} `{EqDecision T}
    (comp : Comparator) (array : list T) (calls : list (T * T)) :
  NoDup array ->
  (forall result,
     (run comp (mergeInsertionSort array) calls).2 = Returned result ->
     result ≡ₚ array /\ NoDup result)
  /\ ((forall calls' a b, is_Some (comp calls' a b)) ->
      exists result,
        (run comp (mergeInsertionSort array) calls).2 = Returned result).
Proof.
  intros Hnd.
  set (beh := fun a b r => exists calls', comp calls' a b = r).
  assert (responds comp beh) as Hcomp by (intros calls' a b; by exists calls').
  destruct (sort_run beh comp array calls Hcomp Hnd)
    as (l & _ & (_ & _ & _ & Ho) & Hrej).
  split.
  - intros result Hres. rewrite Hres in Ho. destruct Ho as [Hperm _].
    split; [done|]. by rewrite Hperm.
  - intros Hanswers.
    destruct (run comp (mergeInsertionSort array) calls).2 as [result|e|];
      [by exists result|done|].
    destruct (Hrej eq_refl) as (a & b & l' & _ & calls' & Hnone).
    destruct (Hanswers calls' a b) as [c Hc]. congruence.
Qed.

(** ** The theorems at work on the arrays of the tests *)

Global Instance Z_lt_trichotomy : Trichotomy Z.lt.
Proof. intros x y. apply Z.lt_trichotomy. Qed.

Lemma compare_Z_derived : derived_from Z.lt compare_Z.
Proof.
  intros calls a b Hne. exists (a <? b). split; [done|]. apply Z.ltb_lt.
Defined.

Lemma compare_Z_answers calls (a b : Z) : is_Some (compare_Z calls a b).
Proof. by exists (a <? b). Defined.

Lemma test_array_NoDup : NoDup [4; 5; 1; 3; 6; 2; 7].
Proof. apply (bool_decide_unpack _). vm_compute. exact I. Defined.

Lemma sort_sorts_witness :
  exists result,
    (run compare_Z (mergeInsertionSort [4; 5; 1; 3; 6; 2; 7]) []).2
    = Returned result
    /\ result ≡ₚ [4; 5; 1; 3; 6; 2; 7]
    /\ StronglySorted Z.lt result.
Proof.
  apply (sort_sorts Z.lt compare_Z [4; 5; 1; 3; 6; 2; 7] []).
  - exact compare_Z_derived.
  - exact test_array_NoDup.
Defined.

Lemma sort_comparisons_bound_witness :
  exists l m,
    (run compare_Z (mergeInsertionSort [4; 5; 1; 3; 6; 2; 7]) []).1 = l ++ []
    /\ mergeInsertionMaxComparisons (Z.of_nat (length [4; 5; 1; 3; 6; 2; 7]))
       = inr m
    /\ Z.of_nat (length l) <= m
    /\ Z.of_nat (distinct_pairs l) <= m.
Proof.
  apply (sort_comparisons_bound compare_Z [4; 5; 1; 3; 6; 2; 7] []).
  exact test_array_NoDup.
Defined.

Lemma sort_compares_distinct_witness :
  exists l,
    (run compare_Z (mergeInsertionSort [4; 5; 1; 3; 6; 2; 7]) []).1 = l ++ []
    /\ forall a b, (a, b) ∈ l ->
         a <> b /\ a ∈ [4; 5; 1; 3; 6; 2; 7] /\ b ∈ [4; 5; 1; 3; 6; 2; 7].
Proof.
  apply (sort_compares_distinct compare_Z [4; 5; 1; 3; 6; 2; 7] []).
  exact test_array_NoDup.
Defined.

Lemma sort_result_permutation_witness :
  (forall result,
     (run compare_Z (mergeInsertionSort [4; 5; 1; 3; 6; 2; 7]) []).2
     = Returned result ->
     result ≡ₚ [4; 5; 1; 3; 6; 2; 7] /\ NoDup result)
  /\ ((forall calls' a b, is_Some (compare_Z calls' a b)) ->
      exists result,
        (run compare_Z (mergeInsertionSort [4; 5; 1; 3; 6; 2; 7]) []).2
        = Returned result).
Proof.
  apply (sort_result_permutation compare_Z [4; 5; 1; 3; 6; 2; 7] []).
  exact test_array_NoDup.
Defined.

Lemma binInsertIdx_keeps_sorted_witness :
  exists idx,
    (run compare_Z (_binInsertIdx [2; 4; 6; 8; 10] 5) []).2 = Returned idx
    /\ 0 <= idx <= Z.of_nat (length [2; 4; 6; 8; 10])
    /\ StronglySorted Z.lt (splice_insert idx 5 [2; 4; 6; 8; 10]).
Proof.
  apply (binInsertIdx_keeps_sorted Z.lt compare_Z [2; 4; 6; 8; 10] 5 []).
  - exact compare_Z_derived.
  - repeat constructor; lia.
  - apply (bool_decide_unpack _). vm_compute. exact I.
Defined.

(** ** The comparison cache of the earlier revision *)
Section Cache.
Context {T : Type} `{EqDecision T}.
Implicit Types (cache : Rev1.Cache (T := T)) (calls l : list (T * T)).

Lemma map_get_set_eq {V} (k : T) (v : V) (m : list (T * V)) :
  map_get k (map_set k v m) = Some v.
Proof.
  unfold map_get. induction m as [|[k' v'] m IH]; simpl.
  - by rewrite bool_decide_eq_true_2.
  - destruct (decide (k' = k)) as [->|Hne]; simpl.
    + by rewrite bool_decide_eq_true_2.
    + by rewrite bool_decide_eq_false_2.
Qed.

Lemma map_get_set_ne {V} (k k' : T) (v : V) (m : list (T * V)) :
  k <> k' -> map_get k' (map_set k v m) = map_get k' m.
Proof.
  intros Hne. unfold map_get. induction m as [|[k1 v1] m IH]; simpl.
  - by rewrite bool_decide_eq_false_2.
  - destruct (decide (k1 = k)) as [->|Hne1]; simpl.
    + by rewrite !bool_decide_eq_false_2.
    + destruct (bool_decide (k1 = k')); [done|apply IH].
Qed.

Lemma cache_lookup_store cache (a b x y : T) (rv : bool) :
  Rev1.cache_lookup (Rev1.cache_store a b rv cache) x y
  = if decide (x = a /\ y = b) then Some rv else Rev1.cache_lookup cache x y.
Proof.
  unfold Rev1.cache_lookup, Rev1.cache_store.
  destruct (decide (x = a)) as [->|Hx].
  - destruct (map_get a cache) as [m|] eqn:Hm; rewrite map_get_set_eq; simpl.
    + destruct (decide (y = b)) as [->|Hy].
      * rewrite decide_True by done. apply map_get_set_eq.
      * rewrite decide_False by (by intros [_ ?]). by apply map_get_set_ne.
    + destruct (decide (y = b)) as [->|Hy].
      * rewrite decide_True by done. unfold map_get. simpl.
        by rewrite bool_decide_eq_true_2.
      * rewrite decide_False by (by intros [_ ?]). unfold map_get. simpl.
        by rewrite bool_decide_eq_false_2.
  - rewrite decide_False by (by intros [? _]).
    destruct (map_get a cache) as [m|]; by rewrite map_get_set_ne.
Qed.

Lemma no_pair_twice_snoc (c0 : T * T) l :
  no_pair_twice l -> Forall (fun c => c <> c0 /\ swap_call c <> c0) l ->
  no_pair_twice (l ++ [c0]).
Proof.
  induction l as [|c l IH]; intros Hl Hne; simpl.
  - split; [apply not_elem_of_nil|]. split; [apply not_elem_of_nil|done].
  - destruct Hl as (Hc & Hsw & Hl).
    apply Forall_cons in Hne as [[Hc0 Hsw0] Hne].
    split; [|split; [|by apply IH]].
    + intros [?|?%list_elem_of_singleton]%elem_of_app; done.
    + intros [?|?%list_elem_of_singleton]%elem_of_app; done.
Qed.

(** The calls that get through the cache are for pairs that it does not
    hold, each pair once. *)
Lemma cachedComparator_spec {A} beh (p : Prog A) : forall cache,
  wp beh (Rev1._cachedComparator cache p) (fun l _ =>
    no_pair_twice l
    /\ Forall (fun c => Rev1.cache_lookup cache c.1 c.2 = None
                        /\ Rev1.cache_lookup cache c.2 c.1 = None) l).
Proof.
  induction p as [a|e|a b k IH]; intros cache; simpl; [done|done|].
  destruct (Rev1.cache_lookup cache a b) as [rv|] eqn:Hab; [apply IH|].
  destruct (Rev1.cache_lookup cache b a) as [rv|] eqn:Hba; [apply IH|].
  simpl. split.
  - intros _. split.
    + split; [apply not_elem_of_nil|]. split; [apply not_elem_of_nil|done].
    + by repeat constructor.
  - intros rv _. eapply wp_mono; [|apply IH]. simpl.
    intros l _ [Hl Hfresh].
    assert (Forall (fun c => (c <> (a, b) /\ swap_call c <> (a, b))
              /\ Rev1.cache_lookup cache c.1 c.2 = None
              /\ Rev1.cache_lookup cache c.2 c.1 = None) l) as Hall.
    { eapply Forall_impl; [exact Hfresh|]. simpl. intros [x y] [Hxy Hyx].
      simpl in Hxy, Hyx. rewrite cache_lookup_store in Hxy, Hyx.
      destruct (decide (x = a /\ y = b)) as [|Hne1]; [done|].
      destruct (decide (y = a /\ x = b)) as [|Hne2]; [done|].
      split; [|done]. unfold swap_call. simpl.
      split; intros [= -> ->]; [by apply Hne1|by apply Hne2]. }
    apply Forall_and in Hall as [Hne Hold].
    split; [by apply no_pair_twice_snoc|].
    apply Forall_app. split; [done|]. by repeat constructor.
Qed.

End Cache.

(** C3: in one call of [mergeInsertionSort] the comparator of the caller
    is not called twice for one unordered pair of items, for every input
    and every comparator.  In the earlier revision this is the work of the
    cache that the top level wraps the comparator in; the current revision
    does not compare a pair twice in the first place. *)
Theorem comparator_not_called_twice {T : Type} `{EqDecision T}
    (comp : Comparator) (array : list T) (calls : list (T * T)) :
  (exists l,
     (run comp (Rev1.mergeInsertionSort array) calls).1 = l ++ calls
     /\ no_pair_twice l)
  /\ (exists l,
        (run comp (mergeInsertionSort array) calls).1 = l ++ calls
        /\ no_pair_twice l).
Proof.
  split.
  - destruct (wp_run any_response comp (Rev1.mergeInsertionSort array) _ calls
                (responds_any comp)
                (cachedComparator_spec any_response
                   (Rev1._mergeInsertionSort array) []))
      as (l & Hl & Hnp & _).
    by exists l.
  - destruct (decide (NoDup array)) as [Hnd|Hdup].
    + destruct (sort_run any_response comp array calls (responds_any comp) Hnd)
        as (l & Hl & (_ & Hnr & _) & _).
      exists l. split; [done|]. by apply no_repeat_no_pair_twice.
    + exists []. unfold mergeInsertionSort.
      by rewrite (sort_rec_duplicates _ _ Hdup).
Qed.

(** C1, for the earlier revision of [mergeInsertionSort] and its
    [_mergeInsertionSort]: seven different items and the comparator of the
    tests, which follows [<] on the integers, give a result with 7 before
    6.  The main chain has six items when the item left without a partner
    is inserted, and that item is searched with the right index 4 only,
    so it is compared with 3, 4 and 5 and put before 6.  The result holds
    the items of the input but is not in ascending order, which the
    documentation of the function promises; the current revision returns
    the ascending array for the same inputs. *)
Theorem rev1_seven_items :
  derived_from Z.lt compare_Z
  /\ NoDup [1; 2; 3; 4; 5; 6; 7]
  /\ (run compare_Z (Rev1.mergeInsertionSort [1; 2; 3; 4; 5; 6; 7]) []).2
     = Returned [1; 2; 3; 4; 5; 7; 6]
  /\ (run compare_Z (Rev1.mergeInsertionSort [4; 5; 1; 3; 6; 2; 7]) []).2
     = Returned [1; 2; 3; 4; 5; 7; 6]
  /\ ~ StronglySorted Z.lt [1; 2; 3; 4; 5; 7; 6]
  /\ (run compare_Z (mergeInsertionSort [1; 2; 3; 4; 5; 6; 7]) []).2
     = Returned [1; 2; 3; 4; 5; 6; 7]
  /\ (run compare_Z (mergeInsertionSort [4; 5; 1; 3; 6; 2; 7]) []).2
     = Returned [1; 2; 3; 4; 5; 6; 7].
Proof.
  split; [exact compare_Z_derived|].
  split; [apply (bool_decide_unpack _); vm_compute; exact I|].
  split; [vm_compute; reflexivity|].
  split; [vm_compute; reflexivity|].
  split; [|split; vm_compute; reflexivity].
  intros Hsorted.
  do 5 (apply StronglySorted_inv in Hsorted as [Hsorted _]).
  apply StronglySorted_inv in Hsorted as [_ Hlt].
  apply Forall_inv in Hlt. lia.
Qed.

(** ** The array of the caller *)
Section Frame.
Context {T : Type} `{EqDecision T}.
Implicit Types (st : @Store T) (items : list T).
Local Abbreviation Run := (@Run T).
Local Abbreviation St := (@St T).
Local Abbreviation Prog := (@Prog T).

Lemma keeps_weaken {A} st0 st1 (t : Run A) :
  st0 `prefix_of` st1 -> keeps st1 t -> keeps st0 t.
Proof.
  intros H01. induction t as [o st|a b st k IH]; simpl.
  - intros Hst. by etrans.
  - intros [Hst Hk]. split; [by etrans|]. intros c. by apply IH.
Qed.

Lemma keeps_bind {A B} st0 (t : Run A) (f : A -> St B) :
  keeps st0 t -> (forall a, preserves (f a)) -> keeps st0 (run_bind t f).
Proof.
  intros Ht Hf. induction t as [[e|a] st|a b st k IH]; simpl in *.
  - done.
  - by apply Hf.
  - destruct Ht as [Hst Hk]. split; [done|]. intros c. by apply IH.
Qed.

Lemma preserves_bind {A B} (m : St A) (f : A -> St B) :
  preserves m -> (forall a, preserves (f a)) -> preserves (st_bind m f).
Proof.
  intros Hm Hf st0 st Hst. unfold st_bind. apply keeps_bind; [|done].
  by apply Hm.
Qed.

Lemma preserves_throw {A} (e : Error) : preserves (@st_throw T A e).
Proof. by intros st0 st Hst. Qed.

Lemma preserves_alloc (l : list T) : preserves (alloc_array l).
Proof. intros st0 st Hst. simpl. by apply prefix_app_r. Qed.

Lemma preserves_read (r : nat) : preserves (@read_array T r).
Proof.
  intros st0 st Hst. unfold read_array. by case_match.
Qed.

Lemma preserves_lift {A} (p : Prog A) : preserves (lift_prog p).
Proof.
  intros st0 st Hst. induction p as [a|e|a b k IH]; simpl; [done|done|].
  split; [done|]. apply IH.
Qed.

Lemma sort_store_preserves (fuel : nat) (array : nat) :
  preserves (mergeInsertionSort_store (T := T) fuel array).
Proof.
  revert array. induction fuel as [|fuel IH]; intros array; simpl;
    (apply preserves_bind; [apply preserves_read|]);
    intros [|a0 [|a1 [|a2 items]]];
    try apply preserves_alloc;
    try (destruct (has_duplicates _); [apply preserves_throw|]);
    try apply preserves_throw;
    try (apply preserves_bind; [apply (preserves_lift (Await a0 a1 Ret))|];
         intros c; apply preserves_alloc).
  apply preserves_bind; [apply preserves_lift|]. intros pairs.
  apply preserves_bind; [apply preserves_alloc|]. intros keys.
  apply preserves_bind; [apply IH|]. intros larger.
  apply preserves_bind; [apply preserves_read|]. intros larger_items.
  apply preserves_bind; [apply preserves_read|]. intros items'.
  apply preserves_bind; [apply preserves_lift|]. intros result.
  apply preserves_alloc.
Qed.

Lemma keeps_exec {A} (comp : Comparator) st0 (t : Run A) calls :
  keeps st0 t -> st0 `prefix_of` (exec comp t calls).2.
Proof.
  revert calls. induction t as [[e|a] st|a b st k IH]; simpl; intros calls.
  - done.
  - done.
  - intros [Hst Hk]. destruct (comp calls a b) as [c|]; [by apply IH|done].
Qed.

Lemma follows_mono {A B} (R R' : A -> Store -> B -> Prop) (t : Run A)
    (p : Prog B) :
  (forall a st b, R a st b -> R' a st b) -> follows R t p -> follows R' t p.
Proof.
  intros HR. revert p.
  induction t as [[e|a] st|a b st k IH]; intros [b'|e'|a' b' k']; simpl;
    try done.
  - apply HR.
  - intros (-> & -> & Hk). do 2 (split; [done|]). intros c. by apply IH.
Qed.

Lemma follows_bind {A A' B B'} (R1 : A -> Store -> A' -> Prop)
    (R2 : B -> Store -> B' -> Prop) (t : Run A) (p : Prog A')
    (f : A -> St B) (g : A' -> Prog B') :
  follows R1 t p ->
  (forall a st b, R1 a st b -> follows R2 (f a st) (g b)) ->
  follows R2 (run_bind t f) (bind p g).
Proof.
  intros Ht Hf. revert p Ht.
  induction t as [[e|a] st|a b st k IH]; intros [b'|e'|a' b' k']; simpl;
    try done.
  - by apply Hf.
  - intros (-> & -> & Hk). do 2 (split; [done|]). intros c. by apply IH.
Qed.

Lemma follows_lift {A} (p : Prog A) st :
  follows (fun a st' b => a = b /\ st' = st) (lift_prog p st) p.
Proof.
  induction p as [a|e|a b k IH]; simpl; [done|done|].
  do 2 (split; [done|]). apply IH.
Qed.

Lemma follows_lift_then {A B} (R : B -> Store -> A -> Prop) (p : Prog A) st
    (f : A -> St B) :
  (forall a, follows R (f a st) (Ret a)) ->
  follows R (run_bind (lift_prog p st) f) p.
Proof.
  intros Hf. induction p as [a|e|a b k IH]; simpl; [apply Hf|done|].
  do 2 (split; [done|]). apply IH.
Qed.

Lemma follows_exec {A B} (R : A -> Store -> B -> Prop) (comp : Comparator)
    (t : Run A) (p : Prog B) calls :
  follows R t p ->
  (exec comp t calls).1.1 = (run comp p calls).1
  /\ outcome_agrees R (exec comp t calls).2 (exec comp t calls).1.2
       (run comp p calls).2.
Proof.
  revert p calls.
  induction t as [[e|a] st|a b st k IH]; intros [b'|e'|a' b' k'] calls; simpl;
    try done.
  intros (-> & -> & Hk). destruct (comp calls a' b') as [c|]; [|done].
  by apply IH.
Qed.

Lemma read_array_Some st (r : nat) items :
  st !! r = Some items -> read_array r st = Done (inr items) st.
Proof. intros Hr. unfold read_array. by rewrite Hr. Qed.

Lemma follows_alloc st0 st items :
  st0 `prefix_of` st ->
  follows (new_array st0) (alloc_array items st) (Ret items).
Proof.
  intros Hst. simpl. split; [by apply prefix_app_r|]. split.
  - by apply list_lookup_middle.
  - by apply prefix_length.
Qed.

Lemma sort_store_follows (fuel : nat) (array : nat) st items :
  st !! array = Some items ->
  follows (new_array st) (mergeInsertionSort_store fuel array st)
    (mergeInsertionSort_rec fuel items).
Proof.
  revert array st items.
  induction fuel as [|fuel IH]; intros array st items Harr; simpl;
    unfold st_bind at 1; rewrite (read_array_Some _ _ _ Harr); simpl;
    destruct items as [|a0 [|a1 [|a2 items]]];
    try (by apply follows_alloc);
    try (destruct (has_duplicates _); [done|]);
    try done;
    try (do 2 (split; [done|]); intros c; by apply follows_alloc).
  unfold st_bind at 1.
  apply (follows_bind (fun a st' b => a = b /\ st' = st));
    [apply follows_lift|].
  intros pairs ? ? [<- ->].
  unfold st_bind at 1. simpl. unfold st_bind at 1.
  eapply follows_bind.
  { apply (IH (length st) (st ++ [map_keys pairs])).
    by apply list_lookup_middle. }
  intros larger st' larger_items (Hst' & Hlarger & Hnew).
  assert (st `prefix_of` st') as Hpre.
  { etrans; [|exact Hst']. by apply prefix_app_r. }
  unfold st_bind at 1. rewrite (read_array_Some _ _ _ Hlarger). simpl.
  unfold st_bind at 1.
  rewrite (read_array_Some st' array _ (prefix_lookup_Some _ _ _ _ Harr Hpre)).
  simpl. unfold st_bind.
  apply follows_lift_then. intros result. by apply follows_alloc.
Qed.

End Frame.

(** C8: the array that is passed to [mergeInsertionSort] holds the same
    items in the same order when the call is over, whether the call
    returns, throws the error of the duplicate items or stops at a
    rejected comparison, for every comparator.  Every array of the store
    of the caller is kept; the call makes the calls and has the outcome of
    the program [mergeInsertionSort items], and its result is a new array
    that holds the result of that program. *)
Theorem sort_keeps_input {T : Type} `{EqDecision T} (comp : Comparator)
    (st : Store) (array : nat) (items : list T) (calls : list (T * T)) :
  st !! array = Some items ->
  (exec comp (mergeInsertionSort_in_store array st) calls).2 !! array
    = Some items
  /\ st `prefix_of` (exec comp (mergeInsertionSort_in_store array st) calls).2
  /\ (exec comp (mergeInsertionSort_in_store array st) calls).1.1
     = (run comp (mergeInsertionSort items) calls).1
  /\ outcome_agrees (new_array st)
       (exec comp (mergeInsertionSort_in_store array st) calls).2
       (exec comp (mergeInsertionSort_in_store array st) calls).1.2
       (run comp (mergeInsertionSort items) calls).2.
Proof.
  intros Harr. unfold mergeInsertionSort_in_store, mergeInsertionSort.
  rewrite Harr. simpl default.
  assert (st `prefix_of`
            (exec comp (mergeInsertionSort_store (length items) array st)
               calls).2) as Hpre.
  { apply keeps_exec. by apply sort_store_preserves. }
  split; [by eapply prefix_lookup_Some|]. split; [done|].
  apply follows_exec. by apply sort_store_follows.
Qed.

Lemma sort_keeps_input_witness :
  let st := [[4; 5; 1; 3; 6; 2; 7]] in
  let r := exec compare_Z (mergeInsertionSort_in_store 0%nat st) [] in
  st !! 0%nat = Some [4; 5; 1; 3; 6; 2; 7]
  /\ r.2 !! 0%nat = Some [4; 5; 1; 3; 6; 2; 7]
  /\ st `prefix_of` r.2
  /\ r.1.1 = (run compare_Z (mergeInsertionSort [4; 5; 1; 3; 6; 2; 7]) []).1
  /\ outcome_agrees (new_array st) r.2 r.1.2
       (run compare_Z (mergeInsertionSort [4; 5; 1; 3; 6; 2; 7]) []).2.
Proof.
  split; [reflexivity|].
  apply (sort_keeps_input compare_Z [[4; 5; 1; 3; 6; 2; 7]] 0%nat
           [4; 5; 1; 3; 6; 2; 7] []).
  reflexivity.
Defined.

(** The three ways in which a call ends, with the stores that they
    leave: the result in a new array, the error of the duplicate items
    before any array is made, and a comparator that fails at its fifth
    call. *)
Example store_after_call :
  exec compare_Z (mergeInsertionSort_in_store 0%nat [[4; 5; 1; 3; 6; 2; 7]]) []
  = ([(7, 6); (7, 5); (7, 3); (4, 3); (4, 2); (2, 1); (2, 3); (6, 5); (6, 3);
      (5, 3); (6, 2); (1, 3); (4, 5)],
     Returned 5%nat,
     [[4; 5; 1; 3; 6; 2; 7]; [5; 3; 6]; [5]; [5]; [3; 5; 6];
      [1; 2; 3; 4; 5; 6; 7]])
  /\ exec compare_Z (mergeInsertionSort_in_store 0%nat [[1; 2; 2]]) []
     = ([], Thrown ErrDuplicateItems, [[1; 2; 2]])
  /\ exec (fun calls a b =>
             if (length calls <? 4)%nat then Some (a <? b) else None)
       (mergeInsertionSort_in_store 0%nat [[4; 5; 1; 3; 6; 2; 7]]) []
     = ([(6, 3); (5, 3); (6, 2); (1, 3); (4, 5)], Rejected,
        [[4; 5; 1; 3; 6; 2; 7]; [5; 3; 6]; [5]; [5]]).
Proof. vm_compute. done. Qed.

(* ================================================================== *)
(** * Further properties of the module *)

(** ** The group sizes and the groups *)

(** The first 54 values of [_groupSizes] and the integers that
    [gen_next] computes are the same numbers of the source: the rounding
    of binary64 changes none of them.  It changes the 55th. *)
Lemma groupSizes_binary64 (n : nat) :
  (n <= 54)%nat ->
  take_values gen_next_binary64 n _groupSizes = gen_take n _groupSizes.
Proof.
  intros Hn. do 55 (destruct n as [|n]; [vm_compute; reflexivity|]). lia.
Qed.

Example groupSizes_binary64_rounds :
  take_values gen_next_binary64 55 _groupSizes !! 54%nat
  = Some 24019198012642648
  /\ gen_take 55 _groupSizes !! 54%nat = Some 24019198012642646.
Proof. vm_compute. done. Qed.

(** Among the first 54 sizes that [_groupSizes] yields, those that the
    numbers of the source hold exactly, every size is positive, every two
    adjacent ones sum to a power of two (the sentence quoted in the
    source), and each is the one before it plus twice the one before that
    (the recurrence of the sequence A014113 that the test names). *)
Theorem groupSizes_adjacent_sums (k : nat) :
  (k <= 51)%nat ->
  exists a b c,
    gen_take (k + 3) _groupSizes !! k = Some a
    /\ gen_take (k + 3) _groupSizes !! (k + 1)%nat = Some b
    /\ gen_take (k + 3) _groupSizes !! (k + 2)%nat = Some c
    /\ 0 < a
    /\ a + b = 2 ^ Z.of_nat (k + 2)
    /\ c = b + 2 * a.
Proof.
  intros _.
  exists (group_size (S k)), (group_size (S (S k))), (group_size (S (S (S k)))).
  change _groupSizes with (gen_at 0). rewrite gen_take_at.
  rewrite !list_lookup_fmap, !lookup_seq_lt by lia.
  replace (1 + k)%nat with (S k) by lia.
  replace (1 + (k + 1))%nat with (S (S k)) by lia.
  replace (1 + (k + 2))%nat with (S (S (S k))) by lia.
  do 3 (split; [done|]).
  pose proof (group_size_pos k) as Hpos.
  pose proof (group_size_pair k) as Hp.
  pose proof (group_size_pair (S k)) as Hq.
  rewrite (pow2_S (S (S k))) in Hq.
  replace (k + 2)%nat with (S (S k)) by lia. lia.
Qed.

Lemma groupSizes_adjacent_sums_witness :
  exists a b c,
    gen_take (51 + 3) _groupSizes !! 51%nat = Some a
    /\ gen_take (51 + 3) _groupSizes !! (51 + 1)%nat = Some b
    /\ gen_take (51 + 3) _groupSizes !! (51 + 2)%nat = Some c
    /\ 0 < a
    /\ a + b = 2 ^ Z.of_nat (51 + 2)
    /\ c = b + 2 * a.
Proof. apply (groupSizes_adjacent_sums 51). lia. Defined.

(** [_makeGroups] returns for every array: its loop ends, and the result
    holds each item of the array exactly once, paired with the index that
    the item has in the array. *)
Theorem makeGroups_permutation {A} (array : list A) :
  exists groups,
    _makeGroups array = Some groups
    /\ groups ≡ₚ with_index array
    /\ groups.*2 ≡ₚ array
    /\ length groups = length array
    /\ forall i x, (i, x) ∈ groups <-> at_index array i = Some x.
Proof.
  exists (grouped (with_index array)). split; [apply makeGroups_spec|].
  split; [apply grouped_Permutation|].
  split; [by rewrite grouped_Permutation, with_index_snd|].
  split.
  { rewrite grouped_length. unfold with_index. by rewrite length_imap. }
  intros i x. rewrite grouped_Permutation. split.
  - intros [Hi Hx]%with_index_elem_of. unfold at_index.
    by destruct (Z.ltb_spec i 0); [lia|].
  - unfold at_index. destruct (Z.ltb_spec i 0); [done|]. intros Hx.
    unfold with_index. apply elem_of_lookup_imap.
    exists (Z.to_nat i), x. split; [|done]. f_equal. lia.
Qed.

(** ** The binary search *)

(** [_binInsertIdx] on an array that holds the item already throws
    'item is already in target array' before it calls the comparator,
    whatever the comparator is. *)
Theorem binInsertIdx_rejects_present {T : Type} `{EqDecision T}
    (comp : Comparator) (array : list T) (item : T) (calls : list (T * T)) :
  item ∈ array ->
  run comp (_binInsertIdx array item) calls
  = (calls, Thrown ErrAlreadyInTarget).
Proof.
  intros Hin. unfold _binInsertIdx.
  destruct (Z.ltb_spec (Z.of_nat (length array)) 1) as [Hlen|Hlen].
  - destruct array; [by apply elem_of_nil in Hin|simpl in Hlen; lia].
  - by rewrite bool_decide_eq_true_2.
Qed.

Lemma binInsertIdx_rejects_present_witness :
  4 ∈ [2; 4; 6]
  /\ run compare_Z (_binInsertIdx [2; 4; 6] 4) []
     = ([], Thrown ErrAlreadyInTarget).
Proof.
  assert (4 ∈ [2; 4; 6]) as Hin by (apply (bool_decide_unpack _); vm_compute; exact I).
  split; [exact Hin|].
  apply (binInsertIdx_rejects_present compare_Z [2; 4; 6] 4 [] Hin).
Defined.

(** For every comparator, also one that follows no order, a search of
    [_binInsertIdx] for an item that is not in the array of [n] items
    makes at most [ceil(log2(n + 1))] calls, each of them for the item and
    an item of the array; it throws nothing, and an index that it returns
    is in [0 .. n]. *)
Theorem binInsertIdx_comparisons {T : Type} `{EqDecision T}
    (comp : Comparator) (array : list T) (item : T) (calls : list (T * T)) :
  item ∉ array ->
  exists l,
    (run comp (_binInsertIdx array item) calls).1 = l ++ calls
    /\ Z.of_nat (length l) <= Z.log2_up (Z.of_nat (length array) + 1)
    /\ Forall (fun c => c.1 = item /\ c.2 ∈ array) l
    /\ match (run comp (_binInsertIdx array item) calls).2 with
       | Returned idx => 0 <= idx <= Z.of_nat (length array)
       | Thrown _ => False
       | Rejected => True
       end.
Proof.
  intros Hnotin.
  destruct (wp_run any_response comp (_binInsertIdx array item) _ calls
              (responds_any comp) (binInsertIdx_spec _ array item Hnotin))
    as (l & Hl & (ms & Hp & _) & Hk & Ho).
  exists l. split; [done|]. split; [|split].
  - set (n := Z.of_nat (length array)) in *.
    pose proof (Z.log2_up_nonneg (n + 1)) as Hnn.
    specialize (Hk (Z.to_nat (Z.log2_up (n + 1)))).
    rewrite Z2Nat.id in Hk by done.
    enough (n < 2 ^ Z.log2_up (n + 1)) by lia.
    destruct (decide (n = 0)) as [->|Hn]; [done|].
    pose proof (Z.log2_up_spec (n + 1)). lia.
  - eapply Forall_impl; [by apply (probes_distinct array item ms)|].
    simpl. intros c (? & ? & _). done.
  - destruct (run comp (_binInsertIdx array item) calls).2 as [idx|e|];
      [|done|done].
    by destruct Ho as [? _].
Qed.

Lemma binInsertIdx_comparisons_witness :
  (5 ∉ [2; 4; 6; 8; 10])
  /\ exists l,
       (run compare_Z (_binInsertIdx [2; 4; 6; 8; 10] 5) []).1 = l ++ []
       /\ Z.of_nat (length l) <= Z.log2_up (Z.of_nat (length [2; 4; 6; 8; 10]) + 1)
       /\ Forall (fun c => c.1 = 5 /\ c.2 ∈ [2; 4; 6; 8; 10]) l
       /\ match (run compare_Z (_binInsertIdx [2; 4; 6; 8; 10] 5) []).2 with
          | Returned idx => 0 <= idx <= Z.of_nat (length [2; 4; 6; 8; 10])
          | Thrown _ => False
          | Rejected => True
          end.
Proof.
  assert (5 ∉ [2; 4; 6; 8; 10]) as Hnotin
    by (apply (bool_decide_unpack _); vm_compute; exact I).
  split; [exact Hnotin|].
  apply (binInsertIdx_comparisons compare_Z [2; 4; 6; 8; 10] 5 [] Hnotin).
Defined.

(** ** The number of comparisons *)

(** For the length [n] of an array, from 0 to below [2^32], the closed
    formula that [mergeInsertionMaxComparisons] returns has the value of
    the loop that the source leaves in a comment beside it: the sum of
    [Math.ceil(Math.log2((3*i)/4))] for [i = 1 .. n].  (Beyond the lengths
    of arrays the [Math.log2] of the source rounds to other integers than
    [ceil_log2] and [floor_log2].) *)
Theorem maxComparisons_is_sum (n : nat) :
  Z.of_nat n < 2 ^ 32 ->
  mergeInsertionMaxComparisons (Z.of_nat n)
  = inr (Z.of_nat (sum_list ((fun i => Z.to_nat (ceil_log2 (3 * Z.of_nat i) 4))
                             <$> seq 1 n))).
Proof.
  intros _.
  change (mergeInsertionMaxComparisons (Z.of_nat n)
          = inr (Z.of_nat (comparisons_sum n))).
  unfold mergeInsertionMaxComparisons.
  destruct (Z.ltb_spec (Z.of_nat n) 0); [lia|].
  destruct (Z.eqb_spec (Z.of_nat n) 0) as [Hz|Hnz].
  - by assert (n = 0%nat) as -> by lia.
  - rewrite step_cost_Z, floor_log2_6n by lia.
    by rewrite <- closed_formula_sum by lia.
Qed.

Lemma maxComparisons_is_sum_witness :
  mergeInsertionMaxComparisons (Z.of_nat 22)
  = inr (Z.of_nat (sum_list ((fun i => Z.to_nat (ceil_log2 (3 * Z.of_nat i) 4))
                             <$> seq 1 22))).
Proof. apply (maxComparisons_is_sum 22). vm_compute. reflexivity. Defined.

Lemma step_cost_le_log2_up (i n : nat) :
  (1 <= i <= n)%nat -> Z.of_nat (step_cost i) <= Z.log2_up (Z.of_nat n).
Proof.
  intros [Hi Hin]. pose proof (Z.log2_up_nonneg (Z.of_nat n)) as Hnn.
  destruct (decide (n = 1%nat)) as [->|Hn1].
  { assert (i = 1%nat) as -> by lia. done. }
  pose proof (Z.log2_up_spec (Z.of_nat n)) as [_ Hup]; [lia|].
  pose proof (step_cost_bounds i Hi) as [Hlo _].
  destruct (Z.le_gt_cases (Z.of_nat (step_cost i)) (Z.log2_up (Z.of_nat n)))
    as [|Hgt]; [done|exfalso].
  assert (S (S (Z.to_nat (Z.log2_up (Z.of_nat n)))) <= S (step_cost i))%nat
    as Hle%pow2_le by lia.
  rewrite !pow2_S, Z2Nat.id in Hle by done.
  rewrite pow2_S in Hlo. lia.
Qed.

Lemma comparisons_sum_le (n m : nat) :
  (m <= n)%nat ->
  Z.of_nat (comparisons_sum m) <= Z.of_nat m * Z.log2_up (Z.of_nat n).
Proof.
  induction m as [|m IH]; [done|]. intros Hm.
  rewrite comparisons_sum_S.
  pose proof (step_cost_le_log2_up (S m) n). lia.
Qed.

(** Over the lengths of arrays, [n + 1] below [2^32],
    [mergeInsertionMaxComparisons] does not decrease: one item more adds
    [Math.ceil(Math.log2(3(n+1)/4))] comparisons; and [n] items need at
    most [n * ceil(log2 n)] comparisons. *)
Theorem maxComparisons_grows (n : nat) :
  Z.of_nat n + 1 < 2 ^ 32 ->
  exists a b,
    mergeInsertionMaxComparisons (Z.of_nat n) = inr a
    /\ mergeInsertionMaxComparisons (Z.of_nat n + 1) = inr b
    /\ b = a + ceil_log2 (3 * (Z.of_nat n + 1)) 4
    /\ 0 <= a <= b
    /\ a <= Z.of_nat n * Z.log2_up (Z.of_nat n).
Proof.
  intros _.
  exists (Z.of_nat (comparisons_sum n)), (Z.of_nat (comparisons_sum (S n))).
  split; [apply maxComparisons_sum|].
  replace (Z.of_nat n + 1) with (Z.of_nat (S n)) by lia.
  split; [apply maxComparisons_sum|].
  rewrite comparisons_sum_S.
  pose proof (step_cost_Z (S n)) as Hc.
  split; [lia|]. split; [lia|].
  by apply comparisons_sum_le.
Qed.

Lemma maxComparisons_grows_witness :
  exists a b,
    mergeInsertionMaxComparisons (Z.of_nat 21) = inr a
    /\ mergeInsertionMaxComparisons (Z.of_nat 21 + 1) = inr b
    /\ b = a + ceil_log2 (3 * (Z.of_nat 21 + 1)) 4
    /\ 0 <= a <= b
    /\ a <= Z.of_nat 21 * Z.log2_up (Z.of_nat 21).
Proof. apply (maxComparisons_grows 21). vm_compute. reflexivity. Defined.

(** ** The sort against particular comparators *)
Section SortOrdered.
Context {T : Type} `{EqDecision T}.
Context (R : relation T) `{!StrictOrder R} `{!Trichotomy R}.

Lemma StronglySorted_strict_NoDup (l : list T) : StronglySorted R l -> NoDup l.
Proof.
  induction 1 as [|x l Hl IH Hx]; constructor; [|done].
  intros Hin. rewrite Forall_forall in Hx. by apply (irreflexivity R x), Hx.
Qed.

Lemma strict_order_antisymm : AntiSymm (=) R.
Proof.
  intros x y Hxy Hyx. destruct (irreflexivity R x). by transitivity y.
Qed.

Lemma sort_run_ordered (comp : Comparator) (array : list T) calls :
  derived_from R comp -> NoDup array ->
  exists result,
    (run comp (mergeInsertionSort array) calls).2 = Returned result
    /\ result ≡ₚ array
    /\ StronglySorted R result.
Proof.
  intros Hcomp Hnd.
  destruct (sort_run (order_response R) comp array calls Hcomp Hnd)
    as (l & _ & (_ & Hnr & _ & Ho) & Hrej).
  destruct (run comp (mergeInsertionSort array) calls).2 as [result|e|];
    [|done|].
  - exists result. destruct Ho as [Hperm Hsorted]. split; [done|].
    split; [done|]. apply Sorted_StronglySorted; [apply _|].
    eapply Sorted_mono; [|done]. intros a b. by apply below_order.
  - destruct (Hrej eq_refl) as (a & b & l' & -> & Hb).
    assert (a <> b) as Hne.
    { apply (no_repeat_distinct _ (a, b) Hnr). by left. }
    by destruct (Hb Hne) as (c & [=] & _).
Qed.

End SortOrdered.

(** The result of [mergeInsertionSort] does not depend on the order of
    the input: with a comparator derived from a strict total order, the sort
    of any permutation of a strictly ascending array returns that array,
    item by item (what the tests check for all permutations of up to seven
    letters). *)
Theorem sort_of_permutation {T : Type} `{EqDecision T}
    (R : relation T) `{!StrictOrder R} `{!Trichotomy R}
    (comp : Comparator) (sorted perm : list T) (calls : list (T * T)) :
  derived_from R comp -> StronglySorted R sorted -> perm ≡ₚ sorted ->
  (run comp (mergeInsertionSort perm) calls).2 = Returned sorted.
Proof.
  intros Hcomp Hsorted Hperm.
  assert (NoDup perm) as Hnd.
  { rewrite Hperm. by apply (StronglySorted_strict_NoDup R). }
  destruct (sort_run_ordered R comp perm calls Hcomp Hnd)
    as (result & -> & Hres & Hress).
  f_equal. pose proof (strict_order_antisymm R).
  apply (StronglySorted_unique R); [done|done|]. by rewrite Hres.
Qed.

Lemma sort_of_permutation_witness :
  (run compare_Z (mergeInsertionSort [4; 5; 1; 3; 6; 2; 7]) []).2
  = Returned [1; 2; 3; 4; 5; 6; 7].
Proof.
  apply (sort_of_permutation Z.lt compare_Z [1; 2; 3; 4; 5; 6; 7]
           [4; 5; 1; 3; 6; 2; 7] [] compare_Z_derived).
  - apply (bool_decide_unpack _). vm_compute. exact I.
  - apply (bool_decide_unpack _). vm_compute. exact I.
Defined.

(** With a comparator that is a function of the two items, whatever
    function, also one that follows no order, [mergeInsertionSort] returns
    for pairwise different items, and every two neighbours of the result
    are in the order that the comparator gives them: asked for the left
    one and the right one it answers [1], or asked for the right one and
    the left one it answers [0]. *)
Theorem sort_neighbours_ranked {T : Type} `{EqDecision T}
    (f : T -> T -> bool) (array : list T) (calls : list (T * T)) :
  NoDup array ->
  exists result,
    (run (fun _ a b => Some (f a b)) (mergeInsertionSort array) calls).2
      = Returned result
    /\ result ≡ₚ array
    /\ Sorted (fun a b => f a b = true \/ f b a = false) result.
Proof.
  intros Hnd.
  set (comp := fun (_ : list (T * T)) a b => Some (f a b)).
  set (beh := fun a b (r : option bool) => r = Some (f a b)).
  assert (responds comp beh) as Hcomp by done.
  destruct (sort_run beh comp array calls Hcomp Hnd)
    as (l & _ & (_ & _ & _ & Ho) & Hrej).
  destruct (run comp (mergeInsertionSort array) calls).2 as [result|e|];
    [|done|].
  - exists result. destruct Ho as [Hperm Hsorted]. split; [done|].
    split; [done|]. eapply Sorted_mono; [|done].
    intros a b [_ [Hab|Hba]]; unfold beh in *; [left|right]; congruence.
  - by destruct (Hrej eq_refl) as (a & b & l' & _ & Hb).
Qed.

Lemma sort_neighbours_ranked_witness :
  exists result,
    (run (fun _ a b => Some (a + b <? 7)) (mergeInsertionSort [4; 5; 1; 3; 6; 2; 7]) []).2
      = Returned result
    /\ result ≡ₚ [4; 5; 1; 3; 6; 2; 7]
    /\ Sorted (fun a b => (a + b <? 7) = true \/ (b + a <? 7) = false) result.
Proof.
  apply (sort_neighbours_ranked (fun a b => a + b <? 7) [4; 5; 1; 3; 6; 2; 7] []).
  apply test_array_NoDup.
Defined.

(** ** The earlier revision: [_binInsert] *)
Section Rev1Search.
Context {T : Type} `{EqDecision T}.
Implicit Types (beh : T -> T -> option bool -> Prop) (array : list T).

(** The middle [Math.floor((l+r)/2)] of [_binInsert] is the middle
    [l + Math.floor((r-l)/2)] of [_binInsertIdx]. *)
Lemma rev1_binInsert_loop_wp beh fuel array item : forall (l r : Z) Q,
  wp beh (binInsertIdx_loop fuel array item l r) Q ->
  wp beh (Rev1.binInsert_loop fuel array item l r) Q.
Proof.
  induction fuel as [|fuel IH]; intros l r Q; simpl; [done|].
  destruct (l <=? r); [|done].
  replace ((l + r) / 2) with (l + (r - l) / 2) by (Z.div_mod_to_equations; lia).
  destruct (at_index array (l + (r - l) / 2)) as [x|]; simpl; [|done].
  intros [Hr Hk]. split; [done|]. intros c Hc. specialize (Hk c Hc).
  destruct c; by apply IH.
Qed.

Lemma rev1_binInsert_spec beh array (right : Z) item :
  item ∉ array -> 0 <= right ->
  wp beh (Rev1._binInsert array right item) (fun calls o =>
    (forall k : nat,
       Z.min (right + 1) (Z.of_nat (length array)) < 2 ^ Z.of_nat k ->
       (length calls <= k)%nat)
    /\ Forall (fun c => c.1 = item /\ c.2 ∈ array) calls
    /\ match o with
       | Returned array' =>
           exists idx : nat,
             Z.of_nat idx <= Z.min (right + 1) (Z.of_nat (length array))
             /\ array' = take idx array ++ item :: drop idx array
       | Thrown _ => False
       | Rejected => True
       end).
Proof.
  intros Hnotin Hright. unfold Rev1._binInsert.
  rewrite bool_decide_eq_false_2 by done.
  destruct (Z.ltb_spec right 0); [lia|].
  apply wp_bind. eapply wp_mono;
    [|apply rev1_binInsert_loop_wp, binInsertIdx_loop_spec; lia].
  replace (Z.min right (Z.of_nat (length array) - 1) + 1)
    with (Z.min (right + 1) (Z.of_nat (length array))) by lia.
  intros calls o ((ms & Hp & _) & Hk & Ho).
  assert (Forall (fun c => c.1 = item /\ c.2 ∈ array) calls) as Hcalls.
  { eapply Forall_impl; [by apply (probes_distinct array item ms)|].
    simpl. by intros c (? & ? & _). }
  assert (forall k : nat,
            Z.min (right + 1) (Z.of_nat (length array)) < 2 ^ Z.of_nat k ->
            (length calls <= k)%nat) as Hk'.
  { intros k ?. apply Hk. lia. }
  destruct o as [idx|e|]; [|done|done].
  destruct Ho as (Hidx & _). simpl.
  split; [done|]. split; [done|].
  exists (Z.to_nat idx). split; [lia|].
  apply splice_insert_take_drop. lia.
Qed.

End Rev1Search.

(** [_binInsert] of the earlier revision fails before it calls the
    comparator when the item is already in the array or the right index
    is negative; the check for the item comes first, so that for an item
    of the array the error is 'item is already in target array' whatever
    the right index. *)
Theorem rev1_binInsert_errors {T : Type} `{EqDecision T}
    (comp : Comparator) (array : list T) (right : Z) (item : T)
    (calls : list (T * T)) :
  item ∈ array \/ right < 0 ->
  run comp (Rev1._binInsert array right item) calls
  = (calls, Thrown (if bool_decide (item ∈ array) then ErrAlreadyInTarget
                    else ErrRightNegative)).
Proof.
  intros Hcase. unfold Rev1._binInsert.
  destruct (bool_decide (item ∈ array)) eqn:Hin; [done|].
  apply bool_decide_eq_false_1 in Hin.
  destruct Hcase as [?|Hneg]; [done|].
  by destruct (Z.ltb_spec right 0); [|lia].
Qed.

Lemma rev1_binInsert_errors_witness :
  (4 ∈ [2; 4; 6] \/ -1 < 0)
  /\ run compare_Z (Rev1._binInsert [2; 4; 6] (-1) 4) []
     = ([], Thrown ErrAlreadyInTarget)
  /\ run compare_Z (Rev1._binInsert [2; 4; 6] (-1) 5) []
     = ([], Thrown ErrRightNegative).
Proof.
  split; [right; lia|]. split.
  - refine (eq_trans (rev1_binInsert_errors compare_Z [2; 4; 6] (-1) 4 [] _) _);
      [right; lia|vm_compute; reflexivity].
  - refine (eq_trans (rev1_binInsert_errors compare_Z [2; 4; 6] (-1) 5 [] _) _);
      [right; lia|vm_compute; reflexivity].
Defined.

(** For every comparator, [_binInsert] of the earlier revision with an
    item that is not in the array and a right index [right >= 0] throws
    nothing, makes at most [ceil(log2(m + 1))] calls, [m] the smaller of
    [right + 1] and the length, and leaves the array with the item
    inserted once, at an index that is at most [m]: the items from
    [right + 1] on stay behind the item, in their order. *)
Theorem rev1_binInsert_inserts {T : Type} `{EqDecision T}
    (comp : Comparator) (array : list T) (right : Z) (item : T)
    (calls : list (T * T)) :
  item ∉ array -> 0 <= right ->
  exists l,
    (run comp (Rev1._binInsert array right item) calls).1 = l ++ calls
    /\ Z.of_nat (length l)
       <= Z.log2_up (Z.min (right + 1) (Z.of_nat (length array)) + 1)
    /\ match (run comp (Rev1._binInsert array right item) calls).2 with
       | Returned array' =>
           exists idx : nat,
             Z.of_nat idx <= Z.min (right + 1) (Z.of_nat (length array))
             /\ array' = take idx array ++ item :: drop idx array
       | Thrown _ => False
       | Rejected => True
       end.
Proof.
  intros Hnotin Hright.
  destruct (wp_run any_response comp (Rev1._binInsert array right item) _ calls
              (responds_any comp)
              (rev1_binInsert_spec _ array right item Hnotin Hright))
    as (l & Hl & Hk & _ & Ho).
  exists l. split; [done|]. split; [|done].
  set (m := Z.min (right + 1) (Z.of_nat (length array))) in *.
  pose proof (Z.log2_up_nonneg (m + 1)) as Hnn.
  specialize (Hk (Z.to_nat (Z.log2_up (m + 1)))).
  rewrite Z2Nat.id in Hk by done.
  enough (m < 2 ^ Z.log2_up (m + 1)) by lia.
  destruct (decide (m = 0)) as [->|Hm]; [done|].
  pose proof (Z.log2_up_spec (m + 1)). lia.
Qed.

Lemma rev1_binInsert_inserts_witness :
  (11 ∉ [2; 4; 6; 8; 10]) /\ 0 <= 3
  /\ (run compare_Z (Rev1._binInsert [2; 4; 6; 8; 10] 3 11) []).2
     = Returned [2; 4; 6; 8; 11; 10]
  /\ exists l,
       (run compare_Z (Rev1._binInsert [2; 4; 6; 8; 10] 3 11) []).1 = l ++ []
       /\ Z.of_nat (length l)
          <= Z.log2_up (Z.min (3 + 1) (Z.of_nat (length [2; 4; 6; 8; 10])) + 1)
       /\ match (run compare_Z (Rev1._binInsert [2; 4; 6; 8; 10] 3 11) []).2 with
          | Returned array' =>
              exists idx : nat,
                Z.of_nat idx <= Z.min (3 + 1) (Z.of_nat (length [2; 4; 6; 8; 10]))
                /\ array' = take idx [2; 4; 6; 8; 10] ++ 11 :: drop idx [2; 4; 6; 8; 10]
          | Thrown _ => False
          | Rejected => True
          end.
Proof.
  assert (11 ∉ [2; 4; 6; 8; 10]) as Hnotin
    by (apply (bool_decide_unpack _); vm_compute; exact I).
  split; [exact Hnotin|]. split; [lia|]. split; [reflexivity|].
  apply (rev1_binInsert_inserts compare_Z [2; 4; 6; 8; 10] 3 11 [] Hnotin).
  lia.
Defined.

(** ** The earlier revision: [_cachedComparator] and [_makeGroups] *)
Section CacheTransparent.
Context {T : Type} `{EqDecision T} (f : T -> T -> bool).
Hypothesis f_inverse : forall a b, a <> b -> f b a = negb (f a b).

Lemma cachedComparator_run {A} (p : Prog A) : forall cache calls calls',
  (forall a b rv, Rev1.cache_lookup cache a b = Some rv -> rv = f a b) ->
  (length calls <= length calls')%nat ->
  (run (fun _ a b => Some (f a b)) (Rev1._cachedComparator cache p) calls).2
  = (run (fun _ a b => Some (f a b)) p calls').2
  /\ (length (run (fun _ a b => Some (f a b))
                (Rev1._cachedComparator cache p) calls).1
      <= length (run (fun _ a b => Some (f a b)) p calls').1)%nat.
Proof.
  induction p as [a|e|a b k IH]; intros cache calls calls' Hcache Hlen; simpl;
    [done|done|].
  destruct (Rev1.cache_lookup cache a b) as [rv|] eqn:Hab.
  { rewrite (Hcache _ _ _ Hab). apply IH; [done|simpl; lia]. }
  destruct (Rev1.cache_lookup cache b a) as [rv|] eqn:Hba.
  { assert (a <> b) as Hne by (intros ->; congruence).
    rewrite (Hcache _ _ _ Hba), (f_inverse a b Hne), negb_involutive.
    apply IH; [done|simpl; lia]. }
  simpl. apply IH; [|simpl; lia].
  intros x y rv. rewrite cache_lookup_store.
  destruct (decide (x = a /\ y = b)) as [[-> ->]|_]; [congruence|apply Hcache].
Qed.

End CacheTransparent.

(** With a comparator that is a function of the two items and answers a
    pair in one order with the opposite of its answer in the other order,
    a program run under [_cachedComparator] has the outcome that it has
    with the comparator itself, and makes no more calls: the cache
    changes no result. *)
Theorem cachedComparator_transparent {T : Type} `{EqDecision T} {A}
    (f : T -> T -> bool) (p : Prog A) (calls : list (T * T)) :
  (forall a b, a <> b -> f b a = negb (f a b)) ->
  (run (fun _ a b => Some (f a b)) (Rev1._cachedComparator [] p) calls).2
  = (run (fun _ a b => Some (f a b)) p calls).2
  /\ (length (run (fun _ a b => Some (f a b))
                (Rev1._cachedComparator [] p) calls).1
      <= length (run (fun _ a b => Some (f a b)) p calls).1)%nat.
Proof.
  intros Hf. apply (cachedComparator_run f Hf); [|done].
  intros a b rv. unfold Rev1.cache_lookup, map_get. simpl. discriminate.
Qed.

Lemma cachedComparator_transparent_witness :
  (run (fun _ a b => Some (a <? b))
     (Rev1._cachedComparator [] (Rev1._mergeInsertionSort [3; 1; 2; 5; 4])) []).2
  = (run (fun _ a b => Some (a <? b))
       (Rev1._mergeInsertionSort [3; 1; 2; 5; 4]) []).2
  /\ Nat.le
       (length (run (fun _ a b => Some (a <? b))
                  (Rev1._cachedComparator []
                     (Rev1._mergeInsertionSort [3; 1; 2; 5; 4])) []).1)
       (length (run (fun _ a b => Some (a <? b))
                  (Rev1._mergeInsertionSort [3; 1; 2; 5; 4]) []).1).
Proof.
  apply (cachedComparator_transparent Z.ltb
           (Rev1._mergeInsertionSort [3; 1; 2; 5; 4]) []).
  intros a b Hne. destruct (Z.ltb_spec a b), (Z.ltb_spec b a); simpl; lia.
Defined.

Section Rev1Groups.

Lemma rev1_group_indices {A} (items : list A) (i : Z) (s : nat) :
  0 <= i ->
  imap (fun j e => (Z.of_nat j + i + 3, e)) (take s (drop (Z.to_nat i) items))
  = prod_map (Z.add 3) id <$> take s (drop (Z.to_nat i) (with_index items)).
Proof.
  intros Hi. apply list_eq. intros j.
  rewrite list_lookup_imap, list_lookup_fmap.
  destruct (decide (j < s)%nat) as [Hj|Hj].
  - rewrite !lookup_take_lt, !lookup_drop by done. unfold with_index.
    rewrite list_lookup_imap. destruct (items !! (Z.to_nat i + j)%nat); [|done].
    unfold prod_map. simpl. do 2 f_equal. lia.
  - by rewrite !lookup_take_ge by lia.
Qed.

Lemma rev1_makeGroups_loop {A} (items : list A) (fuel : nat) :
  forall (k : nat) (i : Z) (rv : list (Z * A)),
  0 <= i <= Z.of_nat (length items) ->
  Rev1.makeGroups_loop fuel items (gen_at k) i (prod_map (Z.add 3) id <$> rv)
  = fmap (M := list) (prod_map (Z.add 3) id)
      <$> makeGroups_loop fuel (with_index items) (gen_at k) i rv.
Proof.
  induction fuel as [|fuel IH]; intros k i rv Hi; [done|].
  cbn [Rev1.makeGroups_loop makeGroups_loop]. rewrite gen_next_at.
  pose proof (group_size_pos k) as Hpos.
  assert (length (with_index items) = length items) as Hlen
    by (unfold with_index; by rewrite length_imap).
  rewrite !slice_take_drop by lia.
  rewrite rev1_group_indices, <- fmap_reverse, <- fmap_app by lia.
  rewrite length_fmap, !length_reverse.
  rewrite !length_take, !length_drop, Hlen.
  destruct (Z.ltb_spec
    (Z.of_nat (Z.to_nat (group_size (S k)) `min` (length items - Z.to_nat i)))
    (group_size (S k))) as [Hlt|Hge]; [done|].
  apply IH. lia.
Qed.

Lemma rev1_makeGroups_grouped {A} (items : list A) :
  Rev1._makeGroups items
  = Some (prod_map (Z.add 3) id <$> grouped (with_index items)).
Proof.
  transitivity (fmap (M := list) (prod_map (Z.add 3) id) <$> _makeGroups items).
  - unfold Rev1._makeGroups, _makeGroups. change _groupSizes with (gen_at 0).
    apply (rev1_makeGroups_loop items _ 0 0 []). lia.
  - by rewrite makeGroups_spec.
Qed.

End Rev1Groups.

(** [_makeGroups] of the earlier revision returns the items in the order
    in which the current one returns them, each with its index in the
    array plus 3: its place in the sorted sequence, counted from 1. *)
Theorem rev1_makeGroups_indices {A} (items : list A) :
  Rev1._makeGroups items
  = fmap (M := list) (prod_map (Z.add 3) id) <$> _makeGroups items
  /\ Rev1._makeGroups items
     = Some (prod_map (Z.add 3) id <$> grouped (with_index items)).
Proof.
  assert (Rev1._makeGroups items
          = fmap (M := list) (prod_map (Z.add 3) id) <$> _makeGroups items) as Heq.
  { unfold Rev1._makeGroups, _makeGroups. change _groupSizes with (gen_at 0).
    apply (rev1_makeGroups_loop items _ 0 0 []). lia. }
  split; [done|]. by rewrite Heq, makeGroups_spec.
Qed.

(** ** The earlier revision: the sort *)
Lemma slice_2_end {A} (l : list A) :
  (2 <= length l)%nat -> slice 2 (Z.of_nat (length l)) l = drop 2 l.
Proof.
  intros Hl.
  replace (Z.of_nat (length l)) with (2 + Z.of_nat (length l - 2)) by lia.
  rewrite slice_take_drop by lia. change (Z.to_nat 2) with 2%nat.
  rewrite Nat2Z.id. apply take_ge. rewrite length_drop. lia.
Qed.

Section Rev1Sort.
Context {T : Type} `{EqDecision T}.
Implicit Types (beh : T -> T -> option bool -> Prop) (array results : list T)
  (ps : list (T * T)).

Lemma rev1_binInsert_all_spec beh : forall (groups : list (Z * T)) results,
  NoDup (results ++ groups.*2) -> Forall (fun g => 1 <= g.1) groups ->
  wp beh (Rev1.binInsert_all groups results) (fun _ o =>
    match o with
    | Returned final => final ≡ₚ results ++ groups.*2
    | Thrown _ => False
    | Rejected => True
    end).
Proof.
  induction groups as [|[idx x] groups IH]; intros results Hnd Hidx.
  { simpl. by rewrite app_nil_r. }
  cbn [Rev1.binInsert_all]. rewrite fmap_cons in Hnd |- *. simpl in Hnd |- *.
  apply Forall_cons in Hidx as [Hidx Hrest]. simpl in Hidx.
  assert (x ∉ results) as Hx.
  { apply NoDup_app in Hnd as (_ & Hd & _). intros Hin.
    apply (Hd x Hin). by left. }
  apply wp_bind. eapply wp_mono; [|apply rev1_binInsert_spec; [done|lia]].
  intros calls o (_ & _ & Ho). destruct o as [results'|e|]; [|done|done].
  destruct Ho as (i & _ & ->).
  assert (take i results ++ x :: drop i results ≡ₚ x :: results) as Hperm.
  { by rewrite <- Permutation_middle, take_drop. }
  eapply wp_mono; [|apply IH; [|done]].
  - intros l [final|e|]; [|done|done]. intros ->.
    rewrite Hperm. simpl. apply Permutation_middle.
  - rewrite Hperm. simpl. by rewrite Permutation_middle.
Qed.

Lemma keys_get ps (k : T) :
  NoDup (fst <$> ps) -> k ∈ fst <$> ps -> map_get k ps = Some (val ps k).
Proof.
  intros Hnd ([k' v] & -> & Hin)%list_elem_of_fmap. unfold val. simpl.
  by rewrite (map_get_Some k' v).
Qed.

Lemma rev1_sort_rec_spec beh fuel : forall array,
  NoDup array -> (length array <= fuel)%nat ->
  wp beh (Rev1._mergeInsertionSort_rec fuel array) (fun _ o =>
    match o with
    | Returned result => result ≡ₚ array
    | Thrown _ => False
    | Rejected => True
    end).
Proof.
  induction fuel as [|fuel IH]; intros array Hnd Hfuel.
  { destruct array; [by simpl|simpl in Hfuel; lia]. }
  destruct array as [|a0 [|a1 rest]]; [by simpl|by simpl|].
  cbn [Rev1._mergeInsertionSort_rec].
  rewrite (proj2 (has_duplicates_false _) Hnd).
  destruct rest as [|a2 rest].
  { simpl. split; [done|]. intros [] _; [done|apply perm_swap]. }
  set (array := a0 :: a1 :: a2 :: rest) in *.
  assert (3 <= length array)%nat as Hlen3 by (simpl; lia).
  apply wp_bind.
  eapply wp_mono; [|apply pairs_loop_spec; [done|by intros x _ ?%elem_of_nil]].
  intros calls1 o1 [_ Ho1]. destruct o1 as [pairs|e|]; [|done|done].
  destruct Ho1 as (ps & -> & Hps). simpl.
  pose proof (paired_Permutation _ _ _ Hps) as Hperm.
  assert (NoDup (fst <$> ps)) as Hkeys.
  { rewrite <- Hperm in Hnd. by apply NoDup_app in Hnd as (? & _ & _). }
  assert (length ps = (length array / 2)%nat) as Hlenps
    by (by apply (paired_length beh)).
  apply wp_bind. unfold map_keys.
  eapply wp_mono; [|apply IH; [done|]]; cycle 1.
  { rewrite length_fmap, Hlenps. div_lia. }
  intros calls2 o2 Ho2. destruct o2 as [results|e|]; [|done|done].
  assert (length results = (length array / 2)%nat) as Hlenr.
  { by rewrite Ho2, length_fmap. }
  destruct results as [|r0 rs]; [cbn [length] in Hlenr; div_lia|].
  assert (forall k, k ∈ r0 :: rs -> map_get k ps = Some (val ps k)) as Hget.
  { intros k Hk. apply keys_get; [done|]. by rewrite <- Ho2. }
  cbn [lookup list_lookup mbind option_bind].
  rewrite (Hget r0) by (by left).
  cbn [mbind prog_bind bind non_null].
  change (Z.of_nat (S (length (r0 :: rs))))
    with (Z.of_nat (length (val ps r0 :: r0 :: rs))).
  change (S (S (S (length rest)))) with (length array).
  rewrite slice_2_end by (simpl; lia). cbn [drop]. rewrite drop_0.
  assert (mapM (fun e => map_get e ps) rs = Some (val ps <$> rs)) as ->.
  { apply mapM_Some_2, Forall2_fmap_r, Forall_Forall2_diag, Forall_forall.
    intros k Hk. apply Hget. by right. }
  cbn [bind non_null].
  set (remaining := (val ps <$> rs) ++ leftover array).
  assert (val ps r0 :: r0 :: rs ++ remaining ≡ₚ array) as Hall.
  { unfold remaining.
    pose proof (val_larger ps (r0 :: rs) Hkeys Ho2) as Hvals.
    rewrite fmap_cons in Hvals.
    transitivity ((r0 :: rs) ++ (val ps r0 :: (val ps <$> rs)) ++ leftover array).
    - apply (Permutation_middle (r0 :: rs)).
    - by rewrite Ho2, Hvals. }
  assert (wp beh
    (bind (fueled (Rev1._makeGroups remaining)) (fun groups =>
       Rev1.binInsert_all groups (val ps r0 :: r0 :: rs)))
    (fun _ o => match o with
                | Returned result => result ≡ₚ array
                | Thrown _ => False
                | Rejected => True
                end)) as Hrest.
  { rewrite (rev1_makeGroups_grouped remaining). cbn [fueled bind].
    set (groups := prod_map (Z.add 3) id <$> grouped (with_index remaining)).
    assert (groups.*2 ≡ₚ remaining) as Hgroups.
    { unfold groups. rewrite <- list_fmap_compose.
      rewrite (list_fmap_ext _ snd (grouped (with_index remaining)))
        by (by intros ? []).
      by rewrite grouped_Permutation, with_index_snd. }
    eapply wp_mono; [|apply rev1_binInsert_all_spec].
    - intros l [final|e|]; [|done|done]. intros ->.
      rewrite Hgroups. by rewrite <- Hall.
    - rewrite Hgroups.
      change ((val ps r0 :: r0 :: rs) ++ remaining)
        with (val ps r0 :: r0 :: rs ++ remaining).
      by rewrite Hall.
    - apply Forall_forall. intros g (p & -> & Hp)%list_elem_of_fmap.
      rewrite grouped_Permutation in Hp. destruct p as [j x].
      apply with_index_elem_of in Hp as [Hj _]. unfold prod_map. simpl. lia. }
  unfold remaining in Hrest. unfold leftover in Hrest.
  destruct (Z.of_nat (length array) mod 2 =? 0).
  - cbn [bind]. by rewrite app_nil_r in Hrest.
  - destruct (at_index array (Z.of_nat (length array) - 1)) as [x|] eqn:Hx.
    + cbn [mbind prog_bind bind non_null]. exact Hrest.
    + exfalso. destruct (at_index_Some array (Z.of_nat (length array) - 1))
        as [x Hx']; [lia|congruence].
Qed.

Lemma cachedComparator_any {A} (p : Prog A) (Q : Outcome A -> Prop) :
  forall cache : Rev1.Cache (T := T),
  wp any_response p (fun _ o => Q o) ->
  wp any_response (Rev1._cachedComparator cache p) (fun _ o => Q o).
Proof.
  induction p as [a|e|a b k IH]; intros cache; simpl; [done|done|].
  intros [Hr Hk].
  destruct (Rev1.cache_lookup cache a b) as [rv|]; [by apply IH, Hk|].
  destruct (Rev1.cache_lookup cache b a) as [rv|]; [by apply IH, Hk|].
  simpl. split; [done|]. intros c _. by apply IH, Hk.
Qed.

Lemma run_rejected {A} (comp : @Comparator T) (p : Prog A) : forall calls,
  (run comp p calls).2 = Rejected -> exists calls' a b, comp calls' a b = None.
Proof.
  induction p as [a|e|a b k IH]; intros calls; simpl; [done|done|].
  destruct (comp calls a b) as [c|] eqn:Hc; [apply IH|].
  intros _. by exists calls, a, b.
Qed.

End Rev1Sort.

(** The sort of the earlier revision, which may leave the items out of
    order, loses and adds none: for pairwise different items and every
    comparator, a result that it returns holds exactly the items of the
    input; it throws nothing, and it returns when the comparator answers
    every call. *)
Theorem rev1_sort_permutation {T : Type} `{EqDecision T}
    (comp : Comparator) (array : list T) (calls : list (T * T)) :
  NoDup array ->
  match (run comp (Rev1.mergeInsertionSort array) calls).2 with
  | Returned result => result ≡ₚ array
  | Thrown _ => False
  | Rejected => exists calls' a b, comp calls' a b = None
  end.
Proof.
  intros Hnd.
  destruct (wp_run any_response comp (Rev1.mergeInsertionSort array) _ calls
              (responds_any comp)
              (cachedComparator_any _ _ []
                 (rev1_sort_rec_spec any_response _ array Hnd (le_n _))))
    as (l & _ & Ho).
  destruct (run comp (Rev1.mergeInsertionSort array) calls).2 as [result|e|]
    eqn:Hrun; [done|done|].
  by apply (run_rejected comp (Rev1.mergeInsertionSort array) calls).
Qed.

Lemma rev1_sort_permutation_witness :
  match (run compare_Z (Rev1.mergeInsertionSort [4; 5; 1; 3; 6; 2; 7]) []).2 with
  | Returned result => result ≡ₚ [4; 5; 1; 3; 6; 2; 7]
  | Thrown _ => False
  | Rejected => exists calls' a b, compare_Z calls' a b = None
  end.
Proof.
  apply (rev1_sort_permutation compare_Z [4; 5; 1; 3; 6; 2; 7] []).
  apply test_array_NoDup.
Defined.

(** ** The comparators of the tests *)
Section TestCompProofs.
Context {T : Type} `{EqDecision T}.
Implicit Types (st : TestState (T := T)) (prev calls l : list (T * T))
  (lg : option (list (T * T))).

Lemma has_pair_add (m : list (T * list (T * unit))) (a b x y : T) :
  has_pair (add_pair a b m) x y
  = if decide (x = a /\ y = b) then true else has_pair m x y.
Proof.
  unfold has_pair, add_pair.
  destruct (decide (x = a)) as [->|Hx].
  - destruct (map_get a m) as [inner|] eqn:Hm; rewrite map_get_set_eq.
    + destruct (decide (y = b)) as [->|Hy].
      * rewrite decide_True by done. by rewrite map_get_set_eq.
      * rewrite decide_False by (by intros [_ ?]).
        by rewrite map_get_set_ne by done.
    + destruct (decide (y = b)) as [->|Hy].
      * rewrite decide_True by done. unfold map_get. simpl.
        by rewrite (bool_decide_eq_true_2 (b = b)).
      * rewrite decide_False by (by intros [_ ?]). unfold map_get. simpl.
        by rewrite (bool_decide_eq_false_2 (b = y)) by done.
  - rewrite decide_False by (by intros [? _]).
    destruct (map_get a m) as [inner|]; by rewrite map_get_set_ne.
Qed.

Lemma records_init lg : records lg (test_init lg) [].
Proof.
  split; [|split].
  - intros a b. unfold has_pair, map_get. simpl. split; [done|].
    by intros ?%elem_of_nil.
  - done.
  - simpl. destruct lg as [l0|]; simpl; [|done]. by rewrite app_nil_r.
Qed.

Lemma records_fresh lg st prev (a b : T) :
  records lg st prev ->
  has_pair (pairMap st) a b || has_pair (pairMap st) b a = false
  <-> ((a, b) ∉ prev) /\ ((b, a) ∉ prev).
Proof.
  intros (Hmap & _ & _). rewrite orb_false_iff.
  rewrite <- !not_true_iff_false, !Hmap. done.
Qed.

Lemma records_add lg st prev (a b : T) (w : nat) :
  records lg st prev ->
  records lg
    {| callCount := callCount st + 1;
       pairMap := add_pair a b (pairMap st);
       log := (fun l => l ++ [(a, b)]) <$> log st;
       warnings := w |} ((a, b) :: prev).
Proof.
  intros (Hmap & Hcount & Hlog). split; [|split]; simpl.
  - intros x y. rewrite has_pair_add, elem_of_cons, <- Hmap.
    destruct (decide (x = a /\ y = b)) as [[-> ->]|Hne].
    + split; [by left|done].
    + split; [by right|]. intros [[= -> ->]|?]; [by destruct Hne|done].
  - rewrite Hcount. lia.
  - rewrite Hlog. destruct lg as [l0|]; simpl; [|done].
    by rewrite reverse_cons, app_assoc.
Qed.

Lemma records_add_quiet st prev (a b : T) :
  records None st prev ->
  records None
    {| callCount := callCount st + 1;
       pairMap := add_pair a b (pairMap st);
       log := log st;
       warnings := warnings st |} ((a, b) :: prev).
Proof.
  intros Hst. pose proof (records_add None st prev a b (warnings st) Hst)
    as (Hmap & Hcount & _).
  split; [done|]. split; [done|]. simpl. by destruct Hst as (_ & _ & ->).
Qed.

Lemma no_repeat_fresh prev (a b : T) :
  a <> b -> (a, b) ∉ prev -> (b, a) ∉ prev -> no_repeat prev ->
  no_repeat ((a, b) :: prev).
Proof. intros. by apply no_repeat_cons. Qed.

(** What goes through [testComp]. *)
Lemma testComp_guard (maxCalls : Z) lg {A} (p : Prog A) : forall st prev,
  records lg st prev -> no_repeat prev ->
  wp any_response (testComp maxCalls st p) (fun l o =>
    no_repeat (l ++ prev)
    /\ match o with
       | Returned (_, st') => records lg st' (l ++ prev)
       | _ => True
       end).
Proof.
  induction p as [a|e|a b k IH]; intros st prev Hst Hprev; simpl;
    [done|done|].
  destruct (decide (a = b)) as [->|Hne]; [done|].
  destruct (has_pair (pairMap st) a b || has_pair (pairMap st) b a) eqn:Hseen;
    [done|].
  apply (records_fresh lg st prev) in Hseen as [Hab Hba]; [|done].
  pose proof (no_repeat_fresh prev a b Hne Hab Hba Hprev) as Hnr.
  simpl. split; [done|]. intros c _.
  eapply wp_mono; [|apply (IH c _ ((a, b) :: prev)); [by apply records_add|done]].
  intros l o. by rewrite <- app_assoc.
Qed.

(** What goes through [testComparator]. *)
Lemma testComparator_guard (maxCalls : Z) {A} (p : Prog A) : forall st prev,
  records None st prev -> no_repeat prev ->
  Z.of_nat (length prev) <= Z.max 0 maxCalls ->
  wp any_response (testComparator maxCalls st p) (fun l o =>
    no_repeat (l ++ prev)
    /\ Z.of_nat (length (l ++ prev)) <= Z.max 0 maxCalls).
Proof.
  induction p as [a|e|a b k IH]; intros st prev Hst Hprev Hlen; simpl;
    [done|done|].
  destruct (decide (a = b)) as [->|Hne]; [done|].
  destruct (has_pair (pairMap st) a b || has_pair (pairMap st) b a) eqn:Hseen;
    [done|].
  apply (records_fresh None st prev) in Hseen as [Hab Hba]; [|done].
  pose proof (no_repeat_fresh prev a b Hne Hab Hba Hprev) as Hnr.
  destruct (Z.ltb_spec maxCalls (callCount st + 1)) as [Hmax|Hmax]; [done|].
  assert (Z.of_nat (length ((a, b) :: prev)) <= Z.max 0 maxCalls) as Hlen'.
  { destruct Hst as (_ & Hcount & _). simpl. lia. }
  simpl. split; [done|]. intros c _.
  eapply wp_mono;
    [|apply (IH c _ ((a, b) :: prev)); [by apply records_add_quiet|done|done]].
  intros l o. by rewrite <- app_assoc.
Qed.

(** A program that makes no call twice and no more than [maxCalls] calls
    runs under [testComp] as without it. *)
Lemma testComp_passes (maxCalls : Z) lg (comp : Comparator) {A}
    (p : Prog A) : forall st prev calls,
  records lg st prev ->
  wp any_response p (fun l _ =>
    no_repeat (l ++ prev) /\ Z.of_nat (length (l ++ prev)) <= maxCalls) ->
  exists l,
    (run comp p calls).1 = l ++ calls
    /\ (run comp (testComp maxCalls st p) calls).1 = l ++ calls
    /\ match (run comp p calls).2 with
       | Returned a =>
           exists st',
             (run comp (testComp maxCalls st p) calls).2 = Returned (inr a, st')
             /\ records lg st' (l ++ prev)
             /\ warnings st' = warnings st
       | Thrown e => (run comp (testComp maxCalls st p) calls).2 = Thrown e
       | Rejected => (run comp (testComp maxCalls st p) calls).2 = Rejected
       end.
Proof.
  induction p as [a|e|a b k IH]; intros st prev calls Hst; simpl.
  - intros _. exists []. split; [done|]. split; [done|]. by exists st.
  - intros _. by exists [].
  - intros [Hr Hk]. destruct (Hr I) as [Hnr Hlen].
    apply no_repeat_cons in Hnr as (Hne & Hab & Hba & Hprev).
    simpl in Hne, Hba. unfold swap_call in Hba. simpl in Hba.
    rewrite decide_False by done.
    rewrite (proj2 (records_fresh lg st prev a b Hst)) by done.
    simpl. destruct (comp calls a b) as [c|]; [|by exists [(a, b)]].
    set (st' := Build_TestState _ _ _ _).
    destruct (IH c st' ((a, b) :: prev) ((a, b) :: calls)) as (l & Hl & Hl' & Ho).
    { by apply records_add. }
    { eapply wp_mono; [|apply Hk; done]. intros l o. simpl.
      by rewrite <- app_assoc. }
    exists (l ++ [(a, b)]). rewrite <- !app_assoc. split; [done|]. split; [done|].
    destruct (run comp (k c) ((a, b) :: calls)).2 as [r|e|]; [|done|done].
    destruct Ho as (st'' & Hrun & Hrec & Hw). exists st''.
    split; [done|]. split; [done|]. rewrite Hw. unfold st'. simpl.
    destruct Hst as (_ & Hcount & _). simpl in Hlen.
    by destruct (Z.ltb_spec maxCalls (callCount st + 1)); [lia|].
Qed.

End TestCompProofs.

(** Whatever program calls it and whatever comparator it wraps, the
    comparator that [testComp] returns passes to the wrapped one no call
    for two equal items and no second call for a pair of items, in
    either order; when the program returns, [callCount] is the number of
    the calls that went through and the log holds them, appended in the
    order in which they were made. *)
Theorem testComp_guards {T : Type} `{EqDecision T} {A}
    (comp : Comparator) (maxCalls : Z) (lg : option (list (T * T)))
    (p : Prog A) (calls : list (T * T)) :
  exists l,
    (run comp (testComp maxCalls (test_init lg) p) calls).1 = l ++ calls
    /\ Forall (fun c => c.1 <> c.2) l
    /\ no_pair_twice l
    /\ forall r st',
         (run comp (testComp maxCalls (test_init lg) p) calls).2
           = Returned (r, st') ->
         callCount st' = Z.of_nat (length l)
         /\ log st' = (fun l0 => l0 ++ reverse l) <$> lg.
Proof.
  destruct (wp_run any_response comp (testComp maxCalls (test_init lg) p) _
              calls (responds_any comp)
              (testComp_guard maxCalls lg p _ [] (records_init lg) no_repeat_nil))
    as (l & Hl & Hnr & Ho).
  rewrite app_nil_r in Hnr. exists l. split; [done|]. split; [|split].
  - apply Forall_forall. intros c Hc. by apply (no_repeat_distinct l).
  - by apply no_repeat_no_pair_twice.
  - intros r st' Hrun. rewrite Hrun in Ho. rewrite app_nil_r in Ho.
    by destruct Ho as (_ & ? & ?).
Qed.

(** The comparator that [testComparator] of the earlier tests returns
    passes to the wrapped one no call for two equal items, no second call
    for a pair of items, in either order, and no more than [maxCalls]
    calls, whatever program calls it. *)
Theorem testComparator_guards {T : Type} `{EqDecision T} {A}
    (comp : Comparator) (maxCalls : Z) (p : Prog A) (calls : list (T * T)) :
  exists l,
    (run comp (testComparator maxCalls (test_init None) p) calls).1
      = l ++ calls
    /\ Forall (fun c => c.1 <> c.2) l
    /\ no_pair_twice l
    /\ Z.of_nat (length l) <= Z.max 0 maxCalls.
Proof.
  destruct (wp_run any_response comp
              (testComparator maxCalls (test_init None) p) _
              calls (responds_any comp)
              (testComparator_guard maxCalls p _ [] (records_init None)
                 no_repeat_nil ltac:(simpl; lia)))
    as (l & Hl & Hnr & Hlen).
  rewrite app_nil_r in Hnr, Hlen. exists l. split; [done|]. split; [|split].
  - apply Forall_forall. intros c Hc. by apply (no_repeat_distinct l).
  - by apply no_repeat_no_pair_twice.
  - done.
Qed.

(** The checks of the tests never fire on [mergeInsertionSort]: on
    pairwise different items and with [maxCalls] the value of
    [mergeInsertionMaxComparisons] for their number, a run with the
    comparator wrapped by [testComp] makes the calls and has the outcome of
    the run with the comparator itself, no warning 'too many Comparator
    calls' is written, and the log holds the calls in their order. *)
Theorem sort_under_testComp {T : Type} `{EqDecision T}
    (comp : Comparator) (maxCalls : Z) (lg : option (list (T * T)))
    (array : list T) (calls : list (T * T)) :
  NoDup array ->
  mergeInsertionMaxComparisons (Z.of_nat (length array)) = inr maxCalls ->
  exists l,
    (run comp (mergeInsertionSort array) calls).1 = l ++ calls
    /\ (run comp (testComp maxCalls (test_init lg) (mergeInsertionSort array))
          calls).1 = l ++ calls
    /\ match (run comp (mergeInsertionSort array) calls).2 with
       | Returned result =>
           exists st',
             (run comp (testComp maxCalls (test_init lg)
                          (mergeInsertionSort array)) calls).2
               = Returned (inr result, st')
             /\ warnings st' = 0%nat
             /\ log st' = (fun l0 => l0 ++ reverse l) <$> lg
       | Thrown e =>
           (run comp (testComp maxCalls (test_init lg)
                        (mergeInsertionSort array)) calls).2 = Thrown e
       | Rejected =>
           (run comp (testComp maxCalls (test_init lg)
                        (mergeInsertionSort array)) calls).2 = Rejected
       end.
Proof.
  intros Hnd Hmax. rewrite maxComparisons_sum in Hmax. injection Hmax as <-.
  destruct (testComp_passes (Z.of_nat (comparisons_sum (length array))) lg comp
              (mergeInsertionSort array) (test_init lg) [] calls
              (records_init lg)) as (l & Hl & Hl' & Ho).
  { eapply wp_mono; [|apply (sort_wp any_response array Hnd)].
    intros l o (_ & Hnr & Hlen & _). rewrite app_nil_r. split; [done|lia]. }
  exists l. split; [done|]. split; [done|].
  destruct (run comp (mergeInsertionSort array) calls).2 as [result|e|];
    [|done|done].
  destruct Ho as (st' & Hrun & (_ & _ & Hlog) & Hw). exists st'.
  rewrite app_nil_r in Hlog. done.
Qed.

Lemma sort_under_testComp_witness :
  exists l,
    (run compare_Z (mergeInsertionSort [4; 5; 1; 3; 6; 2; 7]) []).1 = l ++ []
    /\ (run compare_Z (testComp 13 (test_init (Some []))
                         (mergeInsertionSort [4; 5; 1; 3; 6; 2; 7])) []).1
       = l ++ []
    /\ match (run compare_Z (mergeInsertionSort [4; 5; 1; 3; 6; 2; 7]) []).2 with
       | Returned result =>
           exists st',
             (run compare_Z (testComp 13 (test_init (Some []))
                               (mergeInsertionSort [4; 5; 1; 3; 6; 2; 7])) []).2
               = Returned (inr result, st')
             /\ warnings st' = 0%nat
             /\ log st' = (fun l0 => l0 ++ reverse l) <$> Some []
       | Thrown e =>
           (run compare_Z (testComp 13 (test_init (Some []))
                             (mergeInsertionSort [4; 5; 1; 3; 6; 2; 7])) []).2
             = Thrown e
       | Rejected =>
           (run compare_Z (testComp 13 (test_init (Some []))
                             (mergeInsertionSort [4; 5; 1; 3; 6; 2; 7])) []).2
             = Rejected
       end.
Proof.
  apply (sort_under_testComp compare_Z 13 (Some []) [4; 5; 1; 3; 6; 2; 7] []).
  - apply test_array_NoDup.
  - vm_compute. reflexivity.
Defined.

(** The checks of the tests, on the calls of the test 'testComp': two
    calls pass, the call for two equal items and the calls for a pair
    that was seen are rejected; [testComparator] rejects the third
    call. *)
Example testComp_checks :
  let comp : @Comparator Z := fun _ _ _ => Some false in
  let calls3 (a b : Z) : Prog bool :=
    Await 1 2 (fun _ => Await 1 3 (fun _ => Await a b Ret)) in
  let seen : list (Z * list (Z * unit)) := [(1, [(2, ()); (3, ())])] in
  (run comp (testComp 2 (test_init (Some [])) (calls3 1 1)) []).2
  = Returned (inl ErrEqualItems,
              {| callCount := 2; pairMap := seen;
                 log := Some [(1, 2); (1, 3)]; warnings := 0 |})
  /\ (run comp (testComp 2 (test_init None) (calls3 2 1)) []).2
     = Returned (inl ErrDuplicateComparison,
                 {| callCount := 2; pairMap := seen; log := None;
                    warnings := 0 |})
  /\ (run comp (testComp 2 (test_init None) (calls3 1 3)) []).2
     = Returned (inl ErrDuplicateComparison,
                 {| callCount := 2; pairMap := seen; log := None;
                    warnings := 0 |})
  /\ (run comp (testComparator 2 (test_init None) (calls3 8 9)) []).2
     = Returned (inl ErrTooManyCalls,
                 {| callCount := 3; pairMap := seen ++ [(8, [(9, ())])];
                    log := None; warnings := 0 |}).
Proof. vm_compute. done. Qed.

(** ** The helpers of the tests *)
Example xorshift32_first :
  take_values xorshift32_next 8 xorshift32
  = [723471715; 2497366906; 2064144800; 2008045182; 3532304609; 374114282;
     1350636274; 691148861].
Proof. vm_compute. reflexivity. Qed.

Example fisherYates_wikipedia :
  fisherYates list_next ["E"; "L"; "V"; "I"; "S"]%string [4; 0; 2; 0]
  = Some (["L"; "I"; "V"; "E"; "S"]%string, [])
  /\ fisherYates list_next ["A"; "B"; "C"; "D"; "E"; "F"; "G"; "H"]%string
       [5; 1; 5; 0; 2; 2; 0]
     = Some (["G"; "E"; "D"; "C"; "A"; "H"; "B"; "F"]%string, []).
Proof. vm_compute. done. Qed.

Example permutations_three :
  permutations ["A"; "B"; "C"]%string
  = Some [["A"; "B"; "C"]; ["B"; "A"; "C"]; ["C"; "A"; "B"]; ["A"; "C"; "B"];
          ["B"; "C"; "A"]; ["C"; "B"; "A"]]%string
  /\ permutations (@nil Z) = Some [[]]
  /\ (length <$> permutations [1; 2; 3; 4; 5]) = Some 120%nat.
Proof. vm_compute. done. Qed.

(** *** [xorshift32] *)
Section Xorshift.

Lemma asUintN_range (y : Z) : 0 <= asUintN 32 y < 2 ^ 32.
Proof. unfold asUintN. apply Z.mod_pos_bound. lia. Qed.

Lemma asUintN_high (y : Z) : high_bits_clear (asUintN 32 y).
Proof.
  intros i Hi. unfold asUintN. by rewrite Z.mod_pow2_bits_high by lia.
Qed.

Lemma bits_below (y s : Z) (n : nat) :
  0 < s ->
  (forall i, 0 <= i < 32 -> Z.testbit y i = Z.testbit y (i - s)) ->
  forall i, i < Z.of_nat n -> i < 32 -> Z.testbit y i = false.
Proof.
  intros Hs Hbits. induction n as [|n IH]; intros i Hn Hi.
  - apply Z.testbit_neg_r. lia.
  - destruct (Z.lt_ge_cases i 0) as [Hneg|Hnn]; [by apply Z.testbit_neg_r|].
    rewrite Hbits by lia. apply IH; lia.
Qed.

(** [y ^= y << s], cut to 32 bits, is 0 only for [y = 0]. *)
Lemma xor_shiftl_zero (y s : Z) :
  0 < s -> high_bits_clear y -> asUintN 32 (Z.lxor y (Z.shiftl y s)) = 0 -> y = 0.
Proof.
  intros Hs Hhigh Hzero. apply Z.bits_inj_0. intros i.
  destruct (Z.lt_ge_cases i 32) as [Hi|Hi]; [|by apply Hhigh].
  apply (bits_below y s (Z.to_nat 32)); [done| |lia|done].
  intros j Hj.
  assert (Z.testbit (asUintN 32 (Z.lxor y (Z.shiftl y s))) j = false) as Hbit
    by (rewrite Hzero; apply Z.bits_0).
  unfold asUintN in Hbit.
  rewrite Z.mod_pow2_bits_low, Z.lxor_spec, Z.shiftl_spec in Hbit by lia.
  by apply xorb_eq in Hbit.
Qed.

(** [y ^= y >> s] is 0 only for [y = 0]. *)
Lemma xor_shiftr_zero (y s : Z) :
  0 < s -> high_bits_clear y -> Z.lxor y (Z.shiftr y s) = 0 -> y = 0.
Proof.
  intros Hs Hhigh Hzero. apply Z.bits_inj_0.
  assert (forall i, 0 <= i -> Z.testbit y i = Z.testbit y (i + s)) as Hbits.
  { intros i Hi.
    assert (Z.testbit (Z.lxor y (Z.shiftr y s)) i = false) as Hbit
      by (rewrite Hzero; apply Z.bits_0).
    rewrite Z.lxor_spec, Z.shiftr_spec in Hbit by lia.
    by apply xorb_eq in Hbit. }
  assert (forall (n : nat) i, 32 - Z.of_nat n <= i -> Z.testbit y i = false)
    as Hall.
  { induction n as [|n IH]; intros i Hi; [apply Hhigh; lia|].
    destruct (Z.lt_ge_cases i 0) as [Hneg|Hnn]; [by apply Z.testbit_neg_r|].
    rewrite Hbits by done. apply IH. lia. }
  intros i.
  destruct (Z.lt_ge_cases i 0) as [Hneg|Hnn]; [by apply Z.testbit_neg_r|].
  apply (Hall (Z.to_nat 32)). lia.
Qed.

Lemma xor_shiftr_high (y s : Z) :
  0 <= s -> high_bits_clear y -> high_bits_clear (Z.lxor y (Z.shiftr y s)).
Proof.
  intros Hs Hhigh i Hi. rewrite Z.lxor_spec, Z.shiftr_spec by lia.
  by rewrite !Hhigh by lia.
Qed.

Lemma xorshift32_next_range (y : Z) :
  0 < y < 2 ^ 32 ->
  (xorshift32_next y).1 = (xorshift32_next y).2
  /\ 0 < (xorshift32_next y).1 < 2 ^ 32.
Proof.
  intros Hy. split; [done|]. unfold xorshift32_next. cbn [fst].
  pose proof (asUintN_range
    (Z.lxor (Z.lxor (asUintN 32 (Z.lxor y (Z.shiftl y 13)))
                    (Z.shiftr (asUintN 32 (Z.lxor y (Z.shiftl y 13))) 17))
            (Z.shiftl (Z.lxor (asUintN 32 (Z.lxor y (Z.shiftl y 13)))
                         (Z.shiftr (asUintN 32 (Z.lxor y (Z.shiftl y 13))) 17))
               5))) as Hrange.
  enough (asUintN 32
    (Z.lxor (Z.lxor (asUintN 32 (Z.lxor y (Z.shiftl y 13)))
                    (Z.shiftr (asUintN 32 (Z.lxor y (Z.shiftl y 13))) 17))
            (Z.shiftl (Z.lxor (asUintN 32 (Z.lxor y (Z.shiftl y 13)))
                         (Z.shiftr (asUintN 32 (Z.lxor y (Z.shiftl y 13))) 17))
               5)) <> 0) by lia.
  intros H3.
  apply xor_shiftl_zero in H3; [|lia|apply xor_shiftr_high; [lia|apply asUintN_high]].
  apply xor_shiftr_zero in H3; [|lia|apply asUintN_high].
  apply xor_shiftl_zero in H3; [lia|lia|].
  intros i Hi. apply Z.bits_above_log2; [lia|].
  assert (Z.log2 y < 32) by (apply Z.log2_lt_pow2; lia). lia.
Qed.

End Xorshift.

(** Every number that [xorshift32] yields is an integer from 1 to
    [2^32 - 1]: the generator never yields 0 (after which it would yield
    nothing else) and nothing outside of 32 bits. *)
Theorem xorshift32_values (n : nat) :
  Forall (fun v => 0 < v < 2 ^ 32) (take_values xorshift32_next n xorshift32).
Proof.
  assert (forall y, 0 < y < 2 ^ 32 ->
            Forall (fun v => 0 < v < 2 ^ 32) (take_values xorshift32_next n y))
    as Hall.
  { induction n as [|n IH]; intros y Hy; [constructor|].
    cbn [take_values]. pose proof (xorshift32_next_range y Hy) as [Heq Hr].
    destruct (xorshift32_next y) as [v y']. simpl in *. subst y'.
    constructor; [done|by apply IH]. }
  apply Hall. unfold xorshift32. lia.
Qed.

(** *** [fisherYates] *)
Section FisherYates.
Context {G : Type} (next : G -> Z * G).

Lemma fisherYates_loop_spec {A} (i : nat) : forall (array : list A) random,
  (i = 0 \/ i < length array)%nat ->
  Forall (fun v => 0 <= v) (take_values next i random) ->
  exists array',
    fisherYates_loop next i array random
      = Some (array', after_values next i random)
    /\ array' ≡ₚ array.
Proof.
  induction i as [|i IH]; intros array random Hi Hvalues.
  { by exists array. }
  destruct Hi as [|Hi]; [done|].
  cbn [fisherYates_loop take_values after_values] in *.
  destruct (next random) as [r random'].
  apply Forall_cons in Hvalues as [Hr Hvalues]. simpl.
  pose proof (Z.rem_bound_pos r (Z.of_nat (length array))) as Hj.
  destruct (Z.ltb_spec (Z.rem r (Z.of_nat (length array))) 0) as [|_]; [lia|].
  destruct (lookup_lt_is_Some_2 array (Z.to_nat (Z.rem r (Z.of_nat (length array)))))
    as [aj Haj]; [lia|].
  destruct (lookup_lt_is_Some_2 array (S i)) as [ai Hai]; [done|].
  rewrite Haj, Hai. simpl.
  destruct (IH (<[Z.to_nat (Z.rem r (Z.of_nat (length array))) := ai]>
                  (<[S i := aj]> array)) random') as (array' & -> & Hperm).
  { right. rewrite !length_insert. lia. }
  { done. }
  exists array'. split; [done|].
  rewrite Hperm. by apply Permutation_insert_swap.
Qed.

End FisherYates.

(** [fisherYates] only moves the items: when the random numbers that it
    draws are not negative, the array holds afterwards the items that it
    held, in some order, and the generator has yielded one number for
    each item but one (none for an array of no item or one item). *)
Theorem fisherYates_shuffles {G : Type} (next : G -> Z * G) {A}
    (array : list A) (random : G) :
  Forall (fun v => 0 <= v) (take_values next (length array - 1) random) ->
  exists array',
    fisherYates next array random
      = Some (array', after_values next (length array - 1) random)
    /\ array' ≡ₚ array
    /\ length array' = length array.
Proof.
  intros Hvalues.
  destruct (fisherYates_loop_spec next (length array - 1) array random)
    as (array' & Hrun & Hperm); [lia|done|].
  exists array'. split; [done|]. split; [done|]. by rewrite Hperm.
Qed.

Lemma fisherYates_shuffles_witness :
  exists array',
    fisherYates xorshift32_next ["A"; "B"; "C"]%string xorshift32
      = Some (array', after_values xorshift32_next
                        (length ["A"; "B"; "C"]%string - 1) xorshift32)
    /\ array' ≡ₚ ["A"; "B"; "C"]%string
    /\ length array' = length ["A"; "B"; "C"]%string.
Proof.
  apply (fisherYates_shuffles xorshift32_next ["A"; "B"; "C"]%string xorshift32).
  vm_compute. repeat constructor; discriminate.
Defined.

(** *** [permutations] *)

(** Case analysis on the tests of the position maps, contradictory cases
    closed as they come up. *)
Ltac position_cases :=
  repeat (case_decide; try (exfalso; lia)); try lia.

Section HeapArith.
Local Open Scope nat_scope.

Lemma even_cases (k : nat) : Nat.odd k = false -> 1 <= k -> k = 2 \/ 4 <= k.
Proof.
  destruct k as [|[|[|[|k]]]]; simpl; intros Hk Hle; try discriminate; lia.
Qed.

Lemma odd_cases (k : nat) : Nat.odd k = true -> k = 1 \/ 3 <= k.
Proof. destruct k as [|[|[|k]]]; simpl; intros Hk; try discriminate; lia. Qed.

Lemma odd_S (t : nat) : Nat.odd (S t) = negb (Nat.odd t).
Proof. by rewrite Nat.odd_succ, <- Nat.negb_odd. Qed.

Lemma transp_lt (i j x n : nat) : i < n -> j < n -> x < n -> transp i j x < n.
Proof. unfold transp. intros. position_cases. Qed.

Lemma transp_fix (i j x : nat) : x <> i -> x <> j -> transp i j x = x.
Proof. unfold transp. intros. position_cases. Qed.

Lemma heap_final_fix (k x : nat) : k <= x -> 1 <= k -> heap_final k x = x.
Proof.
  intros Hx Hk. unfold heap_final, transp.
  destruct (Nat.odd k) eqn:Hodd; [position_cases|].
  destruct (even_cases k Hodd Hk); position_cases.
Qed.

Lemma heap_final_below (k x : nat) : x < k -> heap_final k x < k.
Proof.
  intros Hx. unfold heap_final, transp.
  destruct (Nat.odd k) eqn:Hodd; [position_cases|].
  destruct (even_cases k Hodd) as [->|Hk]; [lia| |]; position_cases.
Qed.

Lemma heap_final_lt (k x n : nat) : 1 <= k <= n -> x < n -> heap_final k x < n.
Proof.
  intros Hk Hx. destruct (decide (x < k)) as [Hlt|Hge].
  - pose proof (heap_final_below k x Hlt). lia.
  - rewrite heap_final_fix by lia. lia.
Qed.

Lemma heap_round_fix (k t x : nat) :
  1 <= k -> t <= k -> k < x -> heap_round k t x = x.
Proof.
  intros Hk. induction t as [|t IH]; intros Ht Hx; [done|].
  cbn [heap_round]. rewrite transp_fix, heap_final_fix by (try case_match; lia).
  apply IH; lia.
Qed.

Lemma heap_round_below (k t x : nat) :
  1 <= k -> t <= k -> x <= k -> heap_round k t x <= k.
Proof.
  intros Hk. revert x. induction t as [|t IH]; intros x Ht Hx; [done|].
  cbn [heap_round]. apply IH; [lia|].
  assert (transp (if Nat.odd k then t else 0) k x <= k) as Htr.
  { unfold transp. repeat case_decide; try case_match; lia. }
  destruct (decide (transp (if Nat.odd k then t else 0) k x = k)) as [->|Hne].
  - rewrite heap_final_fix; lia.
  - pose proof (heap_final_below k (transp (if Nat.odd k then t else 0) k x)).
    lia.
Qed.

Lemma heap_round_lt (k t x n : nat) :
  1 <= k < n -> t <= k -> x < n -> heap_round k t x < n.
Proof.
  intros Hk Ht Hx. destruct (decide (x <= k)) as [Hle|Hgt].
  - pose proof (heap_round_below k t x). lia.
  - rewrite heap_round_fix; lia.
Qed.

(** The rounds for an odd [k]. *)
Lemma heap_round_odd (k t : nat) : forall x,
  Nat.odd k = true -> t <= k ->
  heap_round k t x
  = if decide (t = 0) then x
    else if decide (t = k) then
      (if decide (x = 0) then k
       else if decide (x = k) then 0
       else if decide (x = 1) then k - 1
       else if decide (x <= k - 1) then x - 1
       else x)
    else
      (if decide (x = 0) then (if Nat.odd t then k else 0)
       else if decide (x = k - 1) then (if Nat.odd t then 0 else k)
       else if decide (x = k) then (if decide (t = 1) then k - 1 else t - 1)
       else if decide (x <= k - 2) then
         (if decide (x < t) then (if decide (x = 1) then k - 1 else x - 1)
          else x)
       else x).
Proof.
  intros x Hk. revert x. induction t as [|t IH]; intros x Ht; [done|].
  cbn [heap_round]. rewrite Hk, IH by lia.
  unfold heap_final. rewrite Hk. unfold transp. rewrite odd_S.
  assert (Nat.odd t = true -> t <> 0 /\ S t <> k) as H1.
  { intros Hodd. split; [by intros ->|].
    intros <-. rewrite odd_S, Hodd in Hk. discriminate. }
  assert (Nat.odd t = false -> t <> 1) as H2 by (by intros Hodd ->).
  destruct (odd_cases k Hk) as [Hk1|Hk3].
  - subst k. assert (t = 0) as -> by lia. simpl. position_cases.
  - destruct (Nat.odd t) eqn:Hodd;
      [destruct (H1 eq_refl)|pose proof (H2 eq_refl)]; simpl;
      position_cases.
Qed.

(** The rounds for an even [k >= 4]: one round moves each position one
    place along the cycle. *)
Lemma heap_pos_rank (k x : nat) : 4 <= k -> x <= k -> heap_pos k (heap_rank k x) = x.
Proof. intros. unfold heap_pos, heap_rank. position_cases. Qed.

Lemma heap_rank_le (k x : nat) : 4 <= k -> x <= k -> heap_rank k x <= k.
Proof. intros. unfold heap_rank. position_cases. Qed.

Lemma heap_rank_step (k x : nat) :
  Nat.odd k = false -> 4 <= k -> x <= k ->
  heap_final k (transp 0 k x) <= k
  /\ heap_rank k (heap_final k (transp 0 k x))
     = if decide (heap_rank k x = k) then 0 else S (heap_rank k x).
Proof.
  intros Hk Hk4 Hx. unfold heap_final, heap_rank, transp. rewrite Hk.
  split; position_cases.
Qed.

Lemma heap_round_even (k t : nat) : forall x,
  Nat.odd k = false -> 4 <= k -> t <= k -> x <= k ->
  heap_round k t x
  = heap_pos k (if decide (heap_rank k x + t <= k) then heap_rank k x + t
                else heap_rank k x + t - S k).
Proof.
  intros x Hk Hk4. revert x. induction t as [|t IH]; intros x Ht Hx.
  { rewrite Nat.add_0_r. pose proof (heap_rank_le k x Hk4 Hx).
    rewrite decide_True by lia. by rewrite heap_pos_rank. }
  cbn [heap_round]. rewrite Hk.
  destruct (heap_rank_step k x Hk Hk4 Hx) as [Hle Hrank].
  rewrite IH, Hrank by (lia || done).
  pose proof (heap_rank_le k x Hk4 Hx). f_equal.
  position_cases.
Qed.

Lemma heap_round_two (t x : nat) :
  t <= 2 -> x <= 2 ->
  heap_round 2 t x
  = if decide (x + 3 - t <= 2) then x + 3 - t else x - t.
Proof.
  intros Ht Hx.
  destruct t as [|[|[|t]]]; [| | |lia];
    destruct x as [|[|[|x]]]; try lia; reflexivity.
Qed.

(** The items that the rounds bring to the index [k] come from
    different positions. *)
Lemma heap_round_distinct (k s t : nat) :
  1 <= k -> s <= k -> t <= k -> s <> t ->
  heap_round k s k <> heap_round k t k.
Proof.
  intros Hk Hs Ht Hst. destruct (Nat.odd k) eqn:Hodd.
  - rewrite !heap_round_odd by done.
    destruct (odd_cases k Hodd); position_cases.
  - destruct (even_cases k Hodd Hk) as [->|Hk4].
    + rewrite !heap_round_two by lia. position_cases.
    + rewrite !heap_round_even by (done || lia).
      unfold heap_pos, heap_rank. position_cases.
Qed.

Lemma heap_final_odd (k x : nat) :
  Nat.odd k = true -> heap_final k x = transp 0 (k - 1) x.
Proof. intros Hk. unfold heap_final. by rewrite Hk. Qed.

Lemma heap_final_even (k x : nat) :
  Nat.odd k = false ->
  heap_final k x
  = if decide (k = 2) then transp 0 1 x
    else if decide (x = 0) then k - 3
    else if decide (x = 1) then k - 2
    else if decide (x <= k - 3) then x - 1
    else if decide (x = k - 2) then k - 1
    else if decide (x = k - 1) then 0
    else x.
Proof. intros Hk. unfold heap_final. by rewrite Hk. Qed.

(** After the last round and one more pass over the first [k] items, the
    items are where the work on [k + 1] items leaves them. *)
Lemma heap_round_final (k x : nat) :
  1 <= k -> heap_round k k (heap_final k x) = heap_final (S k) x.
Proof.
  intros Hk. destruct (decide (x <= k)) as [Hx|Hx]; cycle 1.
  { rewrite (heap_final_fix k), (heap_final_fix (S k)) by lia.
    apply heap_round_fix; lia. }
  assert (heap_final k x <= k) as Hfx.
  { destruct (decide (x = k)) as [->|Hne]; [by rewrite heap_final_fix|].
    pose proof (heap_final_below k x). lia. }
  destruct (Nat.odd k) eqn:Hodd.
  - rewrite heap_round_odd by done.
    rewrite (heap_final_even (S k)) by (by rewrite odd_S, Hodd).
    rewrite heap_final_odd by done. unfold transp.
    destruct (odd_cases k Hodd); position_cases.
  - destruct (even_cases k Hodd Hk) as [->|Hk4].
    + rewrite heap_round_two by lia.
      destruct x as [|[|[|x]]]; try lia; reflexivity.
    + rewrite heap_round_even by (done || lia).
      rewrite (heap_final_odd (S k)) by (by rewrite odd_S, Hodd).
      rewrite heap_final_even by done.
      unfold heap_pos, heap_rank, transp. simpl. rewrite Nat.sub_0_r.
      position_cases.
Qed.

End HeapArith.

Section HeapLoop.
Local Open Scope nat_scope.
Context {A : Type}.
Implicit Types (a o : list A) (c : list nat) (outs : list (list A)).

Lemma arr_map_ext (f g : nat -> nat) a a' :
  (forall i, i < length a -> f i = g i) -> arr_map f a a' -> arr_map g a a'.
Proof.
  intros Hfg [Hlen Hf]. split; [done|]. intros i Hi.
  by rewrite Hf, Hfg by done.
Qed.

Lemma arr_map_compose (f g : nat -> nat) a a' a'' :
  (forall i, i < length a -> g i < length a) ->
  arr_map f a a' -> arr_map g a' a'' -> arr_map (fun x => f (g x)) a a''.
Proof.
  intros Hg [Hlen Hf] [Hlen' Hg']. split; [congruence|]. intros i Hi.
  rewrite Hg' by lia. apply Hf. by apply Hg.
Qed.

Lemma arr_map_swap a (i j : nat) (x y : A) :
  a !! i = Some x -> a !! j = Some y ->
  arr_map (transp i j) a (<[i := y]> (<[j := x]> a)).
Proof.
  intros Hi Hj. split; [by rewrite !length_insert|]. intros m Hm.
  unfold transp. destruct (decide (m = i)) as [->|Hmi].
  - rewrite list_lookup_insert_eq by (by rewrite length_insert). done.
  - rewrite list_lookup_insert_ne by done.
    destruct (decide (m = j)) as [->|Hmj].
    + by rewrite list_lookup_insert_eq.
    + by rewrite list_lookup_insert_ne.
Qed.

Lemma arr_map_lookup_ge (f : nat -> nat) a a' (i : nat) :
  arr_map f a a' -> (forall m, m < length a -> i <= m -> f m = m) ->
  forall m, i <= m -> a' !! m = a !! m.
Proof.
  intros [Hlen Hf] Hfix m Hm. destruct (decide (m < length a)) as [Hlt|Hge].
  - by rewrite Hf, Hfix.
  - by rewrite !lookup_ge_None_2 by lia.
Qed.

(** Arrays that hold at one index the items of different positions of an
    array without duplicates are different. *)
Lemma lookup_distinct a o o' (k i j : nat) :
  NoDup a -> i < length a -> j < length a -> i <> j ->
  o !! k = a !! i -> o' !! k = a !! j -> o <> o'.
Proof.
  intros Hnd Hi Hj Hij Ho Ho' ->.
  destruct (lookup_lt_is_Some_2 a i Hi) as [x Hx].
  rewrite Ho, Hx in Ho'. symmetry in Ho'.
  by apply Hij, (NoDup_lookup a i j x).
Qed.

Lemma loop_step_swap (fuel : nat) c a (i ci : nat) (ai aj : A) :
  i < length a -> c !! i = Some ci -> ci < i ->
  a !! i = Some ai -> a !! (if Nat.odd i then ci else 0) = Some aj ->
  permutations_loop (S fuel) c a i
  = (fun rest => <[i := aj]> (<[(if Nat.odd i then ci else 0) := ai]> a) :: rest)
      <$> permutations_loop fuel (<[i := S ci]> c)
            (<[i := aj]> (<[(if Nat.odd i then ci else 0) := ai]> a)) 1.
Proof.
  intros Hi Hc Hci Hai Haj. cbn [permutations_loop].
  rewrite (proj2 (Nat.ltb_lt _ _) Hi), Hc. simpl.
  rewrite (proj2 (Nat.ltb_lt _ _) Hci), Hai. simpl. rewrite Haj. simpl.
  by destruct (permutations_loop _ _ _ _).
Qed.

Lemma loop_step_next (fuel : nat) c a (i : nat) :
  i < length a -> c !! i = Some i ->
  permutations_loop (S fuel) c a i
  = permutations_loop fuel (<[i := 0]> c) a (S i).
Proof.
  intros Hi Hc. cbn [permutations_loop].
  rewrite (proj2 (Nat.ltb_lt _ _) Hi), Hc. simpl.
  by rewrite Nat.ltb_irrefl.
Qed.

Lemma loop_end (fuel : nat) c a (i : nat) :
  length a <= i -> permutations_loop fuel c a i = Some [].
Proof.
  intros Hi. destruct fuel; cbn [permutations_loop];
    by rewrite (proj2 (Nat.ltb_ge _ _) Hi).
Qed.

Lemma transp_comm (i j x : nat) : transp i j x = transp j i x.
Proof. unfold transp. repeat case_decide; lia. Qed.

Lemma fmap_app_id {B} (x : option (list B)) : (fun rest => [] ++ rest) <$> x = x.
Proof. by destruct x. Qed.

Lemma fmap_app_app {B} (l1 l2 : list B) (x : option (list B)) :
  (fun rest => l1 ++ rest) <$> ((fun rest => l2 ++ rest) <$> x)
  = (fun rest => (l1 ++ l2) ++ rest) <$> x.
Proof. destruct x; simpl; [|done]. by rewrite app_assoc. Qed.

Lemma heap_rounds (k : nat) :
  1 <= k -> phase_spec (A := A) k ->
  forall (m t : nat) c a0 a,
    t + m = k -> k < length a0 -> length c = length a0 ->
    c !! k = Some t -> (forall j, 1 <= j < k -> c !! j = Some 0) ->
    arr_map (fun x => heap_round k t (heap_final k x)) a0 a -> a ≡ₚ a0 ->
    exists outs a',
      (forall fuel,
         permutations_loop (m * (1 + heap_steps k) + 1 + fuel) c a k
         = (fun rest => outs ++ rest)
             <$> permutations_loop fuel (<[k := 0]> c) a' (S k))
      /\ length outs = m * fact k
      /\ arr_map (heap_final (S k)) a0 a'
      /\ a' ≡ₚ a0
      /\ Forall (fun o => o ≡ₚ a0
                  /\ (forall i, S k <= i -> o !! i = a0 !! i)
                  /\ exists s, t < s <= k /\ o !! k = a0 !! heap_round k s k) outs
      /\ (NoDup a0 -> NoDup outs).
Proof.
  intros Hk IHk. induction m as [|m IH];
    intros t c a0 a Htm Hlen Hc Hct Hzero Hmap Hperm.
  - assert (t = k) as -> by lia. exists [], a.
    assert (length a = length a0) as Hla by (by destruct Hmap).
    split; [|split; [done|split; [|split; [done|split; constructor]]]].
    + intros fuel. replace (0 * (1 + heap_steps k) + 1 + fuel) with (S fuel) by lia.
      rewrite loop_step_next by (done || lia). by rewrite fmap_app_id.
    + eapply arr_map_ext; [|done]. intros i _. by apply heap_round_final.
  - assert (length a = length a0) as Hla by (by destruct Hmap).
    set (j := if Nat.odd k then t else 0).
    assert (j < k) as Hj by (unfold j; destruct (Nat.odd k); lia).
    destruct (lookup_lt_is_Some_2 a k) as [ak Hak]; [lia|].
    destruct (lookup_lt_is_Some_2 a j) as [aj Haj]; [lia|].
    set (a1 := <[k := aj]> (<[j := ak]> a)).
    set (c1 := <[k := S t]> c).
    assert (a1 ≡ₚ a0) as Hperm1.
    { rewrite <- Hperm. unfold a1.
      rewrite list_insert_insert_ne by lia.
      by apply Permutation_insert_swap. }
    assert (arr_map (heap_round k (S t)) a0 a1) as Hmap1.
    { assert (arr_map (fun x => heap_round k t (heap_final k (transp k j x))) a0 a1)
        as Hm.
      { apply (arr_map_compose (fun x => heap_round k t (heap_final k x))
                 (transp k j) a0 a a1); [|exact Hmap|by apply arr_map_swap].
        intros i Hi. apply transp_lt; lia. }
      eapply arr_map_ext; [|exact Hm].
      intros i _. cbn [heap_round]. fold j. by rewrite transp_comm. }
    assert (length a1 = length a0) as Hla1 by (by destruct Hmap1).
    destruct (IHk c1 a1) as (outs1 & a1' & Hrun1 & Hlen1 & Hmap1' & Hperm1' & Hall1 & Hnd1).
    { lia. }
    { unfold c1. rewrite length_insert. lia. }
    { intros i Hi. unfold c1. rewrite list_lookup_insert_ne by lia. by apply Hzero. }
    destruct (IH (S t) c1 a0 a1') as (outs2 & a' & Hrun2 & Hlen2 & Hmap2 & Hperm2 & Hall2 & Hnd2).
    { lia. }
    { done. }
    { unfold c1. by rewrite length_insert. }
    { unfold c1. apply list_lookup_insert_eq. lia. }
    { intros i Hi. unfold c1. rewrite list_lookup_insert_ne by lia. by apply Hzero. }
    { apply (arr_map_compose (heap_round k (S t)) (heap_final k) a0 a1 a1');
        [|exact Hmap1|exact Hmap1'].
      intros i Hi. apply heap_final_lt; lia. }
    { by rewrite Hperm1'. }
    assert (forall i, S k <= i -> a1 !! i = a0 !! i) as Hhigh1.
    { apply (arr_map_lookup_ge (heap_round k (S t))); [done|].
      intros i _ Hi. apply heap_round_fix; lia. }
    assert (a1 !! k = a0 !! heap_round k (S t) k) as Hk1.
    { destruct Hmap1 as [_ Hm]. apply Hm. lia. }
    assert (Forall (fun o => o ≡ₚ a0
              /\ (forall i, S k <= i -> o !! i = a0 !! i)
              /\ o !! k = a0 !! heap_round k (S t) k) (a1 :: outs1)) as Hblock.
    { constructor; [done|]. eapply Forall_impl; [exact Hall1|]. simpl.
      intros o [Ho Hi]. split; [by rewrite Ho|]. split.
      - intros i Hi'. rewrite Hi by lia. by apply Hhigh1.
      - by rewrite Hi by lia. }
    exists (a1 :: outs1 ++ outs2), a'.
    split; [|split; [|split; [done|split; [done|split]]]].
    + intros fuel.
      replace (S m * (1 + heap_steps k) + 1 + fuel)
        with (S (heap_steps k + (m * (1 + heap_steps k) + 1 + fuel))) by lia.
      rewrite (loop_step_swap _ c a k t ak aj) by (done || lia).
      fold j a1 c1. rewrite Hrun1, Hrun2.
      unfold c1. rewrite list_insert_insert_eq.
      by destruct (permutations_loop fuel _ a' (S k)); simpl;
        [rewrite <- app_assoc|].
    + cbn [length]. rewrite length_app, Hlen2. lia.
    + change (a1 :: outs1 ++ outs2) with ((a1 :: outs1) ++ outs2).
      apply Forall_app. split.
      * eapply Forall_impl; [exact Hblock|]. simpl.
        intros o (? & ? & ?). split; [done|]. split; [done|].
        exists (S t). split; [lia|done].
      * eapply Forall_impl; [exact Hall2|]. simpl.
        intros o (? & ? & s & ? & ?). split; [done|]. split; [done|].
        exists s. split; [lia|done].
    + intros Hnd. change (a1 :: outs1 ++ outs2) with ((a1 :: outs1) ++ outs2).
      apply NoDup_app. split; [apply Hnd1; by rewrite Hperm1|].
      split; [|by apply Hnd2].
      intros o Ho Ho'. rewrite Forall_forall in Hblock, Hall2.
      destruct (Hblock o Ho) as (_ & _ & Hok).
      destruct (Hall2 o Ho') as (_ & _ & s & Hs & Hok').
      apply (lookup_distinct a0 o o k (heap_round k (S t) k) (heap_round k s k));
        [done|apply heap_round_lt; lia|apply heap_round_lt; lia
        |apply heap_round_distinct; lia|done|done|done].
Qed.

Lemma heap_phase (k : nat) : 1 <= k -> phase_spec (A := A) k.
Proof.
  induction k as [|k IH]; [lia|]. intros _.
  destruct (decide (k = 0)) as [->|Hk0].
  { intros c a Hlen Hc Hzero. exists [], a.
    split; [|split; [done|split; [|split; [done|split; [constructor|]]]]].
    - intros fuel. simpl. by rewrite fmap_app_id.
    - split; [done|]. intros i _. unfold heap_final, transp. simpl.
      repeat case_decide; by subst.
    - intros Hnd. apply NoDup_singleton. }
  assert (1 <= k) as Hk by lia. specialize (IH Hk).
  intros c a Hlen Hc Hzero.
  destruct (IH c a) as (outs0 & a0 & Hrun0 & Hlen0 & Hmap0 & Hperm0 & Hall0 & Hnd0);
    [lia|done|by intros j Hj; apply Hzero; lia|].
  assert (c !! k = Some 0) as Hck by (apply Hzero; lia).
  destruct (heap_rounds k Hk IH k 0 c a a0)
    as (outsR & a' & HrunR & HlenR & Hmap & Hperm & HallR & HndR);
    [lia|lia|done|done|by intros j Hj; apply Hzero; lia|exact Hmap0|done|].
  exists (outs0 ++ outsR), a'.
  split; [|split; [|split; [done|split; [done|split]]]].
  - intros fuel.
    replace (heap_steps (S k) + fuel)
      with (heap_steps k + (k * (1 + heap_steps k) + 1 + fuel))
      by (destruct k; [lia|cbn [heap_steps]; lia]).
    rewrite Hrun0, HrunR, (list_insert_id c k 0) by done.
    apply fmap_app_app.
  - rewrite length_app, HlenR. cbn [fact]. lia.
  - apply Forall_app. split.
    + eapply Forall_impl; [exact Hall0|]. simpl. intros o [Ho Hi].
      split; [done|]. intros i Hi'. apply Hi. lia.
    + eapply Forall_impl; [exact HallR|]. simpl. by intros o (? & ? & _).
  - intros Hnd. change (a :: outs0 ++ outsR) with ((a :: outs0) ++ outsR).
    apply NoDup_app. split; [by apply Hnd0|]. split; [|by apply HndR].
    intros o Ho Ho'. rewrite Forall_forall in Hall0, HallR.
    destruct (HallR o Ho') as (_ & _ & s & Hs & Hok').
    assert (o !! k = a !! heap_round k 0 k) as Hok.
    { apply elem_of_cons in Ho as [->|Ho]; [done|].
      destruct (Hall0 o Ho) as [_ Hi]. by apply Hi. }
    apply (lookup_distinct a o o k (heap_round k 0 k) (heap_round k s k));
      [done|apply heap_round_lt; lia|apply heap_round_lt; lia
      |apply heap_round_distinct; lia|done|done|done].
Qed.

Lemma heap_steps_le (k : nat) : heap_steps k + 1 <= fact (S k).
Proof.
  induction k as [|k IH]; [simpl; lia|].
  destruct k as [|k]; [simpl; lia|].
  change (heap_steps (S (S k)))
    with (heap_steps (S k) + S k * (1 + heap_steps (S k)) + 1).
  change (fact (S (S (S k)))) with (S (S (S k)) * fact (S (S k))).
  nia.
Qed.

Lemma permutations_spec (array : list A) :
  exists outs,
    permutations array = Some (array :: outs)
    /\ S (length outs) = fact (length array)
    /\ Forall (fun o => o ≡ₚ array) outs
    /\ (NoDup array -> NoDup (array :: outs)).
Proof.
  destruct (decide (length array = 0)) as [Hnil|Hlen].
  { destruct array; [|done]. exists []. split; [done|]. split; [done|].
    split; [constructor|]. intros _. apply NoDup_singleton. }
  destruct (heap_phase (length array) ltac:(lia)
              (replicate (length array) 0) array)
    as (outs & a' & Hrun & Hcount & [Hla _] & _ & Hall & Hnd).
  { done. }
  { by rewrite length_replicate. }
  { intros j Hj. apply lookup_replicate_2. lia. }
  exists outs. split; [|split; [done|split; [|done]]].
  - unfold permutations. pose proof (heap_steps_le (length array)).
    replace (fact (S (length array)))
      with (heap_steps (length array)
            + (fact (S (length array)) - heap_steps (length array))) by lia.
    rewrite Hrun, loop_end by lia. simpl. by rewrite app_nil_r.
  - eapply Forall_impl; [exact Hall|]. simpl. by intros o [? _].
Qed.

(** Each array that the loop yields is the one before it with two items
    exchanged. *)
Lemma loop_chain (fuel : nat) : forall c a (i : nat) outs,
  permutations_loop fuel c a i = Some outs -> Sorted one_swap (a :: outs).
Proof.
  induction fuel as [|fuel IH]; intros c a i outs; cbn [permutations_loop].
  { destruct (i <? length a); [done|]. intros [= <-]. by repeat constructor. }
  destruct (i <? length a); [|intros [= <-]; by repeat constructor].
  destruct (c !! i) as [ci|]; [|done]. simpl.
  destruct (Nat.ltb_spec ci i) as [Hci|Hci]; [|apply IH].
  destruct (a !! i) as [ai|] eqn:Hai; [|done]. simpl.
  destruct (a !! (if Nat.odd i then ci else 0)) as [aj|] eqn:Haj; [|done]. simpl.
  destruct (permutations_loop fuel _ _ 1) as [rest|] eqn:Hrest; [|done].
  intros [= <-]. constructor; [by eapply IH|]. constructor.
  exists i, (if Nat.odd i then ci else 0), ai, aj.
  split; [destruct (Nat.odd i); lia|]. done.
Qed.

End HeapLoop.

Section AllPermutations.
Local Open Scope nat_scope.
Context {A : Type}.

Lemma length_interleave (x : A) (l : list A) :
  length (interleave x l) = S (length l).
Proof. induction l as [|y l IH]; simpl; [done|]. by rewrite length_fmap, IH. Qed.

Lemma length_bind_const {B C} (f : B -> list C) (l : list B) (n : nat) :
  Forall (fun x => length (f x) = n) l -> length (l ≫= f) = length l * n.
Proof.
  induction 1 as [|x l Hx Hl IH]; [done|].
  rewrite bind_cons, length_app, IH, Hx. simpl. lia.
Qed.

Lemma length_all_permutations (l : list A) :
  length (list.permutations l) = fact (length l).
Proof.
  induction l as [|x l IH]; [done|]. cbn [list.permutations].
  rewrite (length_bind_const _ _ (S (length l))).
  - rewrite IH. cbn [length fact]. lia.
  - apply Forall_forall. intros p Hp%permutations_Permutation.
    by rewrite length_interleave, <- Hp.
Qed.

Lemma NoDup_all_permutations (l : list (list A)) (array : list A) :
  NoDup l -> Forall (fun p => p ≡ₚ array) l -> length l = fact (length array) ->
  forall p, p ≡ₚ array -> p ∈ l.
Proof.
  intros Hnd Hall Hlen p Hp.
  assert (l ⊆+ list.permutations array) as Hsub.
  { apply NoDup_submseteq; [done|]. rewrite Forall_forall in Hall.
    intros q Hq. apply permutations_Permutation. symmetry. by apply Hall. }
  apply submseteq_length_Permutation in Hsub;
    [|by rewrite length_all_permutations, Hlen].
  rewrite Hsub. apply permutations_Permutation. by symmetry.
Qed.

End AllPermutations.

(** [permutations] ends for every array, and yields [n!] arrays for [n]
    items: first the array as it is given, and then arrays that hold the
    items of the given array, each as often as the given array holds
    it. *)
Theorem permutations_count {A} (array : list A) :
  exists l,
    permutations array = Some l
    /\ length l = fact (length array)
    /\ l !! 0%nat = Some array
    /\ Forall (fun p => p ≡ₚ array) l.
Proof.
  destruct (permutations_spec array) as (outs & Hrun & Hlen & Hall & _).
  exists (array :: outs). split; [done|]. split; [done|]. split; [done|].
  by constructor.
Qed.

(** For pairwise different items [permutations] yields every permutation
    of the array exactly once (Heap's algorithm is correct). *)
Theorem permutations_each_once {A} (array : list A) :
  NoDup array ->
  exists l,
    permutations array = Some l
    /\ NoDup l
    /\ forall p, p ∈ l <-> p ≡ₚ array.
Proof.
  intros Hnd.
  destruct (permutations_spec array) as (outs & Hrun & Hlen & Hall & Hnodup).
  assert (Forall (fun p => p ≡ₚ array) (array :: outs)) as Hall'
    by (by constructor).
  exists (array :: outs). split; [done|]. split; [by apply Hnodup|].
  intros p. split.
  - intros Hp. rewrite Forall_forall in Hall'. by apply Hall'.
  - by apply NoDup_all_permutations; [apply Hnodup| |].
Qed.

Lemma permutations_each_once_witness :
  exists l,
    permutations [1; 2; 3; 4]%Z = Some l
    /\ NoDup l
    /\ forall p, p ∈ l <-> p ≡ₚ [1; 2; 3; 4]%Z.
Proof.
  apply (permutations_each_once [1; 2; 3; 4]%Z).
  apply (bool_decide_unpack _). vm_compute. exact I.
Defined.

(** Each array that [permutations] yields after the first is the one
    yielded before it with the items at two different indices
    exchanged. *)
Theorem permutations_one_swap {A} (array : list A) :
  exists l, permutations array = Some l /\ Sorted one_swap l.
Proof.
  destruct (permutations_spec array) as (outs & Hrun & _).
  exists (array :: outs). split; [done|].
  unfold permutations in Hrun.
  destruct (permutations_loop _ _ array 1) as [rest|] eqn:Hloop; [|done].
  injection Hrun as <-. by eapply loop_chain.
Qed.

(** ** The tests of the sort on rearranged arrays *)
Section SortRearranged.
Context {T : Type} `{EqDecision T}.
Context (R : relation T) `{!StrictOrder R} `{!Trichotomy R}.

(** The sort of a rearranged ascending array, with the comparator wrapped
    by [testComp]. *)
Lemma sort_rearranged (comp : Comparator) (array perm : list T) (maxCalls : Z) :
  derived_from R comp -> StronglySorted R array -> perm ≡ₚ array ->
  mergeInsertionMaxComparisons (Z.of_nat (length array)) = inr maxCalls ->
  exists st',
    (run comp (testComp maxCalls (test_init None) (mergeInsertionSort perm))
       []).2 = Returned (inr array, st')
    /\ warnings st' = 0%nat.
Proof.
  intros Hcomp Hsorted Hperm Hmax.
  assert (NoDup perm) as Hnd.
  { rewrite Hperm. by apply (StronglySorted_strict_NoDup R). }
  rewrite <- Hperm, maxComparisons_sum in Hmax. injection Hmax as <-.
  destruct (testComp_passes (Z.of_nat (comparisons_sum (length perm))) None comp
              (mergeInsertionSort perm) (test_init None) [] []
              (records_init None)) as (l & _ & _ & Ho).
  { eapply wp_mono; [|apply (sort_wp any_response perm Hnd)].
    intros l o (_ & Hnr & Hcount & _). rewrite app_nil_r. split; [done|lia]. }
  destruct (sort_run_ordered R comp perm [] Hcomp Hnd)
    as (result & Hres & Hrp & Hrs).
  rewrite Hres in Ho. destruct Ho as (st' & Hwrapped & _ & Hw).
  assert (result = array) as ->.
  { pose proof (strict_order_antisymm R).
    apply (StronglySorted_unique R); [done|done|]. by rewrite Hrp. }
  by exists st'.
Qed.

End SortRearranged.



Lemma xorshift32_values_from (n : nat) (y : Z) :
  0 < y < 2 ^ 32 ->
  Forall (fun v => 0 <= v) (take_values xorshift32_next n y).
Proof.
  revert y. induction n as [|n IH]; intros y Hy; [constructor|].
  cbn [take_values]. pose proof (xorshift32_next_range y Hy) as [Heq Hr].
  destruct (xorshift32_next y) as [v y']. simpl in *. subst y'.
  constructor; [lia|by apply IH].
Qed.

(** A shuffle and a sort, [fisherYates(a, xorshift32())] and then
    [mergeInsertionSort(a, testComp(comp, maxCalls))] with [maxCalls] set
    to [mergeInsertionMaxComparisons(len)], all of the current revision,
    where [fisherYates] takes the generator as its second argument.  For
    every rearrangement [a] of an ascending array the shuffle draws no
    negative number and leaves a rearrangement, and the sort returns the
    ascending array without a rejected call or a warning; so it can be
    repeated on the array that the shuffle left. *)
Theorem sort_after_shuffle {T : Type} `{EqDecision T}
    (R : relation T) `{!StrictOrder R} `{!Trichotomy R}
    (comp : Comparator) (array a : list T) (maxCalls : Z) :
  derived_from R comp -> StronglySorted R array -> a ≡ₚ array ->
  mergeInsertionMaxComparisons (Z.of_nat (length array)) = inr maxCalls ->
  exists shuffled random',
    fisherYates xorshift32_next a xorshift32 = Some (shuffled, random')
    /\ shuffled ≡ₚ array
    /\ exists st',
         (run comp (testComp maxCalls (test_init None)
                      (mergeInsertionSort shuffled)) []).2
           = Returned (inr array, st')
         /\ warnings st' = 0%nat.
Proof.
  intros Hcomp Hsorted Ha Hmax.
  destruct (fisherYates_loop_spec xorshift32_next (length a - 1) a xorshift32)
    as (shuffled & Hrun & Hperm); [lia| |].
  { apply xorshift32_values_from. unfold xorshift32. lia. }
  exists shuffled, (after_values xorshift32_next (length a - 1) xorshift32).
  split; [done|].
  assert (shuffled ≡ₚ array) as Hperm' by (by rewrite Hperm).
  split; [done|]. by apply (sort_rearranged R).
Qed.

Lemma sort_after_shuffle_witness :
  exists shuffled random',
    fisherYates xorshift32_next [5; 4; 3; 2; 1] xorshift32
      = Some (shuffled, random')
    /\ shuffled ≡ₚ [1; 2; 3; 4; 5]
    /\ exists st',
         (run compare_Z (testComp 7 (test_init None)
                           (mergeInsertionSort shuffled)) []).2
           = Returned (inr [1; 2; 3; 4; 5], st')
         /\ warnings st' = 0%nat.
Proof.
  apply (sort_after_shuffle Z.lt compare_Z [1; 2; 3; 4; 5] [5; 4; 3; 2; 1] 7
           compare_Z_derived).
  - apply (bool_decide_unpack _). vm_compute. exact I.
  - apply (reverse_Permutation [1; 2; 3; 4; 5]).
  - vm_compute. reflexivity.
Defined.
